(** * google-pm: the cluster-and-prioritise notebook

    A shallow embedding of the computational cells of
    [google-product-manager.ipynb]: the pages asked of the tracker, the
    clean-up of the descriptions, building the cluster list from the
    trained centroids (cell "Cluster"), the aggregation pass, the min/max
    scoring pass and the final ranking (cells "Prioritize").

    Conventions.
    - Python [int] is [Z]; list positions and cluster labels are [nat].
    - The weights and the scores, Python [float]s, are modelled by exact
      rationals [Q]; their rounding is outside the model.  Equations
      between scores are stated with [==].  The page count of
      [generate_urls] is the one place where an int is made from a float:
      that division is modelled with its rounding.
    - A cell that can raise returns [result A = exception + A].
    - A dict with a key that may be missing has an [option] field. *)

From stdpp Require Import base list strings sorting.
From Stdlib Require Import ZArith QArith Qminmax Lqa Lia.
From Stdlib Require DecimalString DecimalFacts DecimalPos DecimalZ.
From Stdlib Require Import Ascii.

Local Open Scope Z_scope.

(** ** Python exceptions and the error monad *)

Inductive exception : Set :=
| ZeroDivisionError
| ValueError
| IndexError
| KeyError
| OverflowError
| InvalidClusterCount
| EmptyCorpusError.

Definition result (A : Type) : Type := (exception + A)%type.

Definition raise {A : Type} (e : exception) : result A := inl e.
Definition ret {A : Type} (a : A) : result A := inr a.

Definition bind {A B : Type} (m : result A) (k : A -> result B) : result B :=
  match m with
  | inl e => inl e
  | inr a => k a
  end.

Notation "'let*' x ':=' m 'in' k" := (bind m (fun x => k))
  (at level 10, x pattern, m at level 100, k at level 200).

Fixpoint mapM {A B : Type} (f : A -> result B) (l : list A) : result (list B) :=
  match l with
  | [] => ret []
  | x :: l' =>
      let* y := f x in
      let* ys := mapM f l' in
      ret (y :: ys)
  end.

Fixpoint foldM {A S : Type} (f : S -> A -> result S) (l : list A) (s : S) : result S :=
  match l with
  | [] => ret s
  | x :: l' =>
      let* s' := f s x in
      foldM f l' s'
  end.

(** ** The data of the notebook *)

(** One entry of [issues]: the dict built in the clean-up cell, with the
    ['prediction'] key that the aggregation pass adds. *)
Record issue : Set := Issue {
  issue_id : Z;
  issue_votes : Z;
  issue_dirty_dsecription : string;
  issue_description : string;
  issue_prediction : option nat
}.

#[global] Instance issue_eq_dec : EqDecision issue.
Proof. solve_decision. Defined.

(** One entry of [clusters]: ['index'], ['features'], ['votes'], ['issues'],
    and the three keys that the scoring pass adds. *)
Record cluster : Set := Cluster {
  c_index : nat;
  c_features : list string;
  c_votes : Z;
  c_issues : Z;
  c_vote_score : option Q;
  c_issue_score : option Q;
  c_score : option Q
}.

(** ** Python built-ins used by the cells *)

(** [min(l)] and [max(l)]: [ValueError] on an empty list. *)
Definition py_min (l : list Z) : result Z :=
  match l with
  | [] => raise ValueError
  | x :: l' => ret (fold_left Z.min l' x)
  end.

Definition py_max (l : list Z) : result Z :=
  match l with
  | [] => raise ValueError
  | x :: l' => ret (fold_left Z.max l' x)
  end.

(** [a / b] on two ints: true division, [ZeroDivisionError] when [b = 0]. *)
Definition truediv (a b : Z) : result Q :=
  if b =? 0 then raise ZeroDivisionError
  else ret (inject_Z a / inject_Z b)%Q.

(** ** The scoring pass *)

Section Scoring.
(** [vote_multiplier] and [issue_multiplier], read as floats. *)
Variables vote_multiplier issue_multiplier : Q.

(** The body of [for cluster in clusters:] in the scoring cell. *)
Definition score_cluster (min_votes max_votes min_issues max_issues : Z)
    (c : cluster) : result cluster :=
  let* v := truediv (c_votes c - min_votes) (max_votes - min_votes) in
  let vote_score := (vote_multiplier * v)%Q in
  let* i := truediv (c_issues c - min_issues) (max_issues - min_issues) in
  let issue_score := (issue_multiplier * i)%Q in
  ret {| c_index := c_index c;
         c_features := c_features c;
         c_votes := c_votes c;
         c_issues := c_issues c;
         c_vote_score := Some vote_score;
         c_issue_score := Some issue_score;
         c_score := Some ((vote_score + issue_score) / 2)%Q |}.

(** The scoring cell up to the sort: the four extrema, then the loop. *)
Definition scoring (clusters : list cluster) : result (list cluster) :=
  let* min_votes := py_min (map c_votes clusters) in
  let* max_votes := py_max (map c_votes clusters) in
  let* min_issues := py_min (map c_issues clusters) in
  let* max_issues := py_max (map c_issues clusters) in
  mapM (score_cluster min_votes max_votes min_issues max_issues) clusters.
End Scoring.

(** ** The aggregation pass *)

Definition set_prediction (p : nat) (i : issue) : issue :=
  {| issue_id := issue_id i;
     issue_votes := issue_votes i;
     issue_dirty_dsecription := issue_dirty_dsecription i;
     issue_description := issue_description i;
     issue_prediction := Some p |}.

(** [cluster['votes'] = 0; cluster['issues'] = 0] *)
Definition reset_counters (c : cluster) : cluster :=
  {| c_index := c_index c;
     c_features := c_features c;
     c_votes := 0;
     c_issues := 0;
     c_vote_score := c_vote_score c;
     c_issue_score := c_issue_score c;
     c_score := c_score c |}.

(** [c['votes'] += v] *)
Definition add_votes (v : Z) (c : cluster) : cluster :=
  {| c_index := c_index c;
     c_features := c_features c;
     c_votes := c_votes c + v;
     c_issues := c_issues c;
     c_vote_score := c_vote_score c;
     c_issue_score := c_issue_score c;
     c_score := c_score c |}.

(** [c['issues'] += 1] *)
Definition add_issue (c : cluster) : cluster :=
  {| c_index := c_index c;
     c_features := c_features c;
     c_votes := c_votes c;
     c_issues := c_issues c + 1;
     c_vote_score := c_vote_score c;
     c_issue_score := c_issue_score c;
     c_score := c_score c |}.

(** [l[i]] for reading, and [l[i] = f(l[i])] for an in-place update of the
    element at position [i]; both raise [IndexError] out of range. *)
Definition getitem {A : Type} (l : list A) (i : nat) : result A :=
  match l !! i with
  | Some x => ret x
  | None => raise IndexError
  end.

Definition update_item {A : Type} (f : A -> A) (i : nat) (l : list A) : result (list A) :=
  match l !! i with
  | Some x => ret (<[i := f x]> l)
  | None => raise IndexError
  end.

(** [l.index(x)]: the first position holding a value equal to [x],
    [ValueError] if there is none. *)
Definition py_index (x : issue) (l : list issue) : result nat :=
  match list_find (fun y => y = x) l with
  | Some (i, _) => ret i
  | None => raise ValueError
  end.

Section Aggregation.
(** The fitted vectorizer and the trained model are library objects; the
    cell only calls [vectorizer.transform] and [feature_model.predict]. *)
Context {vector : Type}.
Variable transform : string -> vector.
Variable predict : vector -> nat.

(** The body of [for issue in issues:], at position [j] of the list.  The
    state is the pair of the two lists the body mutates. *)
Definition aggregate_issue (st : list issue * list cluster) (j : nat)
    : result (list issue * list cluster) :=
  let '(issues, clusters) := st in
  let* issue := getitem issues j in
  let vectorized_description := transform (issue_description issue) in
  let prediction := predict vectorized_description in
  (* issues[issues.index(issue)]['prediction'] = prediction[0] *)
  let* k := py_index issue issues in
  let* issues := update_item (set_prediction prediction) k issues in
  (* clusters[issue['prediction']]['votes'] += issue['votes'] *)
  let* issue := getitem issues j in
  let* p := match issue_prediction issue with
            | Some p => ret p
            | None => raise KeyError
            end in
  let* clusters := update_item (add_votes (issue_votes issue)) p clusters in
  (* clusters[issue['prediction']]['issues'] += 1 *)
  let* clusters := update_item add_issue p clusters in
  ret (issues, clusters).

(** The whole aggregation cell: reset every counter, then one pass. *)
Definition aggregate (issues : list issue) (clusters : list cluster)
    : result (list issue * list cluster) :=
  foldM aggregate_issue (seq 0 (length issues)) (issues, map reset_counters clusters).
End Aggregation.

(** ** Ranking *)

Section StableSort.
Context {A : Type}.
Variable key : A -> Q.

(** Insertion before the first element whose key is not smaller: equal
    keys keep their order, as in Python's stable sort. *)
Fixpoint insert_by (x : A) (l : list A) : list A :=
  match l with
  | [] => [x]
  | y :: l' => if Qle_bool (key x) (key y) then x :: l else y :: insert_by x l'
  end.

(** An ascending stable sort. *)
Definition stable_sort (l : list A) : list A := foldr insert_by [] l.

(** [sorted(l, key=key, reverse=True)]: CPython reverses the list, sorts
    it stably in ascending order and reverses the outcome. *)
Definition sorted_reverse (l : list A) : list A := reverse (stable_sort (reverse l)).
End StableSort.

(** [sorted(clusters, key=lambda k: k['score'], reverse=True)]; the keys are
    all computed before the sort, [KeyError] if a cluster has no score. *)
Definition clusters_by_score (clusters : list cluster) : result (list cluster) :=
  let* keyed := mapM (fun c => match c_score c with
                               | Some s => ret (s, c)
                               | None => raise KeyError
                               end) clusters in
  ret (map snd (sorted_reverse fst keyed)).

(** ** Labelling the clusters *)

(** [row.argsort()]: the positions of [row] in ascending order of value.
    Equal values are kept in position order, as numpy does on rows of at
    most 16 entries, which it sorts by insertion; on longer rows numpy may
    order equal values differently, and nothing below is stated about the
    order among equal values of such rows. *)
Definition argsort (row : list Q) : list nat :=
  map fst (stable_sort snd (zip (seq 0 (length row)) row)).

(** [cluster_centers_.argsort()[:, ::-1]] *)
Definition order_centroids (cluster_centers : list (list Q)) : list (list nat) :=
  map (fun row => reverse (argsort row)) cluster_centers.

(** [[terms[x] for x in order[:10]]] *)
Definition features (terms : list string) (order : list nat) : result (list string) :=
  mapM (getitem terms) (take 10 order).

(** The loop [for i in range(number_of_clusters): clusters.append({...})]. *)
Definition make_clusters (number_of_clusters : nat) (order : list (list nat))
    (terms : list string) : result (list cluster) :=
  mapM (fun i =>
          let* row := getitem order i in
          let* fs := features terms row in
          ret {| c_index := i; c_features := fs; c_votes := 0; c_issues := 0;
                 c_vote_score := None; c_issue_score := None; c_score := None |})
       (seq 0 number_of_clusters).

(** ** The cluster cell

    The cell that fits the vectorizer and the clustering and builds the
    cluster list.  [TfidfVectorizer] and [KMeans] are scikit-learn's and
    not part of the repository: what their calls return or raise is taken
    as it comes, so the calls are variables here.  The cell has no code
    of its own between the calls and the loop. *)

Section ClusterCell.
Context {vectorizer_state model_state : Type}.

(** [vectorizer = TfidfVectorizer(stop_words=stop_words, ngram_range=ngram_range)]
    and [x = vectorizer.fit_transform(feature_documents)]: the fitted
    vectorizer and the matrix, or the exception of the call. *)
Variable fit_transform : list string -> result (vectorizer_state * list (list Q)).

(** [vectorizer.get_feature_names()] *)
Variable get_feature_names : vectorizer_state -> list string.

(** [feature_model = KMeans(n_clusters=number_of_clusters, init='k-means++',
    max_iter=100, n_init=1)] and [feature_model.fit(x)]: the fitted model,
    or the exception of the call. *)
Variable fit : Z -> list (list Q) -> result model_state.

(** [feature_model.cluster_centers_] *)
Variable cluster_centers_ : model_state -> list (list Q).

(** The cell; [range(number_of_clusters)] is empty for a number below 1. *)
Definition cluster_cell (number_of_clusters : Z) (issues : list issue)
    : result (vectorizer_state * model_state * list cluster) :=
  let feature_documents := issue_description <$> issues in
  let* fitted := fit_transform feature_documents in
  let vectorizer := fitted.1 in
  let x := fitted.2 in
  let* feature_model := fit number_of_clusters x in
  let order_centroids := order_centroids (cluster_centers_ feature_model) in
  let terms := get_feature_names vectorizer in
  let* clusters := make_clusters (Z.to_nat number_of_clusters) order_centroids terms in
  ret (vectorizer, feature_model, clusters).
End ClusterCell.

(** ** The vectorizer

    The notebook uses scikit-learn's [TfidfVectorizer], which is not part of
    the repository.  The definitions of this module follow the contract of
    the specification (section 4.1). *)
Module Vectorizer.

Record config : Set := Config {
  stop_words : list string;
  ngram_range : nat * nat
}.

(** The state left by [fit]: the frozen vocabulary (term at column [i])
    and the inverse document frequency of each column. *)
Record fitted : Set := Fitted {
  cfg : config;
  vocabulary : list string;
  idf : list Q
}.

(** Modelled from the spec: the tokeniser of the absent vectorizer.  The
    specification treats a description as "opaque token text"; a token is
    a maximal run of non-blank characters. *)
Definition tokenize (text : string) : list string := String.words text.

Definition is_stop_word (c : config) (t : string) : bool :=
  bool_decide (t ∈ stop_words c).

(** All windows of [n] consecutive tokens, left to right. *)
Fixpoint windows (n : nat) (tokens : list string) : list (list string) :=
  match tokens with
  | [] => []
  | _ :: rest =>
      if bool_decide (1 <= n <= length tokens)%nat
      then take n tokens :: windows n rest
      else []
  end.

Definition join_tokens (ts : list string) : string :=
  match ts with
  | [] => ""
  | t :: rest => foldl (fun acc u => acc +:+ " " +:+ u) t rest
  end.

(** Modelled from the spec: the analysis step of the absent vectorizer
    ("term: unigram or bigram string, after stopword filtering", with the
    n-gram range [(min_n, max_n)]): tokens, minus the stop words, then
    every n-gram with [min_n <= n <= max_n], shortest first. *)
Definition analyze (c : config) (text : string) : list string :=
  let tokens := filter (fun t => is_stop_word c t = false) (tokenize text) in
  let '(min_n, max_n) := ngram_range c in
  n ← seq min_n (S max_n - min_n);
  join_tokens <$> windows n tokens.

(** Terms in order of first occurrence. *)
Definition add_terms (vocab : list string) (doc : list string) : list string :=
  foldl (fun v t => if bool_decide (t ∈ v) then v else v ++ [t]) vocab doc.

Definition document_frequency (docs : list (list string)) (t : string) : nat :=
  length (filter (fun d => t ∈ d) docs).

Definition term_frequency (doc : list string) (t : string) : nat :=
  length (filter (fun u => u = t) doc).

(** Modelled from the spec: the weight of the absent vectorizer.  The
    specification names "inverse document frequency computed from the
    fit-time corpus" without a damping function; it is taken literally,
    the number of documents over the number of documents with the term. *)
Definition inverse_document_frequency (n_docs df : nat) : Q :=
  (inject_Z (Z.of_nat n_docs) / inject_Z (Z.of_nat df))%Q.

(** Modelled from the spec: [fit(corpus) -> Vocabulary] of the absent
    vectorizer: the term set of all documents with a column index per
    term in insertion order, the weights frozen with it;
    [EmptyCorpusError] on a corpus without documents (section 7). *)
Definition fit (c : config) (corpus : list string) : result fitted :=
  match corpus with
  | [] => raise EmptyCorpusError
  | _ =>
      let docs := analyze c <$> corpus in
      let vocab := foldl add_terms [] docs in
      ret {| cfg := c;
             vocabulary := vocab;
             idf := (fun t => inverse_document_frequency (length docs)
                                (document_frequency docs t)) <$> vocab |}
  end.

(** Modelled from the spec: [transform(text) -> vector] of the absent
    vectorizer: term frequency times the frozen inverse document
    frequency for each vocabulary column; a term outside the vocabulary
    has no column, an empty document gives the zero vector. *)
Definition transform (v : fitted) (text : string) : list Q :=
  let doc := analyze (cfg v) text in
  zip_with (fun t w => (inject_Z (Z.of_nat (term_frequency doc t)) * w)%Q)
           (vocabulary v) (idf v).

End Vectorizer.

(** ** The clustering engine

    The notebook uses scikit-learn's [KMeans], which is not part of the
    repository.  The definitions of this module follow the contract of the
    specification (section 4.2); the random choices of the seeding are the
    values of an oracle [seed], which plays the part of the seed parameter. *)
Module Clustering.

(** The square of the Euclidean distance.  Minimising it is minimising
    the distance, and it stays rational. *)
Definition sqdist (u v : list Q) : Q :=
  foldr Qplus 0%Q (zip_with (fun x y => ((x - y) * (x - y))%Q) u v).

(** The position of the least value, the lowest such position on ties. *)
Fixpoint argmin_from (best_i : nat) (best : Q) (i : nat) (ds : list Q) : nat :=
  match ds with
  | [] => best_i
  | d :: ds' =>
      if Qle_bool best d then argmin_from best_i best (S i) ds'
      else argmin_from i d (S i) ds'
  end.

Definition argmin (ds : list Q) : nat :=
  match ds with
  | [] => 0%nat
  | d :: ds' => argmin_from 0 d 1 ds'
  end.

(** Modelled from the spec: step (a) of the absent clustering engine,
    "assign each row to the centroid minimizing distance (Euclidean),
    breaking ties by lowest centroid index". *)
Definition assign (centroids : list (list Q)) (row : list Q) : nat :=
  argmin (sqdist row <$> centroids).

(** Modelled from the spec: [predict(vector) -> label] of the absent
    clustering engine, "applies only step (a) against the frozen,
    trained centroids". *)
Definition predict (centroids : list (list Q)) (v : list Q) : nat :=
  assign centroids v.

Definition vec_eqb (u v : list Q) : bool :=
  bool_decide (length u = length v) && forallb (fun p => Qeq_bool p.1 p.2) (zip u v).

Definition nonzero (v : list Q) : bool :=
  existsb (fun x => negb (Qeq_bool x 0)) v.

Fixpoint distinct (rows : list (list Q)) : list (list Q) :=
  match rows with
  | [] => []
  | r :: rest => if existsb (vec_eqb r) rest then distinct rest else r :: distinct rest
  end.

(** Modelled from the spec: the bound of the absent clustering engine on
    [K], "the number of distinct documents with non-zero vectors".  The
    engine is given the matrix only, so documents are told apart by their
    rows here: documents with the same vector count once. *)
Definition distinct_nonzero (matrix : list (list Q)) : nat :=
  length (distinct (filter (fun r => nonzero r = true) matrix)).

(** The rows labelled [i]. *)
Definition members (matrix : list (list Q)) (labels : list nat) (i : nat)
    : list (list Q) :=
  fst <$> filter (fun rl => rl.2 = i) (zip matrix labels).

Definition mean (rows : list (list Q)) : list Q :=
  match rows with
  | [] => []
  | r :: rs =>
      let n := inject_Z (Z.of_nat (length rows)) in
      (fun s => (s / n)%Q) <$> foldl (zip_with Qplus) r rs
  end.

(** Modelled from the spec: step (b) of the absent clustering engine,
    "recompute each centroid as the mean of its assigned rows, leaving a
    centroid unchanged if it has zero assigned rows". *)
Definition relocate (matrix : list (list Q)) (labels : list nat)
    (centroids : list (list Q)) : list (list Q) :=
  imap (fun i c => match members matrix labels i with
                   | [] => c
                   | rows => mean rows
                   end) centroids.

(** Modelled from the spec: the iteration of the absent clustering engine,
    steps (a) and (b) until "no row changes assignment between
    iterations, or [max_iterations] is reached, whichever first". *)
Fixpoint iterate (max_iterations : nat) (matrix : list (list Q))
    (previous : option (list nat)) (centroids : list (list Q)) : list (list Q) :=
  match max_iterations with
  | O => centroids
  | S n =>
      let labels := assign centroids <$> matrix in
      if bool_decide (previous = Some labels) then centroids
      else iterate n matrix (Some labels) (relocate matrix labels centroids)
  end.

(** The squared distance of a row to the nearest centroid chosen so far. *)
Definition nearest_sqdist (chosen : list (list Q)) (row : list Q) : Q :=
  match sqdist row <$> chosen with
  | [] => 0%Q
  | d :: ds => foldl Qmin d ds
  end.

Section Seeded.
(** [seed n weights]: the row drawn at the [n]-th draw, from the
    distribution that gives each row its weight. *)
Variable seed : nat -> list Q -> nat.

Definition row_at (matrix : list (list Q)) (i : nat) : list Q :=
  default [] (matrix !! i).

Fixpoint seed_more (n k : nat) (matrix chosen : list (list Q)) : list (list Q) :=
  match k with
  | O => chosen
  | S k' =>
      let weights := nearest_sqdist chosen <$> matrix in
      seed_more (S n) k' matrix (chosen ++ [row_at matrix (seed n weights)])
  end.

(** Modelled from the spec: the initialisation of the absent clustering
    engine, "K centroids using a distance-weighted seeding strategy
    (successive centroids chosen with probability proportional to
    squared distance from already-chosen centroids)"; the first one is
    drawn with equal weights.  [n] is the number of the first draw. *)
Definition seeding (n K : nat) (matrix : list (list Q)) : list (list Q) :=
  match K with
  | O => []
  | S k =>
      let first := row_at matrix (seed n ((fun _ => 1%Q) <$> matrix)) in
      seed_more (S n) k matrix [first]
  end.

(** Modelled from the spec: one run of the absent clustering engine, the
    initialisation followed by the iteration; the labels are those of
    the final centroids. *)
Definition run (round K max_iterations : nat) (matrix : list (list Q))
    : list nat * list (list Q) :=
  let centroids := iterate max_iterations matrix None (seeding (round * K) K matrix) in
  (assign centroids <$> matrix, centroids).

(** Modelled from the spec: the "total within-cluster squared distance"
    by which the absent clustering engine compares its runs. *)
Definition inertia (matrix : list (list Q)) (r : list nat * list (list Q)) : Q :=
  foldr Qplus 0%Q
    (zip_with (fun row l => sqdist row (row_at r.2 l)) matrix r.1).

(** Modelled from the spec: [train(matrix, K, max_iterations, num_inits,
    seed) -> (labels, centroids)] of the absent clustering engine: it
    fails with [InvalidClusterCount] "if K < 1 or K exceeds the number
    of distinct documents with non-zero vectors"; "with num_inits > 1,
    repeats the whole process that many times and keeps the run with
    lowest total within-cluster squared distance". *)
Definition train (matrix : list (list Q)) (K max_iterations num_inits : nat)
    : result (list nat * list (list Q)) :=
  if bool_decide (K < 1 \/ distinct_nonzero matrix < K)%nat
  then raise InvalidClusterCount
  else
    ret (foldl (fun best round =>
                  let r := run round K max_iterations matrix in
                  if Qle_bool (inertia matrix best) (inertia matrix r)
                  then best else r)
               (run 0 K max_iterations matrix)
               (seq 1 (num_inits - 1))).
End Seeded.

End Clustering.

(** ** The notebook, cell after cell *)

Section Notebook.
Variable stop_words : list string.
Variable ngram_range : nat * nat.
Variable number_of_clusters : nat.
Variables max_iter n_init : nat.
Variable seed : nat -> list Q -> nat.
Variables vote_multiplier issue_multiplier : Q.

Record outcome : Set := Outcome {
  out_issues : list issue;
  out_clusters : list cluster;
  out_clusters_by_score : list cluster
}.

(** The cells "Cluster" and "Prioritize" on the cleaned issue list. *)
Definition notebook (issues : list issue) : result outcome :=
  let feature_documents := issue_description <$> issues in
  let* vectorizer := Vectorizer.fit (Vectorizer.Config stop_words ngram_range)
                                    feature_documents in
  let x := Vectorizer.transform vectorizer <$> feature_documents in
  let* feature_model := Clustering.train seed x number_of_clusters max_iter n_init in
  let cluster_centers := feature_model.2 in
  let terms := Vectorizer.vocabulary vectorizer in
  let* clusters := make_clusters number_of_clusters (order_centroids cluster_centers) terms in
  let* aggregated :=
    aggregate (Vectorizer.transform vectorizer) (Clustering.predict cluster_centers)
              issues clusters in
  let* clusters := scoring vote_multiplier issue_multiplier aggregated.2 in
  let* clusters_by_score := clusters_by_score clusters in
  ret (Outcome aggregated.1 clusters clusters_by_score).
End Notebook.

(** ** The scores as the specification writes them *)

Definition spec_vote_score (vote_multiplier : Q) (vote_sum min_vote_sum max_vote_sum : Z) : Q :=
  (vote_multiplier * inject_Z (vote_sum - min_vote_sum)
     / inject_Z (max_vote_sum - min_vote_sum))%Q.

Definition spec_issue_score (issue_multiplier : Q)
    (issue_count min_issue_count max_issue_count : Z) : Q :=
  (issue_multiplier * inject_Z (issue_count - min_issue_count)
     / inject_Z (max_issue_count - min_issue_count))%Q.

Definition spec_combined_score (issue_score vote_score : Q) : Q :=
  ((issue_score + vote_score) / 2)%Q.

Definition in_unit_interval (q : Q) : Prop := (0 <= q /\ q <= 1)%Q.

(** [c'] is [c] with the three scores of the specification. *)
Definition scored_as (vm im : Q) (min_votes max_votes min_issues max_issues : Z)
    (c c' : cluster) : Prop :=
  c_index c' = c_index c /\ c_features c' = c_features c /\
  c_votes c' = c_votes c /\ c_issues c' = c_issues c /\
  exists vs ics s,
    c_vote_score c' = Some vs /\ c_issue_score c' = Some ics /\ c_score c' = Some s /\
    (vs == spec_vote_score vm (c_votes c) min_votes max_votes)%Q /\
    (ics == spec_issue_score im (c_issues c) min_issues max_issues)%Q /\
    (s == spec_combined_score ics vs)%Q /\
    ((vm == 1)%Q -> (im == 1)%Q ->
     in_unit_interval vs /\ in_unit_interval ics /\ in_unit_interval s).

(** Two clusters with the same number of votes. *)
Definition equal_votes_clusters : list cluster :=
  [ {| c_index := 0; c_features := []; c_votes := 3; c_issues := 1;
       c_vote_score := None; c_issue_score := None; c_score := None |};
    {| c_index := 1; c_features := []; c_votes := 3; c_issues := 2;
       c_vote_score := None; c_issue_score := None; c_score := None |} ].

(** ** The aggregation pass, read as a fold

    What the pass computes when the list of issues is not used as a store:
    every issue is tagged with the label of its own description, and
    counted once in the cluster of that label. *)
Section Tally.
Context {vector : Type}.
Variable transform : string -> vector.
Variable predict : vector -> nat.

Definition predicted (i : issue) : nat := predict (transform (issue_description i)).

Definition tag (i : issue) : issue := set_prediction (predicted i) i.

Definition tally (clusters : list cluster) (i : issue) : result (list cluster) :=
  update_item (fun c => add_issue (add_votes (issue_votes i) c)) (predicted i) clusters.
End Tally.

Definition sumZ (l : list Z) : Z := foldr Z.add 0 l.

(** ** Orders on the ranked list *)

(** [a] before [b] by ascending key, and by [R] among equal keys. *)
Definition key_then {A : Type} (key : A -> Q) (R : relation A) (a b : A) : Prop :=
  (key a < key b)%Q \/ ((key a == key b)%Q /\ R a b).

(** [a] ranks strictly before [b]: a higher combined score, or the same
    score and a lower cluster index. *)
Definition ranks_before (a b : cluster) : Prop :=
  match c_score a, c_score b with
  | Some sa, Some sb => (sb < sa)%Q \/ ((sa == sb)%Q /\ (c_index a < c_index b)%nat)
  | _, _ => False
  end.

(** ** A small run, used to exercise the statements *)

Definition example_transform (s : string) : string := s.

Definition example_predict (s : string) : nat := (String.length s mod 2)%nat.

Definition example_issues : list issue :=
  [ Issue 101 4 "<b>a</b>" "a" None;
    Issue 102 1 "ab" "ab" None;
    Issue 103 2 "abc" "abc" None;
    Issue 101 4 "<b>a</b>" "a" None ].

Definition example_order : list (list nat) := [[1; 0]; [0; 1]]%nat.

Definition example_terms : list string := ["api"; "upgrade"].

Definition example_clusters : list cluster :=
  Eval vm_compute in
    match make_clusters 2 example_order example_terms with
    | inr clusters => clusters
    | inl _ => []
    end.

Definition example_aggregated : list issue * list cluster :=
  Eval vm_compute in
    match aggregate example_transform example_predict example_issues example_clusters with
    | inr st => st
    | inl _ => ([], [])
    end.

Definition example_scored : list cluster :=
  Eval vm_compute in
    match scoring 1 1 example_aggregated.2 with
    | inr clusters => clusters
    | inl _ => []
    end.

(** Three issues: two with the same text and one without text. *)
Definition repeated_issues : list issue :=
  [ {| issue_id := 1; issue_votes := 5; issue_dirty_dsecription := "upgrade api";
       issue_description := "upgrade api"; issue_prediction := None |};
    {| issue_id := 2; issue_votes := 3; issue_dirty_dsecription := "upgrade api";
       issue_description := "upgrade api"; issue_prediction := None |};
    {| issue_id := 3; issue_votes := 0; issue_dirty_dsecription := "";
       issue_description := ""; issue_prediction := None |} ].

(** A vocabulary of twelve terms and two centres over it. *)
Definition twelve_terms : list string :=
  ["add"; "api"; "dark"; "export"; "login"; "map"; "mode"; "offline"; "search";
   "share"; "sync"; "upgrade"].

Definition twelve_centers : list (list Q) :=
  [ [0; 3 # 4; 0; 1 # 8; 1 # 9; 1 # 5; 0; 1 # 7; 1 # 3; 1 # 6; 1 # 4; 1 # 2];
    [1 # 2; 0; 2 # 3; 1 # 9; 1 # 8; 0; 2 # 3; 1 # 7; 1 # 6; 1 # 5; 1 # 4; 0] ]%Q.

(** ** The weight of a term in a centroid *)

Definition weight_at (row : list Q) (i : nat) : Q := default 0%Q (row !! i).

(** A centroid that gives its two terms the same weight. *)
Definition tied_centers : list (list Q) := [[1 # 2; 1 # 2]%Q].

(** ** A small training set, used to exercise the statements *)

Definition example_seed (n : nat) (weights : list Q) : nat := n.

Definition example_matrix : list (list Q) := [[1; 0]; [0; 1]; [0; 2]]%Q.

Definition example_vectors (s : string) : list Q :=
  [inject_Z (Z.of_nat (String.length s)); 1%Q].

Definition example_model : list nat * list (list Q) :=
  Eval vm_compute in
    match Clustering.train example_seed example_matrix 2 100 1 with
    | inr m => m
    | inl _ => ([], [])
    end.

Definition example_corpus : list string :=
  ["upgrade the api please"; "please upgrade api"; "add a dark mode"].

(** ** The end-to-end example of the specification *)

(** A seeding oracle that respects the distribution: a row of weight zero
    is never drawn while some row has a positive weight. *)
Definition admissible (seed : nat -> list Q -> nat) : Prop :=
  forall n weights,
    Exists (fun w => (0 < w)%Q) weights ->
    exists w, weights !! seed n weights = Some w /\ (0 < w)%Q.

(** The three issues of the example, as the clean-up cell builds them. *)
Definition api_issues (id1 id2 id3 : Z) (dirty1 dirty2 dirty3 : string) : list issue :=
  [ Issue id1 5 dirty1 "upgrade the api please" None;
    Issue id2 3 dirty2 "please upgrade api" None;
    Issue id3 0 dirty3 "add a dark mode" None ].

(** The vectors of the two API issues and of the dark-mode issue over the
    vocabulary [upgrade, api, add, dark, mode], and the document-term
    matrix of the example. *)
Definition api_vector : list Q := [3 # 2; 3 # 2; 0; 0; 0]%Q.
Definition dark_vector : list Q := [0 # 2; 0 # 2; 3; 3; 3]%Q.
Definition api_matrix : list (list Q) := [api_vector; api_vector; dark_vector].

Definition api_fitted (stop_words : list string) : Vectorizer.fitted :=
  Vectorizer.Fitted (Vectorizer.Config stop_words (1, 1)%nat)
    ["upgrade"; "api"; "add"; "dark"; "mode"]
    [3 # 2; 3 # 2; 3 # 1; 3 # 1; 3 # 1]%Q.

(** A concrete oracle: the first row of positive weight. *)
Fixpoint first_positive (weights : list Q) : nat :=
  match weights with
  | [] => 0%nat
  | w :: rest => if Qle_bool w 0 then S (first_positive rest) else 0%nat
  end.

Definition first_positive_seed (n : nat) (weights : list Q) : nat :=
  first_positive weights.

(** ** The other cells of the notebook *)

(** [sorted(clusters, key=lambda k: k['issues'], reverse=True)] and the same
    by votes.  The keys are ints; they are compared as the rationals they
    are. *)
Definition clusters_by_issues (clusters : list cluster) : list cluster :=
  sorted_reverse (fun c => inject_Z (c_issues c)) clusters.

Definition clusters_by_votes (clusters : list cluster) : list cluster :=
  sorted_reverse (fun c => inject_Z (c_votes c)) clusters.

(** [[x for x in l if f(x)]] when the test can raise. *)
Fixpoint filterM {A : Type} (f : A -> result bool) (l : list A) : result (list A) :=
  match l with
  | [] => ret []
  | x :: l' =>
      let* keep := f x in
      let* rest := filterM f l' in
      ret (if keep then x :: rest else rest)
  end.

(** [i['prediction']] *)
Definition issue_label (i : issue) : result nat :=
  match issue_prediction i with
  | Some p => ret p
  | None => raise KeyError
  end.

(** [[i for i in issues if i['prediction'] == clusters_by_score[n]['index']]],
    the issues listed by the last cell (with [n = 6] there). *)
Definition issues_of_ranked (issues : list issue) (ranked : list cluster) (n : nat)
    : result (list issue) :=
  filterM (fun i =>
             let* p := issue_label i in
             let* c := getitem ranked n in
             ret (bool_decide (p = c_index c)))
          issues.

Section Sample.
Context {vector : Type}.
Variable transform : string -> vector.
Variable predict : vector -> nat.

(** The cell that predicts the cluster of one issue.  [idx] is the value of
    [random.randint(0, len(issues))], between [0] and [len(issues)], both
    included.  The outcome is the label and the ten terms printed. *)
Definition sample_prediction (issues : list issue) (order : list (list nat))
    (terms : list string) (idx : nat) : result (nat * list string) :=
  let* issue := getitem issues idx in
  let y := transform (issue_description issue) in
  let prediction := predict y in
  let* row := getitem order prediction in
  let* printed := mapM (getitem terms) (take 10 row) in
  ret (prediction, printed).

(** The cells from the cluster list to the ranking, on the centres of a
    trained model. *)
Definition prioritize (number_of_clusters : nat) (cluster_centers : list (list Q))
    (terms : list string) (vote_multiplier issue_multiplier : Q)
    (issues : list issue) : result outcome :=
  let* clusters :=
    make_clusters number_of_clusters (order_centroids cluster_centers) terms in
  let* aggregated := aggregate transform predict issues clusters in
  let* clusters := scoring vote_multiplier issue_multiplier aggregated.2 in
  let* ranked := clusters_by_score clusters in
  ret (Outcome aggregated.1 clusters ranked).
End Sample.

(** The example run scored with multipliers 2 and 3. *)
Definition example_scored_weighted : list cluster :=
  Eval vm_compute in
    match scoring 2 3 example_aggregated.2 with
    | inr clusters => clusters
    | inl _ => []
    end.

(** ** Listing the issues *)

(** [str(n)] of an int, as [str.format] writes it: decimal digits, with a
    minus sign when negative. *)
Definition py_str (n : Z) : string := DecimalString.NilZero.string_of_int (Z.to_int n).

(** [range(a, b)] *)
Definition py_range (a b : Z) : list Z := seqZ a (b - a).

(** [url.format(page=page, count=count)] *)
Definition format_url (page count : Z) : string :=
  "https://issuetracker.google.com/action/issues?count=" +:+ py_str count +:+
  "&p=" +:+ py_str page +:+
  "&q=status:open+type:feature_request&s=created_time:desc".

(** The quotient [a / b] of two ints is a float: the double nearest to the
    exact quotient, a tie going to the even mantissa; [ZeroDivisionError]
    for the divisor 0 and [OverflowError] when the rounded quotient is
    beyond the doubles.  Unlike the scores, the page count depends on the
    rounding, so the division is modelled with it here. *)

(** [n / d] for [0 <= n] and [0 < d], rounded to the nearest integer, a tie
    to the even one. *)
Definition round_half_even (n d : Z) : Z :=
  let k := n / d in
  let r := n mod d in
  if 2 * r <? d then k
  else if d <? 2 * r then k + 1
  else if Z.even k then k else k + 1.

(** Whether [2 ^ e <= a / b], for [0 < a] and [0 < b]. *)
Definition pow2_le_ratio (e a b : Z) : bool :=
  if 0 <=? e then b * 2 ^ e <=? a else b <=? a * 2 ^ (- e).

(** The [e] with [2 ^ e <= a / b < 2 ^ (e + 1)], for [0 < a] and [0 < b]. *)
Definition ratio_exponent (a b : Z) : Z :=
  let e := Z.log2 a - Z.log2 b in
  if pow2_le_ratio e a b then e else e - 1.

(** A double, as [mantissa * 2 ^ exponent]. *)
Record float : Set := Float { mantissa : Z; exponent : Z }.

(** [a / b] on ints.  The mantissa has 53 bits from the exponent [-1022]
    of the quotient upwards and fewer below it. *)
Definition int_truediv (a b : Z) : result float :=
  if b =? 0 then raise ZeroDivisionError
  else if a =? 0 then ret (Float 0 0)
  else
    let e := ratio_exponent (Z.abs a) (Z.abs b) in
    let t := Z.max e (-1022) - 52 in
    let m := if 0 <=? t then round_half_even (Z.abs a) (Z.abs b * 2 ^ t)
             else round_half_even (Z.abs a * 2 ^ (- t)) (Z.abs b) in
    if (0 <=? t) && (2 ^ 1024 <=? m * 2 ^ t) then raise OverflowError
    else ret (Float (Z.sgn a * Z.sgn b * m) t).

(** [int(x)] on a float: truncation towards zero. *)
Definition int_of_float (x : float) : Z :=
  if 0 <=? exponent x then mantissa x * 2 ^ exponent x
  else Z.quot (mantissa x) (2 ^ (- exponent x)).

(** [generate_urls], from the answer to its first request on:
    [numTotalResults] is the field of that name in the answer.  The list is
    what the generator yields. *)
Definition generate_urls (numTotalResults count : Z) : result (list string) :=
  let* pages := int_truediv numTotalResults count in
  let number_of_pages := int_of_float pages + 1 in
  ret ((fun page => format_url page count) <$> py_range 1 (number_of_pages + 1)).

(** ** Cleaning the descriptions

    Strings are sequences of bytes (UTF-8).  The two patterns only name
    ASCII characters, so a match covers the same bytes as it covers
    characters in Python. *)

Definition LT : Ascii.ascii := "<"%char.
Definition GT : Ascii.ascii := ">"%char.
Definition LF : Ascii.ascii := "010"%char.
Definition CR : Ascii.ascii := "013"%char.

(** After ["<"] and one more character: whether [">"] comes before the
    next ["<"] and before the end. *)
Fixpoint closes (s : string) : bool :=
  match s with
  | EmptyString => false
  | String c s' =>
      if Ascii.eqb c GT then true
      else if Ascii.eqb c LT then false
      else closes s'
  end.

(** Whether ["<[^<]+?>"] matches at a ["<"] followed by [s]: one character
    other than ["<"], then lazily more of them up to the first [">"]. *)
Definition opens_tag (s : string) : bool :=
  match s with
  | EmptyString => false
  | String c s' => negb (Ascii.eqb c LT) && closes s'
  end.

Inductive tag_state : Set :=
| Outside  (* not in a match *)
| First    (* in a match, at the character after ["<"] *)
| Inside.  (* in a match, further on *)

(** [re.sub('<[^<]+?>', '', s)] as one pass from left to right: a match
    starts at the leftmost ["<"] where the pattern matches, and the search
    goes on after its [">"]. *)
Fixpoint strip_tags_from (st : tag_state) (s : string) : string :=
  match s with
  | EmptyString => EmptyString
  | String c s' =>
      match st with
      | Outside =>
          if Ascii.eqb c LT && opens_tag s' then strip_tags_from First s'
          else String c (strip_tags_from Outside s')
      | First => strip_tags_from Inside s'
      | Inside =>
          if Ascii.eqb c GT then strip_tags_from Outside s'
          else strip_tags_from Inside s'
      end
  end.

Definition strip_tags (s : string) : string := strip_tags_from Outside s.

(** Whether ["https?:\/\/"] matches at the start of [s]. *)
Definition starts_url (s : string) : bool :=
  String.prefix "http://" s || String.prefix "https://" s.

Definition is_break (c : Ascii.ascii) : bool := Ascii.eqb c LF || Ascii.eqb c CR.

Inductive url_state : Set :=
| Text     (* not in a match *)
| Url      (* in a match, in [".*"]: up to the end of the line *)
| Breaks.  (* in a match, in ["[\r\n]*"] *)

(** [re.sub(r'https?:\/\/.*[\r\n]*', '', s, flags=re.MULTILINE)] as one
    pass from left to right: from the start of a URL, [".*"] takes the rest
    of the line (["."] matches all but the line feed) and ["[\r\n]*"] the
    line breaks that follow. *)
Fixpoint remove_urls_from (st : url_state) (s : string) : string :=
  match s with
  | EmptyString => EmptyString
  | String c s' =>
      match st with
      | Url =>
          if Ascii.eqb c LF then remove_urls_from Breaks s'
          else remove_urls_from Url s'
      | Breaks =>
          if is_break c then remove_urls_from Breaks s'
          else if starts_url s then remove_urls_from Url s'
          else String c (remove_urls_from Text s')
      | Text =>
          if starts_url s then remove_urls_from Url s'
          else String c (remove_urls_from Text s')
      end
  end.

Definition remove_urls (s : string) : string := remove_urls_from Text s.

(** One entry of [raw_issue_details]: the id and the vote count of the
    issue, and for each event its ['comment'] if it has one. *)
Record raw_issue_detail : Set := RawIssueDetail {
  raw_issueId : Z;
  raw_voteCount : Z;
  raw_events : list (option string)
}.

Section Cleanup.
(** [html.unescape] is a library function over the table of HTML entities. *)
Variable unescape : string -> string.

Definition clean_description (dirty : string) : string :=
  unescape (remove_urls (strip_tags dirty)).

(** The body of [for i in raw_issue_details:]. *)
Definition clean_issue (i : raw_issue_detail) : result issue :=
  let issue_id := raw_issueId i in
  let issue_votes := raw_voteCount i in
  let* first_event := getitem (raw_events i) 0 in
  let issue_dirty_description := default "" first_event in
  ret {| issue_id := issue_id;
         issue_votes := issue_votes;
         issue_dirty_dsecription := issue_dirty_description;
         issue_description := clean_description issue_dirty_description;
         issue_prediction := None |}.

Definition clean_issues (raw_issue_details : list raw_issue_detail) : result (list issue) :=
  mapM clean_issue raw_issue_details.
End Cleanup.

(** The characters of a string, in order. *)
Definition chars (s : string) : list Ascii.ascii := String.list_ascii_of_string s.

(** A place where ["<[^<]+?>"] can match: a ["<"], one or more characters
    other than ["<"], and a [">"]. *)
Definition has_tag (s : string) : Prop :=
  exists pre body post,
    s = pre +:+ String LT (body +:+ String GT post) /\
    body <> EmptyString /\ Forall (fun c => c <> LT) (chars body).

(** A place where ["https?:\/\/"] can match. *)
Definition has_url (s : string) : Prop :=
  exists pre post,
    s = pre +:+ "http://" +:+ post \/ s = pre +:+ "https://" +:+ post.

(** * Properties *)

(** ** The cells on small inputs *)

Example aggregate_example :
  aggregate example_transform example_predict example_issues example_clusters
  = inr example_aggregated.
Proof. reflexivity. Qed.

Example aggregate_out_of_range :
  aggregate example_transform (fun _ => 2%nat) example_issues example_clusters
  = inl IndexError.
Proof. reflexivity. Qed.

Example scoring_example : scoring 1 1 example_aggregated.2 = inr example_scored.
Proof. reflexivity. Qed.

Example scoring_no_cluster : scoring 1 1 [] = inl ValueError.
Proof. reflexivity. Qed.

Example sorted_reverse_keeps_ties_in_order :
  sorted_reverse fst [(1 # 2, "c0"); (1, "c1"); (1 # 2, "c2"); (1, "c3")]%Q
  = [(1, "c1"); (1, "c3"); (1 # 2, "c0"); (1 # 2, "c2")]%Q.
Proof. reflexivity. Qed.

Example argsort_example : argsort [3 # 4; 0; 1 # 4; 0]%Q = [1; 3; 2; 0]%nat.
Proof. reflexivity. Qed.

Example clusters_by_score_unscored : clusters_by_score example_clusters = inl KeyError.
Proof. reflexivity. Qed.

(** ** The error monad *)

Lemma bind_inr {A B : Type} (m : result A) (k : A -> result B) (b : B) :
  bind m k = inr b -> exists a, m = inr a /\ k a = inr b.
Proof. destruct m as [e|a]; simpl; [discriminate | eauto]. Qed.

Lemma mapM_Forall2 {A B : Type} (f : A -> result B) (R : A -> B -> Prop) (l : list A) :
  Forall (fun x => exists y, f x = inr y /\ R x y) l ->
  exists l', mapM f l = inr l' /\ Forall2 R l l'.
Proof.
  induction 1 as [|x l [y [Hy HR]] _ [l' [Hl' HF]]]; simpl.
  - exists []. split; [reflexivity | constructor].
  - exists (y :: l'). rewrite Hy; simpl. rewrite Hl'; simpl.
    split; [reflexivity | by constructor].
Qed.

Lemma mapM_inr_Forall2 {A B : Type} (f : A -> result B) (l : list A) (l' : list B) :
  mapM f l = inr l' -> Forall2 (fun x y => f x = inr y) l l'.
Proof.
  revert l'. induction l as [|x l IH]; simpl; intros l' H.
  - injection H as <-. constructor.
  - apply bind_inr in H as [y [Hy H]]. apply bind_inr in H as [ys [Hys H]].
    injection H as <-. constructor; auto.
Qed.

(** ** Extrema *)

Lemma fold_left_min_le (l : list Z) (x : Z) :
  fold_left Z.min l x <= x /\ Forall (fun y => fold_left Z.min l x <= y) l.
Proof.
  revert x. induction l as [|y l IH]; intros x; simpl.
  - split; [lia | constructor].
  - destruct (IH (Z.min x y)) as [H1 H2]. split; [lia |].
    constructor; [lia | exact H2].
Qed.

Lemma fold_left_max_ge (l : list Z) (x : Z) :
  x <= fold_left Z.max l x /\ Forall (fun y => y <= fold_left Z.max l x) l.
Proof.
  revert x. induction l as [|y l IH]; intros x; simpl.
  - split; [lia | constructor].
  - destruct (IH (Z.max x y)) as [H1 H2]. split; [lia |].
    constructor; [lia | exact H2].
Qed.

Lemma py_min_lower_bound (l : list Z) (m : Z) :
  py_min l = inr m -> Forall (fun y => m <= y) l.
Proof.
  destruct l as [|x l]; simpl; [discriminate |].
  intros [= <-]. destruct (fold_left_min_le l x). by constructor.
Qed.

Lemma py_max_upper_bound (l : list Z) (m : Z) :
  py_max l = inr m -> Forall (fun y => y <= m) l.
Proof.
  destruct l as [|x l]; simpl; [discriminate |].
  intros [= <-]. destruct (fold_left_max_ge l x). by constructor.
Qed.

Lemma py_min_inr_nonempty (l : list Z) (m : Z) : py_min l = inr m -> l <> [].
Proof. destruct l; simpl; [discriminate | discriminate]. Qed.

(** ** True division and the unit interval *)

Lemma truediv_nonzero (a b : Z) :
  b <> 0 -> truediv a b = inr (inject_Z a / inject_Z b)%Q.
Proof. intros H. unfold truediv. by destruct (Z.eqb_spec b 0). Qed.

Lemma truediv_zero (a : Z) : truediv a 0 = inl ZeroDivisionError.
Proof. reflexivity. Qed.

Lemma ratio_in_unit_interval (a b : Z) :
  0 <= a <= b -> 0 < b -> in_unit_interval (inject_Z a / inject_Z b).
Proof.
  intros [Ha Hab] Hb.
  assert (Hb' : (0 < inject_Z b)%Q) by (change 0%Q with (inject_Z 0); by rewrite <- Zlt_Qlt).
  split.
  - apply Qle_shift_div_l; [exact Hb' |]. rewrite Qmult_0_l.
    change 0%Q with (inject_Z 0). by rewrite <- Zle_Qle.
  - apply Qle_shift_div_r; [exact Hb' |]. rewrite Qmult_1_l. by rewrite <- Zle_Qle.
Qed.

Lemma half_sum_in_unit_interval (x y : Q) :
  in_unit_interval x -> in_unit_interval y -> in_unit_interval ((x + y) / 2).
Proof.
  intros [Hx0 Hx1] [Hy0 Hy1]. split.
  - apply Qle_shift_div_l; [reflexivity | lra].
  - apply Qle_shift_div_r; [reflexivity | lra].
Qed.

(** ** The scoring pass *)

Lemma score_cluster_formula (vm im : Q) (mnv mxv mni mxi : Z) (c : cluster) :
  mnv <= c_votes c <= mxv -> mni <= c_issues c <= mxi -> mnv < mxv -> mni < mxi ->
  exists c', score_cluster vm im mnv mxv mni mxi c = inr c' /\
             scored_as vm im mnv mxv mni mxi c c'.
Proof.
  intros Hv Hi Hdv Hdi. unfold score_cluster.
  rewrite !truediv_nonzero by lia. simpl.
  eexists. split; [reflexivity |].
  assert (Hnv : ~ (inject_Z (mxv - mnv) == 0)%Q).
  { change 0%Q with (inject_Z 0). rewrite inject_Z_injective. lia. }
  assert (Hni : ~ (inject_Z (mxi - mni) == 0)%Q).
  { change 0%Q with (inject_Z 0). rewrite inject_Z_injective. lia. }
  assert (Hrv : in_unit_interval (inject_Z (c_votes c - mnv) / inject_Z (mxv - mnv)))
    by (apply ratio_in_unit_interval; lia).
  assert (Hri : in_unit_interval (inject_Z (c_issues c - mni) / inject_Z (mxi - mni)))
    by (apply ratio_in_unit_interval; lia).
  unfold scored_as; simpl.
  do 4 (split; [reflexivity |]).
  eexists _, _, _.
  do 3 (split; [reflexivity |]).
  split; [unfold spec_vote_score; by field |].
  split; [unfold spec_issue_score; by field |].
  split; [unfold spec_combined_score; field; by split |].
  intros Hvm Him.
  assert (Hv1 : in_unit_interval (vm * (inject_Z (c_votes c - mnv) / inject_Z (mxv - mnv)))).
  { unfold in_unit_interval. rewrite Hvm, Qmult_1_l. exact Hrv. }
  assert (Hi1 : in_unit_interval (im * (inject_Z (c_issues c - mni) / inject_Z (mxi - mni)))).
  { unfold in_unit_interval. rewrite Him, Qmult_1_l. exact Hri. }
  split; [exact Hv1 |]. split; [exact Hi1 |].
  by apply half_sum_in_unit_interval.
Qed.

Lemma py_min_le_field (f : cluster -> Z) (clusters : list cluster) (m : Z) (c : cluster) :
  py_min (map f clusters) = inr m -> c ∈ clusters -> m <= f c.
Proof.
  intros H Hc. apply py_min_lower_bound in H.
  rewrite Forall_forall in H. apply H. by apply (list_elem_of_fmap_2 f).
Qed.

Lemma py_max_ge_field (f : cluster -> Z) (clusters : list cluster) (m : Z) (c : cluster) :
  py_max (map f clusters) = inr m -> c ∈ clusters -> f c <= m.
Proof.
  intros H Hc. apply py_max_upper_bound in H.
  rewrite Forall_forall in H. apply H. by apply (list_elem_of_fmap_2 f).
Qed.

(** C2.  When the maximum exceeds the minimum for both metrics, the scoring
    pass returns, and it gives every cluster the min-max normalised
    [vote_score] and [issue_score] of the specification, scaled by the
    multipliers, and their half sum as combined score; with both
    multipliers equal to 1 the three scores lie in the unit interval. *)
Theorem scoring_min_max_formula (vm im : Q) (clusters : list cluster)
    (min_votes max_votes min_issues max_issues : Z) :
  py_min (map c_votes clusters) = inr min_votes ->
  py_max (map c_votes clusters) = inr max_votes ->
  py_min (map c_issues clusters) = inr min_issues ->
  py_max (map c_issues clusters) = inr max_issues ->
  min_votes < max_votes -> min_issues < max_issues ->
  exists scored,
    scoring vm im clusters = inr scored /\
    Forall2 (scored_as vm im min_votes max_votes min_issues max_issues) clusters scored.
Proof.
  intros Hmnv Hmxv Hmni Hmxi Hdv Hdi.
  unfold scoring. rewrite Hmnv, Hmxv, Hmni, Hmxi. simpl.
  apply mapM_Forall2.
  rewrite Forall_forall. intros c Hc.
  apply score_cluster_formula; try assumption; split;
    eauto using py_min_le_field, py_max_ge_field.
Qed.

Lemma scoring_min_max_formula_witness :
  exists scored,
    scoring 1 1 [Cluster 0 [] 8 2 None None None; Cluster 1 [] 0 1 None None None]
      = inr scored /\
    Forall2 (scored_as 1 1 0 8 1 2)
      [Cluster 0 [] 8 2 None None None; Cluster 1 [] 0 1 None None None] scored.
Proof.
  apply (scoring_min_max_formula 1 1
           [Cluster 0 [] 8 2 None None None; Cluster 1 [] 0 1 None None None]
           0 8 1 2); (reflexivity || lia).
Defined.

(** C1 (amended).  When the maximum equals the minimum for the votes or for
    the issue counts, the scoring pass raises [ZeroDivisionError] instead of
    completing with the score 0 for that metric. *)
Theorem scoring_degenerate_raises (vm im : Q) (clusters : list cluster)
    (min_votes max_votes min_issues max_issues : Z) :
  py_min (map c_votes clusters) = inr min_votes ->
  py_max (map c_votes clusters) = inr max_votes ->
  py_min (map c_issues clusters) = inr min_issues ->
  py_max (map c_issues clusters) = inr max_issues ->
  max_votes = min_votes \/ max_issues = min_issues ->
  scoring vm im clusters = inl ZeroDivisionError.
Proof.
  intros Hmnv Hmxv Hmni Hmxi Hdeg.
  unfold scoring. rewrite Hmnv, Hmxv, Hmni, Hmxi. simpl.
  destruct clusters as [|c rest]; [discriminate |]. simpl.
  unfold score_cluster.
  destruct (Z.eq_dec max_votes min_votes) as [-> | Hne].
  - by rewrite Z.sub_diag, truediv_zero.
  - destruct Hdeg as [? | ->]; [done |].
    rewrite (truediv_nonzero _ (max_votes - min_votes)) by lia. simpl.
    by rewrite Z.sub_diag, truediv_zero.
Qed.

Lemma scoring_degenerate_raises_witness :
  scoring 1 1 [Cluster 0 [] 4 2 None None None; Cluster 1 [] 4 7 None None None]
    = inl ZeroDivisionError.
Proof.
  apply (scoring_degenerate_raises 1 1
           [Cluster 0 [] 4 2 None None None; Cluster 1 [] 4 7 None None None]
           4 4 2 7); try reflexivity. left; reflexivity.
Defined.

(** C1 as stated fails: two clusters with three votes each have equal
    maximum and minimum, and the scoring pass raises the division error
    instead of giving them the vote score 0. *)
Lemma scoring_equal_votes_counterexample :
  py_max (map c_votes equal_votes_clusters) = py_min (map c_votes equal_votes_clusters) /\
  scoring 1 1 equal_votes_clusters = inl ZeroDivisionError /\
  ~ (exists scored, scoring 1 1 equal_votes_clusters = inr scored /\
                    Forall (fun c => c_vote_score c = Some 0%Q) scored).
Proof.
  split; [reflexivity |]. split; [reflexivity |].
  intros [scored [H _]]. discriminate H.
Qed.

(** ** The aggregation pass *)

Lemma update_item_twice {A : Type} (f g : A -> A) (i : nat) (l : list A) :
  (let* l1 := update_item f i l in update_item g i l1)
  = update_item (fun x => g (f x)) i l.
Proof.
  unfold update_item. destruct (l !! i) as [x|] eqn:Hx; simpl; [| reflexivity].
  rewrite list_lookup_insert_eq by (by eapply lookup_lt_Some).
  unfold ret. f_equal. apply list_insert_insert_eq.
Qed.

Lemma update_item_length {A : Type} (f : A -> A) (i : nat) (l l' : list A) :
  update_item f i l = inr l' -> length l' = length l /\ (i < length l)%nat.
Proof.
  unfold update_item. destruct (l !! i) as [x|] eqn:Hx; [| discriminate].
  intros [= <-]. split; [apply length_insert | by eapply lookup_lt_Some].
Qed.

Lemma getitem_middle {A : Type} (l1 l2 : list A) (x : A) :
  getitem (l1 ++ x :: l2) (length l1) = inr x.
Proof. unfold getitem. by rewrite list_lookup_middle. Qed.

Lemma sumZ_insert {A : Type} (f : A -> Z) (l : list A) (i : nat) (x y : A) :
  l !! i = Some x -> sumZ (f <$> <[i := y]> l) = sumZ (f <$> l) - f x + f y.
Proof.
  unfold sumZ. revert i.
  induction l as [|z l IH]; intros [|i] Hi; simpl in Hi |- *; try discriminate.
  - injection Hi as ->. lia.
  - specialize (IH i Hi). unfold fmap in IH. lia.
Qed.

Lemma sumZ_reset_votes (clusters : list cluster) :
  sumZ (c_votes <$> map reset_counters clusters) = 0.
Proof. induction clusters as [|c l IH]; simpl; [reflexivity | exact IH]. Qed.

Lemma sumZ_reset_issues (clusters : list cluster) :
  sumZ (c_issues <$> map reset_counters clusters) = 0.
Proof. induction clusters as [|c l IH]; simpl; [reflexivity | exact IH]. Qed.

Lemma reset_counters_insert (clusters : list cluster) (i : nat) (c : cluster) (v : Z) :
  clusters !! i = Some c ->
  map reset_counters (<[i := add_issue (add_votes v c)]> clusters)
  = map reset_counters clusters.
Proof.
  intros Hi. change (map reset_counters) with (fmap (M := list) reset_counters).
  rewrite list_fmap_insert. apply list_insert_id.
  by rewrite list_lookup_fmap, Hi.
Qed.

Section AggregationProperties.
Context {vector : Type}.
Variable transform : string -> vector.
Variable predict : vector -> nat.

Local Abbreviation predicted' := (predicted transform predict) (only parsing).
Local Abbreviation tag' := (tag transform predict) (only parsing).
Local Abbreviation tally' := (tally transform predict) (only parsing).

Lemma predicted_tag (i : issue) : predicted' (tag' i) = predicted' i.
Proof. reflexivity. Qed.

Lemma tag_tag (i : issue) : tag' (tag' i) = tag' i.
Proof. reflexivity. Qed.

Lemma set_prediction_tag (i : issue) : set_prediction (predicted' (tag' i)) (tag' i) = tag' i.
Proof. reflexivity. Qed.

Lemma tally_tag (clusters : list cluster) (i : issue) :
  tally' clusters (tag' i) = tally' clusters i.
Proof. reflexivity. Qed.

(** The position found by [issues.index(issue)] is the one being visited,
    or an earlier issue that is equal to it; writing the prediction there
    leaves the visited issue tagged in both cases. *)
Lemma index_then_set (done rest : list issue) (x : issue) :
  (let* k := py_index x ((tag' <$> done) ++ x :: rest) in
   update_item (set_prediction (predicted' x)) k ((tag' <$> done) ++ x :: rest))
  = inr ((tag' <$> done) ++ tag' x :: rest).
Proof.
  set (l := (tag' <$> done) ++ x :: rest).
  assert (Hj : l !! length (tag' <$> done) = Some x) by (by apply list_lookup_middle).
  unfold py_index.
  destruct (list_find (fun y => y = x) l) as [[k y]|] eqn:Hfind.
  - apply list_find_Some in Hfind as (Hk & -> & Hmin). simpl.
    unfold update_item. rewrite Hk. unfold ret. f_equal.
    destruct (decide (k = length (tag' <$> done))) as [-> | Hne].
    + subst l. rewrite insert_app_r_alt by lia.
      by rewrite Nat.sub_diag.
    + assert (Hlt : (k < length (tag' <$> done))%nat).
      { destruct (decide (k < length (tag' <$> done))%nat) as [|Hge]; [done |].
        exfalso. apply (Hmin _ _ Hj); [lia | reflexivity]. }
      subst l. rewrite lookup_app_l in Hk by done.
      apply list_lookup_fmap_Some in Hk as (y & -> & Hy).
      rewrite set_prediction_tag, tag_tag.
      rewrite list_insert_id; [reflexivity |].
      rewrite lookup_app_l by done. by rewrite list_lookup_fmap, Hy.
  - exfalso. eapply list_find_None in Hfind.
    rewrite Forall_forall in Hfind. eapply Hfind; [| reflexivity].
    eapply list_elem_of_lookup_2, Hj.
Qed.

(** One turn of the loop, at the first issue that is not yet visited. *)
Lemma aggregate_issue_tally (done rest : list issue) (x : issue) (clusters : list cluster) :
  aggregate_issue transform predict ((tag' <$> done) ++ x :: rest, clusters) (length done)
  = let* clusters' := tally' clusters x in
    ret ((tag' <$> done) ++ tag' x :: rest, clusters').
Proof.
  unfold aggregate_issue.
  rewrite <- (length_fmap tag' done).
  rewrite getitem_middle. simpl.
  pose proof (index_then_set done rest x) as Hset.
  destruct (py_index x ((tag' <$> done) ++ x :: rest)) as [e|k]; [discriminate Hset |].
  unfold predicted in Hset. simpl in Hset |- *. rewrite Hset. simpl.
  rewrite getitem_middle. simpl.
  pose proof (update_item_twice (add_votes (issue_votes x)) add_issue
                (predicted' x) clusters) as Htwice.
  unfold tally, predicted in *.
  rewrite <- Htwice.
  destruct (update_item (add_votes _) _ clusters) as [e|c1]; simpl; [reflexivity |].
  by destruct (update_item add_issue _ c1).
Qed.

Lemma aggregate_loop (rest done : list issue) (clusters : list cluster) :
  foldM (aggregate_issue transform predict) (seq (length done) (length rest))
        ((tag' <$> done) ++ rest, clusters)
  = let* clusters' := foldM tally' rest clusters in
    ret (tag' <$> (done ++ rest), clusters').
Proof.
  revert done clusters. induction rest as [|x rest IH]; intros done clusters.
  - simpl. by rewrite !app_nil_r.
  - change (seq (length done) (length (x :: rest)))
      with (length done :: seq (S (length done)) (length rest)).
    cbn [foldM]. rewrite aggregate_issue_tally.
    destruct (tally' clusters x) as [e|clusters1]; simpl; [reflexivity |].
    specialize (IH (done ++ [x]) clusters1).
    rewrite length_app, Nat.add_1_r, fmap_app, <- !app_assoc in IH. simpl in IH.
    exact IH.
Qed.

(** The aggregation pass computes the fold: the store of issues and the
    look-up by value do not change what is counted. *)
Lemma aggregate_as_fold (issues : list issue) (clusters : list cluster) :
  aggregate transform predict issues clusters
  = let* clusters' := foldM tally' issues (map reset_counters clusters) in
    ret (tag' <$> issues, clusters').
Proof. exact (aggregate_loop issues [] (map reset_counters clusters)). Qed.

Lemma tally_effect (clusters clusters' : list cluster) (x : issue) :
  tally' clusters x = inr clusters' ->
  length clusters' = length clusters /\
  map reset_counters clusters' = map reset_counters clusters /\
  sumZ (c_issues <$> clusters') = sumZ (c_issues <$> clusters) + 1 /\
  sumZ (c_votes <$> clusters') = sumZ (c_votes <$> clusters) + issue_votes x.
Proof.
  unfold tally, update_item.
  destruct (clusters !! predicted' x) as [c|] eqn:Hc; [| discriminate].
  intros [= <-]. split; [apply length_insert |].
  split; [by apply reset_counters_insert |].
  rewrite !(sumZ_insert _ _ _ _ _ Hc). simpl. lia.
Qed.

Lemma tally_all_effect (issues : list issue) (clusters clusters' : list cluster) :
  foldM tally' issues clusters = inr clusters' ->
  length clusters' = length clusters /\
  map reset_counters clusters' = map reset_counters clusters /\
  sumZ (c_issues <$> clusters') = sumZ (c_issues <$> clusters) + Z.of_nat (length issues) /\
  sumZ (c_votes <$> clusters') = sumZ (c_votes <$> clusters) + sumZ (issue_votes <$> issues).
Proof.
  revert clusters. induction issues as [|x issues IH]; intros clusters; simpl.
  - intros [= <-]. repeat split; lia.
  - intros H. apply bind_inr in H as (c1 & H1 & H).
    apply tally_effect in H1 as (Hl1 & Hr1 & Hi1 & Hv1).
    apply IH in H as (Hl & Hr & Hi & Hv).
    rewrite Hl, Hr, Hi, Hv, Hl1, Hr1, Hi1, Hv1. unfold fmap. repeat split; lia.
Qed.

Lemma tally_all_tagged (issues : list issue) (clusters : list cluster) :
  foldM tally' (tag' <$> issues) clusters = foldM tally' issues clusters.
Proof.
  revert clusters. induction issues as [|x issues IH]; intros clusters; simpl;
    [reflexivity |].
  rewrite tally_tag. destruct (tally' clusters x); simpl; [reflexivity | apply IH].
Qed.

Lemma tally_all_in_range (issues : list issue) (clusters : list cluster) :
  Forall (fun x => (predicted' x < length clusters)%nat) issues ->
  exists clusters', foldM tally' issues clusters = inr clusters'.
Proof.
  revert clusters. induction issues as [|x issues IH]; intros clusters H; simpl.
  - by eexists.
  - apply Forall_cons in H as [Hx H].
    destruct (lookup_lt_is_Some_2 clusters _ Hx) as [c Hc].
    unfold tally at 1, update_item. rewrite Hc. simpl.
    apply IH. by rewrite length_insert.
Qed.

(** The pass returns as soon as every label is the position of a cluster. *)
Lemma aggregate_in_range (issues : list issue) (clusters : list cluster) :
  Forall (fun x => (predicted' x < length clusters)%nat) issues ->
  exists clusters',
    aggregate transform predict issues clusters = inr (tag' <$> issues, clusters').
Proof.
  intros H. rewrite aggregate_as_fold.
  destruct (tally_all_in_range issues (map reset_counters clusters)) as [c' Hc'].
  - by rewrite length_map.
  - exists c'. by rewrite Hc'.
Qed.

(** C10.  After an aggregation pass the issue counts of the clusters add
    up to the number of issues, and their vote sums to the total of the
    votes of the issues. *)
Theorem aggregate_counts_every_issue_once (issues issues' : list issue)
    (clusters clusters' : list cluster) :
  aggregate transform predict issues clusters = inr (issues', clusters') ->
  length clusters' = length clusters /\
  sumZ (c_issues <$> clusters') = Z.of_nat (length issues) /\
  sumZ (c_votes <$> clusters') = sumZ (issue_votes <$> issues).
Proof.
  rewrite aggregate_as_fold. intros H.
  apply bind_inr in H as (c' & Hc' & [= _ <-]).
  apply tally_all_effect in Hc' as (Hl & _ & Hi & Hv).
  rewrite sumZ_reset_issues in Hi. rewrite sumZ_reset_votes in Hv.
  rewrite length_map in Hl. repeat split; lia.
Qed.

(** C4.  A second aggregation pass over the issues left by a first pass
    returns the same clusters, with the same issue counts and vote sums:
    the counters are reset before the loop, so nothing accumulates. *)
Theorem aggregate_twice_same_counts (issues issues1 : list issue)
    (clusters clusters1 : list cluster) :
  aggregate transform predict issues clusters = inr (issues1, clusters1) ->
  aggregate transform predict issues1 clusters1 = inr (issues1, clusters1).
Proof.
  rewrite !aggregate_as_fold. intros H.
  apply bind_inr in H as (c' & Hc' & [= <- <-]).
  pose proof (tally_all_effect _ _ _ Hc') as (_ & Hr & _).
  rewrite tally_all_tagged, Hr.
  assert (Hrr : map reset_counters (map reset_counters clusters) = map reset_counters clusters).
  { rewrite map_map. reflexivity. }
  rewrite Hrr, Hc'. simpl. unfold ret. f_equal. f_equal.
  rewrite <- list_fmap_compose. reflexivity.
Qed.
End AggregationProperties.

(** ** The stable sort *)

Section StableSortProperties.
Context {A : Type}.
Variable key : A -> Q.

Lemma insert_by_Permutation (x : A) (l : list A) : insert_by key x l ≡ₚ x :: l.
Proof.
  induction l as [|y l IH]; simpl; [reflexivity |].
  destruct (Qle_bool (key x) (key y)); [reflexivity |].
  rewrite IH. apply Permutation_swap.
Qed.

Lemma stable_sort_Permutation (l : list A) : stable_sort key l ≡ₚ l.
Proof.
  induction l as [|x l IH]; simpl; [reflexivity |].
  by rewrite insert_by_Permutation, IH.
Qed.

Lemma sorted_reverse_Permutation (l : list A) : sorted_reverse key l ≡ₚ l.
Proof.
  unfold sorted_reverse.
  by rewrite reverse_Permutation, stable_sort_Permutation, reverse_Permutation.
Qed.

Lemma key_then_le (R : relation A) (a b : A) :
  key_then key R a b -> (key a <= key b)%Q.
Proof.
  intros [H | [H _]]; [by apply Qlt_le_weak | rewrite H; apply Qle_refl].
Qed.

Lemma le_key_then (R : relation A) (a b : A) :
  (key a <= key b)%Q -> R a b -> key_then key R a b.
Proof.
  intros Hle HR. destruct (Qle_lt_or_eq _ _ Hle); [by left | by right].
Qed.

(** Inserting an element that is [R]-before all of a sorted list keeps
    the list sorted by key and then by [R]. *)
Lemma insert_by_sorted (R : relation A) (x : A) (l : list A) :
  Forall (R x) l ->
  StronglySorted (key_then key R) l ->
  StronglySorted (key_then key R) (insert_by key x l).
Proof.
  induction l as [|y l IH]; simpl; intros HR Hs.
  - repeat constructor.
  - apply Forall_cons in HR as [HRy HR].
    apply StronglySorted_cons in Hs as [Hy Hs].
    destruct (Qle_bool (key x) (key y)) eqn:Hle.
    + apply Qle_bool_iff in Hle.
      constructor; [by constructor |].
      constructor; [by apply le_key_then |].
      rewrite Forall_forall in Hy, HR |- *. intros z Hz.
      apply le_key_then; [| by apply HR].
      eapply Qle_trans; [exact Hle | eapply key_then_le; by apply Hy].
    + assert (Hlt : (key y < key x)%Q).
      { apply Qnot_le_lt. intros H. apply Qle_bool_iff in H. congruence. }
      constructor; [by apply IH |].
      rewrite insert_by_Permutation. constructor; [by left | done].
Qed.

Lemma stable_sort_sorted (R : relation A) (l : list A) :
  StronglySorted R l -> StronglySorted (key_then key R) (stable_sort key l).
Proof.
  induction 1 as [|x l Hs IH Hx]; simpl; [constructor |].
  apply insert_by_sorted; [| exact IH].
  by rewrite stable_sort_Permutation.
Qed.

Lemma StronglySorted_reverse (R : relation A) (l : list A) :
  StronglySorted R l -> StronglySorted (flip R) (reverse l).
Proof.
  induction 1 as [|x l Hs IH Hx]; [constructor |].
  rewrite reverse_cons. apply StronglySorted_app_2; [| exact IH | repeat constructor].
  intros a b Ha Hb. apply list_elem_of_singleton in Hb as ->.
  rewrite elem_of_reverse in Ha. rewrite Forall_forall in Hx. unfold flip. by apply Hx.
Qed.

Lemma StronglySorted_weaken (R1 R2 : relation A) (l : list A) :
  (forall a b, R1 a b -> R2 a b) -> StronglySorted R1 l -> StronglySorted R2 l.
Proof.
  intros H. induction 1; constructor; [done |].
  eapply Forall_impl; eauto.
Qed.

(** A list in [R] order, sorted with [reverse=True]: descending keys, and
    [R] order among equal keys. *)
Lemma sorted_reverse_sorted (R : relation A) (l : list A) :
  StronglySorted R l ->
  StronglySorted (fun a b => (key b < key a)%Q \/ ((key a == key b)%Q /\ R a b))
                 (sorted_reverse key l).
Proof.
  intros Hs. unfold sorted_reverse.
  apply StronglySorted_reverse, stable_sort_sorted, StronglySorted_reverse in Hs.
  revert Hs. apply StronglySorted_weaken.
  intros a b [Hlt | [Heq HR]]; [by left | right; split; [by symmetry | exact HR]].
Qed.
End StableSortProperties.

(** ** The ranking *)

Lemma StronglySorted_fmap_inv {A B : Type} (f : A -> B) (R : relation B) (l : list A) :
  StronglySorted R (f <$> l) -> StronglySorted (fun a b => R (f a) (f b)) l.
Proof.
  induction l as [|x l IH]; simpl; intros H; [constructor |].
  apply StronglySorted_cons in H as [Hx H].
  constructor; [by apply IH |].
  rewrite Forall_fmap in Hx. exact Hx.
Qed.

Lemma StronglySorted_fmap_Forall {A B : Type} (f : A -> B) (P : A -> Prop)
    (R1 : relation A) (R2 : relation B) (l : list A) :
  (forall a b, P a -> P b -> R1 a b -> R2 (f a) (f b)) ->
  Forall P l -> StronglySorted R1 l -> StronglySorted R2 (f <$> l).
Proof.
  intros HR HP Hs. induction Hs as [|x l Hs IH Hx]; simpl; [constructor |].
  apply Forall_cons in HP as [HPx HP].
  constructor; [by apply IH |].
  rewrite Forall_fmap. rewrite Forall_forall in Hx, HP |- *.
  intros y Hy. apply HR; auto.
Qed.

Lemma StronglySorted_lt_seq (j n : nat) : StronglySorted lt (seq j n).
Proof.
  revert j. induction n as [|n IH]; intros j; simpl; constructor; [apply IH |].
  apply Forall_seq. intros i Hi. lia.
Qed.

Lemma mapM_keys_inr (clusters : list cluster) :
  Forall (fun c => is_Some (c_score c)) clusters ->
  exists keyed,
    mapM (fun c => match c_score c with
                   | Some s => ret (s, c)
                   | None => raise KeyError
                   end) clusters = inr keyed /\
    snd <$> keyed = clusters /\
    Forall (fun p => c_score p.2 = Some p.1) keyed.
Proof.
  induction 1 as [|c l [s Hs] _ (keyed & Hk & Hsnd & Hall)]; simpl.
  - exists []. repeat split; constructor.
  - exists ((s, c) :: keyed). rewrite Hs, Hk. simpl.
    split; [reflexivity |].
    split; [f_equal; exact Hsnd | by constructor].
Qed.

(** A cluster list in ascending index order, each cluster with a score, is
    ranked by descending score and, among equal scores, ascending index. *)
Lemma clusters_by_score_sorted (clusters : list cluster) :
  StronglySorted (fun a b => (c_index a < c_index b)%nat) clusters ->
  Forall (fun c => is_Some (c_score c)) clusters ->
  exists ranked,
    clusters_by_score clusters = inr ranked /\
    ranked ≡ₚ clusters /\
    StronglySorted ranks_before ranked.
Proof.
  intros Hidx Hscore.
  destruct (mapM_keys_inr clusters Hscore) as (keyed & Hk & Hsnd & Hall).
  unfold clusters_by_score. rewrite Hk. simpl.
  eexists. split; [reflexivity |].
  change (map snd) with (fmap (M := list) (@snd Q cluster)).
  split.
  - by rewrite sorted_reverse_Permutation, Hsnd.
  - subst clusters. apply StronglySorted_fmap_inv in Hidx.
    apply (sorted_reverse_sorted fst) in Hidx.
    revert Hidx.
    apply (StronglySorted_fmap_Forall snd (fun p => c_score p.2 = Some p.1)).
    + intros a b Ha Hb H. unfold ranks_before. rewrite Ha, Hb.
      destruct H as [Hlt | [Heq Hi]]; [by left | by right].
    + by rewrite sorted_reverse_Permutation.
Qed.

Lemma aggregate_counts_every_issue_once_witness :
  length example_aggregated.2 = length example_clusters /\
  sumZ (c_issues <$> example_aggregated.2) = Z.of_nat (length example_issues) /\
  sumZ (c_votes <$> example_aggregated.2) = sumZ (issue_votes <$> example_issues).
Proof.
  apply (aggregate_counts_every_issue_once example_transform example_predict
           example_issues example_aggregated.1 example_clusters example_aggregated.2).
  reflexivity.
Defined.

Lemma aggregate_twice_same_counts_witness :
  aggregate example_transform example_predict example_aggregated.1 example_aggregated.2
  = inr (example_aggregated.1, example_aggregated.2).
Proof.
  apply (aggregate_twice_same_counts example_transform example_predict
           example_issues example_aggregated.1 example_clusters example_aggregated.2).
  reflexivity.
Defined.

Lemma make_clusters_index (K : nat) (order : list (list nat)) (terms : list string)
    (clusters : list cluster) :
  make_clusters K order terms = inr clusters -> c_index <$> clusters = seq 0 K.
Proof.
  unfold make_clusters. generalize (seq 0 K) as l. intros l H.
  apply mapM_inr_Forall2 in H.
  induction H as [|i c l cs Hc _ IH]; simpl; [reflexivity |].
  f_equal; [| exact IH].
  apply bind_inr in Hc as (row & _ & Hc). apply bind_inr in Hc as (fs & _ & Hc).
  by injection Hc as <-.
Qed.

Lemma reset_counters_index (clusters : list cluster) :
  c_index <$> map reset_counters clusters = c_index <$> clusters.
Proof. induction clusters as [|c l IH]; simpl; [reflexivity | by f_equal]. Qed.

Lemma aggregate_index {vector : Type} (transform : string -> vector) (predict : vector -> nat)
    (issues issues' : list issue) (clusters clusters' : list cluster) :
  aggregate transform predict issues clusters = inr (issues', clusters') ->
  c_index <$> clusters' = c_index <$> clusters.
Proof.
  rewrite aggregate_as_fold. intros H.
  apply bind_inr in H as (c' & Hc' & [= _ <-]).
  apply tally_all_effect in Hc' as (_ & Hr & _).
  rewrite <- (reset_counters_index c'), Hr.
  by rewrite !reset_counters_index.
Qed.

Lemma scoring_index_score (vm im : Q) (clusters scored : list cluster) :
  scoring vm im clusters = inr scored ->
  c_index <$> scored = c_index <$> clusters /\
  Forall (fun c => is_Some (c_score c)) scored.
Proof.
  unfold scoring. intros H.
  apply bind_inr in H as (mnv & _ & H). apply bind_inr in H as (mxv & _ & H).
  apply bind_inr in H as (mni & _ & H). apply bind_inr in H as (mxi & _ & H).
  apply mapM_inr_Forall2 in H.
  induction H as [|c c' l l' Hc _ [IH1 IH2]]; simpl; [by split |].
  unfold score_cluster in Hc.
  apply bind_inr in Hc as (v & _ & Hc). apply bind_inr in Hc as (i & _ & Hc).
  injection Hc as <-. simpl. split; [by f_equal |].
  constructor; [by eexists | exact IH2].
Qed.

Lemma ranks_before_asymmetric (a b : cluster) : ranks_before a b -> ~ ranks_before b a.
Proof.
  unfold ranks_before. destruct (c_score a) as [sa|], (c_score b) as [sb|]; try done.
  intros [H1 | [H1 H1']] [H2 | [H2 H2']]; try lia.
  - by apply (Qlt_irrefl sa); etrans.
  - rewrite H2 in H1. by apply (Qlt_irrefl sa).
  - rewrite H1 in H2. by apply (Qlt_irrefl sb).
Qed.

(** C3.  The ranked output of the notebook lists the K clusters by
    descending combined score, and clusters with equal combined score by
    ascending index: of any two entries, the earlier one ranks strictly
    before the later one. *)
Theorem ranking_total_order {vector : Type} (transform : string -> vector)
    (predict : vector -> nat) (K : nat) (order : list (list nat)) (terms : list string)
    (vm im : Q) (issues issues1 : list issue) (clusters0 clusters1 scored : list cluster) :
  make_clusters K order terms = inr clusters0 ->
  aggregate transform predict issues clusters0 = inr (issues1, clusters1) ->
  scoring vm im clusters1 = inr scored ->
  exists ranked,
    clusters_by_score scored = inr ranked /\
    length ranked = K /\
    ranked ≡ₚ scored /\
    StronglySorted ranks_before ranked.
Proof.
  intros Hmake Hagg Hscore.
  apply make_clusters_index in Hmake. apply aggregate_index in Hagg.
  apply scoring_index_score in Hscore as [Hidx Hsome].
  rewrite Hagg, Hmake in Hidx.
  destruct (clusters_by_score_sorted scored) as (ranked & Hr & Hperm & Hsorted).
  - apply (StronglySorted_fmap_inv c_index lt). rewrite Hidx.
    apply StronglySorted_lt_seq.
  - exact Hsome.
  - exists ranked. repeat split; try done.
    by rewrite Hperm, <- (length_fmap c_index), Hidx, length_seq.
Qed.

Lemma ranking_total_order_witness :
  exists ranked,
    clusters_by_score example_scored = inr ranked /\
    length ranked = 2%nat /\
    ranked ≡ₚ example_scored /\
    StronglySorted ranks_before ranked.
Proof.
  apply (ranking_total_order example_transform example_predict 2 example_order
           example_terms 1 1 example_issues example_aggregated.1
           example_clusters example_aggregated.2 example_scored); reflexivity.
Defined.

(** ** The cluster labels *)

Lemma StronglySorted_True {A : Type} (l : list A) : StronglySorted (fun _ _ => True) l.
Proof.
  induction l as [|x l IH]; constructor; [exact IH |].
  by apply Forall_forall.
Qed.

Lemma zip_seq_lookup (row : list Q) :
  Forall (fun p => row !! p.1 = Some p.2) (zip (seq 0 (length row)) row).
Proof.
  apply Forall_forall. intros [i x] Hin.
  apply list_elem_of_lookup in Hin as [k Hk].
  apply lookup_zip_with_Some in Hk as (i' & x' & [= <- <-] & Hi & Hx).
  apply lookup_seq in Hi as [-> _]. exact Hx.
Qed.

Lemma argsort_Permutation (row : list Q) : argsort row ≡ₚ seq 0 (length row).
Proof.
  unfold argsort. change (map fst) with (fmap (M := list) (@fst nat Q)).
  rewrite stable_sort_Permutation. rewrite fst_zip; [done | by rewrite length_seq].
Qed.

(** [argsort] lists the positions by ascending weight. *)
Lemma argsort_sorted (row : list Q) :
  StronglySorted (fun i j => (weight_at row i <= weight_at row j)%Q) (argsort row).
Proof.
  unfold argsort. change (map fst) with (fmap (M := list) (@fst nat Q)).
  apply (StronglySorted_fmap_Forall fst (fun p => row !! p.1 = Some p.2)
           (key_then snd (fun _ _ => True))).
  - intros a b Ha Hb H. unfold weight_at. rewrite Ha, Hb. simpl.
    by apply key_then_le in H.
  - rewrite stable_sort_Permutation. apply zip_seq_lookup.
  - apply stable_sort_sorted, StronglySorted_True.
Qed.

Lemma features_inr (terms : list string) (order : list nat) :
  Forall (fun i => (i < length terms)%nat) order ->
  exists feats,
    features terms order = inr feats /\
    Forall2 (fun i t => terms !! i = Some t) (take 10 order) feats.
Proof.
  intros H. unfold features. apply mapM_Forall2.
  apply Forall_take with (n := 10%nat) in H.
  eapply Forall_impl; [exact H |]. simpl.
  intros i Hi. destruct (lookup_lt_is_Some_2 terms i Hi) as [t Ht].
  exists t. unfold getitem. by rewrite Ht.
Qed.

(** C6 (amended).  The labels of a centroid are the terms at the first ten
    positions of the reversed [argsort]: ten terms (all of them when there
    are fewer) of largest weight, in descending order of weight.  No order
    is promised among terms of equal weight. *)
Theorem features_largest_weights_descending (row : list Q) (terms : list string) :
  length terms = length row ->
  exists picked feats,
    features terms (reverse (argsort row)) = inr feats /\
    Forall2 (fun i t => terms !! i = Some t) picked feats /\
    length picked = min 10 (length terms) /\
    NoDup picked /\
    StronglySorted (fun i j => (weight_at row j <= weight_at row i)%Q) picked /\
    (forall i j, i ∈ picked -> (j < length terms)%nat -> j ∉ picked ->
                 (weight_at row j <= weight_at row i)%Q).
Proof.
  intros Hlen.
  pose proof (argsort_Permutation row) as Hperm.
  pose proof (StronglySorted_reverse _ _ (argsort_sorted row)) as Hsorted.
  set (order := reverse (argsort row)) in *.
  assert (Hperm' : order ≡ₚ seq 0 (length row))
    by (subst order; by rewrite reverse_Permutation).
  destruct (features_inr terms order) as (feats & Hf & Hfeats).
  { rewrite Hperm', Hlen. apply Forall_seq. intros; lia. }
  exists (take 10 order), feats.
  rewrite <- (take_drop 10 order) in Hsorted.
  apply StronglySorted_app in Hsorted as (Hcross & Htake & _).
  repeat split; try done.
  - by rewrite length_take, Hperm', length_seq, Hlen.
  - apply (sublist_NoDup (take 10 order) order); [| apply sublist_take].
    rewrite Hperm'. apply NoDup_seq.
  - intros i j Hi Hj Hnot. apply (Hcross i j Hi).
    assert (Hin : j ∈ order) by (rewrite Hperm'; apply elem_of_seq; lia).
    rewrite <- (take_drop 10 order) in Hin.
    apply elem_of_app in Hin as [Hin | Hin]; [done | exact Hin].
Qed.

Lemma features_largest_weights_descending_witness :
  exists picked feats,
    features example_terms (reverse (argsort [1 # 3; 2 # 3]%Q)) = inr feats /\
    Forall2 (fun i t => example_terms !! i = Some t) picked feats /\
    length picked = min 10 (length example_terms) /\
    NoDup picked /\
    StronglySorted
      (fun i j => (weight_at [1 # 3; 2 # 3] j <= weight_at [1 # 3; 2 # 3] i)%Q) picked /\
    (forall i j, i ∈ picked -> (j < length example_terms)%nat -> j ∉ picked ->
                 (weight_at [1 # 3; 2 # 3] j <= weight_at [1 # 3; 2 # 3] i)%Q).
Proof.
  apply (features_largest_weights_descending [1 # 3; 2 # 3]%Q example_terms).
  reflexivity.
Defined.

(** C6 as stated fails: for a centroid that gives "api" and "upgrade" the
    same weight, the label list starts with "upgrade", the later of the two
    in lexical order. *)
Lemma features_tie_counterexample :
  make_clusters 1 (order_centroids tied_centers) example_terms
    = inr [ {| c_index := 0; c_features := ["upgrade"; "api"]; c_votes := 0;
               c_issues := 0; c_vote_score := None; c_issue_score := None;
               c_score := None |} ] /\
  (weight_at [1 # 2; 1 # 2] 0 == weight_at [1 # 2; 1 # 2] 1)%Q /\
  example_terms !! 0%nat = Some "api" /\
  example_terms !! 1%nat = Some "upgrade" /\
  String.ltb "api" "upgrade" = true.
Proof. repeat split. Qed.

(** ** The clustering engine *)

Module ClusteringProperties.
Import Clustering.

Lemma argmin_from_bound (ds : list Q) (best_i i : nat) (best : Q) :
  (best_i < i)%nat -> (argmin_from best_i best i ds < i + length ds)%nat.
Proof.
  revert best_i i best. induction ds as [|d ds IH]; intros best_i i best Hi; simpl.
  - lia.
  - destruct (Qle_bool best d).
    + specialize (IH best_i (S i) best). lia.
    + specialize (IH i (S i) d). lia.
Qed.

Lemma argmin_bound (ds : list Q) : ds <> [] -> (argmin ds < length ds)%nat.
Proof.
  destruct ds as [|d ds]; [done |]. intros _. simpl.
  pose proof (argmin_from_bound ds 0 1 d). lia.
Qed.

(** A label is the position of one of the centroids. *)
Lemma predict_bound (centroids : list (list Q)) (v : list Q) :
  centroids <> [] -> (predict centroids v < length centroids)%nat.
Proof.
  intros H. unfold predict, assign.
  rewrite <- (length_fmap (sqdist v) centroids). apply argmin_bound.
  by destruct centroids.
Qed.

Lemma relocate_length (matrix : list (list Q)) (labels : list nat)
    (centroids : list (list Q)) :
  length (relocate matrix labels centroids) = length centroids.
Proof. apply length_imap. Qed.

Lemma iterate_length (n : nat) (matrix : list (list Q)) (previous : option (list nat))
    (centroids : list (list Q)) :
  length (iterate n matrix previous centroids) = length centroids.
Proof.
  revert previous centroids. induction n as [|n IH]; intros previous centroids; simpl.
  - reflexivity.
  - destruct (bool_decide _); [reflexivity |]. by rewrite IH, relocate_length.
Qed.

Section Seeded.
Variable seed : nat -> list Q -> nat.

Lemma seed_more_length (k n : nat) (matrix chosen : list (list Q)) :
  length (seed_more seed n k matrix chosen) = (length chosen + k)%nat.
Proof.
  revert n chosen. induction k as [|k IH]; intros n chosen; simpl.
  - lia.
  - rewrite IH, length_app. simpl. lia.
Qed.

Lemma seeding_length (n K : nat) (matrix : list (list Q)) :
  length (seeding seed n K matrix) = K.
Proof. destruct K as [|k]; simpl; [reflexivity | by rewrite seed_more_length]. Qed.

Lemma run_length (round K max_iterations : nat) (matrix : list (list Q)) :
  length (run seed round K max_iterations matrix).2 = K.
Proof. unfold run. simpl. by rewrite iterate_length, seeding_length. Qed.

Lemma train_valid (matrix : list (list Q)) (K max_iterations num_inits : nat) :
  ~ (K < 1 \/ distinct_nonzero matrix < K)%nat ->
  exists r, train seed matrix K max_iterations num_inits = inr r /\ length r.2 = K.
Proof.
  intros H. unfold train. rewrite bool_decide_eq_false_2 by done.
  eexists. split; [reflexivity |].
  generalize (seq 1 (num_inits - 1)) as rounds.
  generalize (run_length 0 K max_iterations matrix).
  generalize (run seed 0 K max_iterations matrix) as best.
  intros best Hbest rounds. revert best Hbest.
  induction rounds as [|r rounds IH]; intros best Hbest; simpl; [exact Hbest |].
  apply IH. destruct (Qle_bool _ _); [exact Hbest | apply run_length].
Qed.
End Seeded.

(** C5.  Once training has returned for [K] clusters, the aggregation
    pass over any issues returns, and the label it records on every
    issue is below [K]: it is the position of one of the [K] clusters. *)
Theorem predicted_cluster_in_range (seed : nat -> list Q -> nat)
    (matrix : list (list Q)) (K max_iterations num_inits : nat)
    (model : list nat * list (list Q)) (transform : string -> list Q)
    (issues : list issue) (clusters : list cluster) :
  train seed matrix K max_iterations num_inits = inr model ->
  length clusters = K ->
  exists issues' clusters',
    aggregate transform (predict model.2) issues clusters = inr (issues', clusters') /\
    length issues' = length issues /\
    Forall (fun i => exists p, issue_prediction i = Some p /\ (p < K)%nat) issues'.
Proof.
  intros Htrain Hlen.
  destruct (decide (K < 1 \/ distinct_nonzero matrix < K)%nat) as [Hbad | Hok].
  { unfold train in Htrain. by rewrite bool_decide_eq_true_2 in Htrain. }
  destruct (train_valid seed matrix K max_iterations num_inits Hok) as (r & Hr & HK).
  assert (r = model) as -> by congruence.
  assert (Hne : model.2 <> []) by (intros H0; rewrite H0 in HK; simpl in HK; lia).
  destruct (aggregate_in_range transform (predict model.2) issues clusters) as [c' Hc'].
  { apply Forall_forall. intros x _. rewrite Hlen, <- HK. by apply predict_bound. }
  eexists _, c'. split; [exact Hc' |]. split; [by rewrite length_fmap |].
  apply Forall_fmap, Forall_forall. intros x _. simpl.
  eexists. split; [reflexivity |]. rewrite <- HK. by apply predict_bound.
Qed.

Lemma predicted_cluster_in_range_witness :
  exists issues' clusters',
    aggregate example_vectors (predict example_model.2) example_issues example_clusters
      = inr (issues', clusters') /\
    length issues' = length example_issues /\
    Forall (fun i => exists p, issue_prediction i = Some p /\ (p < 2)%nat) issues'.
Proof.
  apply (predicted_cluster_in_range example_seed example_matrix 2 100 1 example_model
           example_vectors example_issues example_clusters); reflexivity.
Defined.
End ClusteringProperties.

(** ** The end-to-end example *)

Lemma is_stop_word_true (c : Vectorizer.config) (t : string) :
  t ∈ Vectorizer.stop_words c -> Vectorizer.is_stop_word c t = true.
Proof. intros H. unfold Vectorizer.is_stop_word. by rewrite bool_decide_eq_true_2. Qed.

Lemma is_stop_word_false (c : Vectorizer.config) (t : string) :
  t ∉ Vectorizer.stop_words c -> Vectorizer.is_stop_word c t = false.
Proof. intros H. unfold Vectorizer.is_stop_word. by rewrite bool_decide_eq_false_2. Qed.

Lemma first_positive_admissible : admissible first_positive_seed.
Proof.
  intros n weights H. unfold first_positive_seed.
  induction H as [w rest Hw | w rest H IH]; simpl.
  - destruct (Qle_bool w 0) eqn:Hle.
    + apply Qle_bool_iff in Hle. exfalso. by apply (Qlt_not_le _ _ Hw).
    + by exists w.
  - destruct (Qle_bool w 0) eqn:Hle; [exact IH |].
    exists w. split; [reflexivity |].
    apply Qnot_le_lt. intros Hle'. apply Qle_bool_iff in Hle'. congruence.
Qed.

(** Filtering a token list whose membership in the stop words is known. *)
Ltac filter_stop_words :=
  repeat first
    [ rewrite filter_cons_True by (apply is_stop_word_false; assumption)
    | rewrite filter_cons_False
        by (rewrite is_stop_word_true by assumption; discriminate) ];
  rewrite filter_nil.

Ltac analyze_text text :=
  unfold Vectorizer.analyze, Vectorizer.tokenize;
  let w := eval vm_compute in (String.words text) in
  change (String.words text) with w;
  filter_stop_words; vm_compute; reflexivity.

Section EndToEnd.
Variable stop_words : list string.
Hypothesis Hthe : "the" ∈ stop_words.
Hypothesis Hplease : "please" ∈ stop_words.
Hypothesis Ha : "a" ∈ stop_words.
Hypothesis Hupgrade : "upgrade" ∉ stop_words.
Hypothesis Hapi : "api" ∉ stop_words.
Hypothesis Hadd : "add" ∉ stop_words.
Hypothesis Hdark : "dark" ∉ stop_words.
Hypothesis Hmode : "mode" ∉ stop_words.

Local Abbreviation unigrams := (Vectorizer.Config stop_words (1, 1)%nat).

Lemma analyze_api_1 :
  Vectorizer.analyze unigrams "upgrade the api please" = ["upgrade"; "api"].
Proof. analyze_text "upgrade the api please". Qed.

Lemma analyze_api_2 :
  Vectorizer.analyze unigrams "please upgrade api" = ["upgrade"; "api"].
Proof. analyze_text "please upgrade api". Qed.

Lemma analyze_dark :
  Vectorizer.analyze unigrams "add a dark mode" = ["add"; "dark"; "mode"].
Proof. analyze_text "add a dark mode". Qed.

Lemma fit_example : Vectorizer.fit unigrams example_corpus = inr (api_fitted stop_words).
Proof.
  unfold Vectorizer.fit, example_corpus.
  cbn [fmap list_fmap]. rewrite analyze_api_1, analyze_api_2, analyze_dark.
  vm_compute. reflexivity.
Qed.

Lemma transform_api_1 :
  Vectorizer.transform (api_fitted stop_words) "upgrade the api please" = api_vector.
Proof.
  unfold Vectorizer.transform. cbn [Vectorizer.cfg api_fitted]. rewrite analyze_api_1.
  vm_compute. reflexivity.
Qed.

Lemma transform_api_2 :
  Vectorizer.transform (api_fitted stop_words) "please upgrade api" = api_vector.
Proof.
  unfold Vectorizer.transform. cbn [Vectorizer.cfg api_fitted]. rewrite analyze_api_2.
  vm_compute. reflexivity.
Qed.

Lemma transform_dark :
  Vectorizer.transform (api_fitted stop_words) "add a dark mode" = dark_vector.
Proof.
  unfold Vectorizer.transform. cbn [Vectorizer.cfg api_fitted]. rewrite analyze_dark.
  vm_compute. reflexivity.
Qed.

Variable seed : nat -> list Q -> nat.
Hypothesis Hseed : admissible seed.

(** The second draw, given the centroids chosen so far. *)
Ltac second_draw chosen :=
  let ws := eval vm_compute in (Clustering.nearest_sqdist chosen <$> api_matrix) in
  change (Clustering.nearest_sqdist chosen <$> api_matrix) with ws;
  let w := fresh "w" in
  let Hw := fresh "Hw" in
  let Hpos := fresh "Hpos" in
  destruct (Hseed 1%nat ws) as (w & Hw & Hpos);
  [ repeat first [ apply Exists_cons_hd; reflexivity | apply Exists_cons_tl ]
  | destruct (seed 1%nat ws) as [|[|[|?]]]; try discriminate Hw;
    injection Hw as <-; first [ discriminate Hpos | reflexivity ] ].

(** The two API issues have the same vector, so the seeding never takes
    both: it takes the API vector and the dark-mode vector, in either
    order. *)
Lemma seeding_cases :
  Clustering.seeding seed 0 2 api_matrix = [api_vector; dark_vector] \/
  Clustering.seeding seed 0 2 api_matrix = [dark_vector; api_vector].
Proof.
  unfold Clustering.seeding, Clustering.seed_more.
  change ((fun _ => 1%Q) <$> api_matrix) with [1; 1; 1]%Q.
  destruct (Hseed 0%nat [1; 1; 1]%Q) as (w0 & Hw0 & _).
  { by constructor. }
  assert (H0 : Clustering.row_at api_matrix (seed 0%nat [1; 1; 1]%Q) = api_vector \/
               Clustering.row_at api_matrix (seed 0%nat [1; 1; 1]%Q) = dark_vector).
  { destruct (seed 0%nat [1; 1; 1]%Q) as [|[|[|?]]]; try discriminate Hw0; auto. }
  destruct H0 as [-> | ->];
    [left; second_draw [api_vector] | right; second_draw [dark_vector]].
Qed.

Variables id1 id2 id3 : Z.
Variables dirty1 dirty2 dirty3 : string.

(** The notebook on the example, for a given outcome of the seeding. *)
Ltac run_notebook Hseeding :=
  unfold notebook;
  change (issue_description <$> api_issues id1 id2 id3 dirty1 dirty2 dirty3)
    with example_corpus;
  rewrite fit_example; cbn [bind];
  unfold example_corpus; cbn [fmap list_fmap];
  rewrite transform_api_1, transform_api_2, transform_dark;
  fold api_matrix;
  unfold Clustering.train;
  change (bool_decide _) with false; cbn [seq Nat.sub foldl];
  unfold Clustering.run; change (0 * 2)%nat with 0%nat;
  rewrite Hseeding; cbn [bind ret snd];
  match goal with
  | |- context [make_clusters ?a ?b ?t] =>
      let x := eval vm_compute in (make_clusters a b t) in
      change (make_clusters a b t) with x
  end;
  cbn [bind];
  rewrite aggregate_as_fold;
  unfold api_issues; cbn [foldM fmap list_fmap];
  unfold tally, tag, predicted; cbn [issue_description issue_votes];
  rewrite !transform_api_1, !transform_api_2, !transform_dark;
  vm_compute; reflexivity.

(** C9.  On the three issues of the example, with two clusters and
    unigrams, the notebook returns; both API issues carry one label and
    the dark-mode issue the other; the API cluster counts 2 issues and 8
    votes, the dark-mode cluster 1 issue and 0 votes; with multipliers 1
    the combined scores are 1 and 0, and the API cluster is ranked
    first. *)
Theorem end_to_end_example :
  exists out,
    notebook stop_words (1, 1)%nat 2 100 1 seed 1 1
             (api_issues id1 id2 id3 dirty1 dirty2 dirty3) = inr out /\
    exists api dark c_api c_dark s_api s_dark,
      issue_prediction <$> out_issues out = [Some api; Some api; Some dark] /\
      api <> dark /\
      length (out_clusters out) = 2%nat /\
      out_clusters out !! api = Some c_api /\
      out_clusters out !! dark = Some c_dark /\
      c_issues c_api = 2 /\ c_votes c_api = 8 /\
      c_issues c_dark = 1 /\ c_votes c_dark = 0 /\
      c_score c_api = Some s_api /\ (s_api == 1)%Q /\
      c_score c_dark = Some s_dark /\ (s_dark == 0)%Q /\
      out_clusters_by_score out = [c_api; c_dark].
Proof.
  destruct seeding_cases as [Hs | Hs]; eexists; (split; [run_notebook Hs |]).
  - exists 0%nat, 1%nat. eexists _, _, _, _. cbn [out_issues out_clusters].
    repeat split; try reflexivity. lia.
  - exists 1%nat, 0%nat. eexists _, _, _, _. cbn [out_issues out_clusters].
    repeat split; try reflexivity. lia.
Qed.
End EndToEnd.

Lemma end_to_end_example_witness :
  exists out,
    notebook ["the"; "please"; "a"] (1, 1)%nat 2 100 1 first_positive_seed 1 1
             (api_issues 1 2 3 "" "" "") = inr out /\
    exists api dark c_api c_dark s_api s_dark,
      issue_prediction <$> out_issues out = [Some api; Some api; Some dark] /\
      api <> dark /\
      length (out_clusters out) = 2%nat /\
      out_clusters out !! api = Some c_api /\
      out_clusters out !! dark = Some c_dark /\
      c_issues c_api = 2 /\ c_votes c_api = 8 /\
      c_issues c_dark = 1 /\ c_votes c_dark = 0 /\
      c_score c_api = Some s_api /\ (s_api == 1)%Q /\
      c_score c_dark = Some s_dark /\ (s_dark == 0)%Q /\
      out_clusters_by_score out = [c_api; c_dark].
Proof.
  apply (end_to_end_example ["the"; "please"; "a"]);
    first [ apply first_positive_admissible
          | apply (bool_decide_unpack _); vm_compute; exact I ].
Defined.

(** * Further properties of the cells *)

(** ** The aggregation pass *)

Section AggregationFurther.
Context {vector : Type}.
Variable transform : string -> vector.
Variable predict : vector -> nat.

Local Abbreviation label_of := (fun i : issue => predict (transform (issue_description i))).

(** X1.  After a pass that returns, every issue carries as prediction the
    label of its own description and is otherwise unchanged, in the same
    order, although the prediction is written through [issues.index]. *)
Theorem aggregate_records_own_label (issues issues' : list issue)
    (clusters clusters' : list cluster) :
  aggregate transform predict issues clusters = inr (issues', clusters') ->
  issues' = (fun i => set_prediction (label_of i) i) <$> issues.
Proof.
  rewrite aggregate_as_fold. intros H.
  by apply bind_inr in H as (c' & _ & [= <- _]).
Qed.

Lemma tally_all_counters (issues : list issue) (clusters clusters' : list cluster)
    (p : nat) (c' : cluster) :
  foldM (tally transform predict) issues clusters = inr clusters' ->
  clusters' !! p = Some c' ->
  exists c,
    clusters !! p = Some c /\
    c_issues c' = c_issues c + Z.of_nat (length (filter (fun i => label_of i = p) issues)) /\
    c_votes c' = c_votes c + sumZ (issue_votes <$> filter (fun i => label_of i = p) issues).
Proof.
  revert clusters. induction issues as [|x issues IH]; intros clusters H Hp.
  - injection H as <-. exists c'. simpl. split; [done |]. split; lia.
  - simpl in H. apply bind_inr in H as (c1 & H1 & H).
    destruct (IH c1 H Hp) as (c & Hc & Hi & Hv).
    unfold tally, update_item, predicted in H1.
    destruct (clusters !! label_of x) as [cx|] eqn:Hcx; [| discriminate].
    injection H1 as <-.
    destruct (decide (label_of x = p)) as [Heq | Hne].
    + rewrite filter_cons_True by done.
      rewrite Heq in Hc, Hcx.
      rewrite list_lookup_insert_eq in Hc by (by eapply lookup_lt_Some).
      injection Hc as <-. exists cx. split; [done |].
      simpl in Hi, Hv |- *. unfold fmap in *. split; lia.
    + rewrite filter_cons_False by done.
      rewrite list_lookup_insert_ne in Hc by done.
      exists c. done.
Qed.

(** X2.  After a pass that returns, the cluster at position [p] counts the
    issues whose description has label [p], and its votes are the sum of
    the votes of these issues. *)
Theorem aggregate_cluster_counters (issues issues' : list issue)
    (clusters clusters' : list cluster) (p : nat) (c' : cluster) :
  aggregate transform predict issues clusters = inr (issues', clusters') ->
  clusters' !! p = Some c' ->
  c_issues c' = Z.of_nat (length (filter (fun i => label_of i = p) issues)) /\
  c_votes c' = sumZ (issue_votes <$> filter (fun i => label_of i = p) issues).
Proof.
  rewrite aggregate_as_fold. intros H Hp.
  apply bind_inr in H as (cl & Hcl & [= _ <-]).
  destruct (tally_all_counters _ _ _ _ _ Hcl Hp) as (c & Hc & Hi & Hv).
  change (map reset_counters clusters) with (reset_counters <$> clusters) in Hc.
  apply list_lookup_fmap_Some in Hc as (c0 & -> & _).
  simpl in Hi, Hv. split; lia.
Qed.

End AggregationFurther.

Lemma aggregate_records_own_label_witness :
  example_aggregated.1
  = (fun i => set_prediction (example_predict (example_transform (issue_description i))) i)
      <$> example_issues.
Proof.
  apply (aggregate_records_own_label example_transform example_predict
           example_issues example_aggregated.1 example_clusters example_aggregated.2).
  reflexivity.
Defined.

Lemma aggregate_cluster_counters_witness :
  exists c',
    example_aggregated.2 !! 1%nat = Some c' /\
    c_issues c'
    = Z.of_nat (length (filter (fun i => example_predict (example_transform
                                           (issue_description i)) = 1%nat)
                               example_issues)) /\
    c_votes c'
    = sumZ (issue_votes <$> filter (fun i => example_predict (example_transform
                                           (issue_description i)) = 1%nat)
                                   example_issues).
Proof.
  eexists. split; [reflexivity |].
  apply (aggregate_cluster_counters example_transform example_predict
           example_issues example_aggregated.1 example_clusters example_aggregated.2);
    reflexivity.
Defined.

Section AggregationErrors.
Context {vector : Type}.
Variable transform : string -> vector.
Variable predict : vector -> nat.

Local Abbreviation label_of := (fun i : issue => predict (transform (issue_description i))).

Lemma tally_all_out_of_range (issues : list issue) (clusters : list cluster) :
  Exists (fun i => (length clusters <= label_of i)%nat) issues ->
  foldM (tally transform predict) issues clusters = inl IndexError.
Proof.
  revert clusters. induction issues as [|x issues IH]; intros clusters H.
  - by apply Exists_nil in H.
  - simpl. unfold tally at 1, update_item, predicted.
    destruct (clusters !! label_of x) as [c|] eqn:Hc; [| reflexivity].
    simpl. apply IH. rewrite length_insert.
    apply Exists_cons in H as [H | H]; [| exact H].
    apply lookup_lt_Some in Hc. lia.
Qed.

(** X3.  The pass raises exactly when the label of some issue is not the
    position of a cluster, and then it raises [IndexError]; the look-up of
    the issue by value and the read of its prediction never raise. *)
Theorem aggregate_raises_iff_out_of_range (issues : list issue) (clusters : list cluster) :
  (aggregate transform predict issues clusters = inl IndexError
   <-> Exists (fun i => (length clusters <= label_of i)%nat) issues) /\
  (forall e, aggregate transform predict issues clusters = inl e -> e = IndexError).
Proof.
  assert (Hcases :
    (Forall (fun i => (label_of i < length clusters)%nat) issues /\
     exists st, aggregate transform predict issues clusters = inr st) \/
    (Exists (fun i => (length clusters <= label_of i)%nat) issues /\
     aggregate transform predict issues clusters = inl IndexError)).
  { destruct (decide (Forall (fun i => (label_of i < length clusters)%nat) issues))
      as [Hall | Hnot].
    - left. split; [done |].
      destruct (aggregate_in_range transform predict issues clusters Hall) as [c' Hc'].
      by eexists.
    - right. apply not_Forall_Exists in Hnot; [| apply _].
      assert (Hex : Exists (fun i => (length clusters <= label_of i)%nat) issues).
      { eapply Exists_impl; [exact Hnot |]. simpl. intros; lia. }
      split; [done |]. rewrite aggregate_as_fold.
      rewrite tally_all_out_of_range; [reflexivity | by rewrite length_map]. }
  destruct Hcases as [[Hall [st Hst]] | [Hex Hraise]].
  - rewrite Hst. split; [| discriminate]. split; [discriminate |].
    intros Hex. exfalso. apply Exists_exists in Hex as (i & Hi & Hle).
    rewrite Forall_forall in Hall. specialize (Hall i Hi). simpl in Hall. lia.
  - rewrite Hraise. split; [done |]. by intros e [= <-].
Qed.

(** X4.  A pass changes the two counters only: position by position, the
    clusters keep their index, their features and their scores, and the
    list keeps its length. *)
Theorem aggregate_changes_counters_only (issues issues' : list issue)
    (clusters clusters' : list cluster) :
  aggregate transform predict issues clusters = inr (issues', clusters') ->
  Forall2 (fun c c' =>
             c_index c' = c_index c /\ c_features c' = c_features c /\
             c_vote_score c' = c_vote_score c /\
             c_issue_score c' = c_issue_score c /\ c_score c' = c_score c)
          clusters clusters'.
Proof.
  rewrite aggregate_as_fold. intros H.
  apply bind_inr in H as (cl & Hcl & [= _ <-]).
  apply tally_all_effect in Hcl as (_ & Hreset & _).
  assert (Hrr : map reset_counters (map reset_counters clusters) = map reset_counters clusters)
    by (rewrite map_map; reflexivity).
  rewrite Hrr in Hreset. clear Hrr.
  revert cl Hreset. induction clusters as [|c clusters IH]; intros [|c' cl] Hreset;
    simpl in Hreset; try discriminate; constructor.
  - assert (Hc : reset_counters c' = reset_counters c) by congruence.
    repeat split;
      [ apply (f_equal c_index) in Hc | apply (f_equal c_features) in Hc
      | apply (f_equal c_vote_score) in Hc | apply (f_equal c_issue_score) in Hc
      | apply (f_equal c_score) in Hc ]; exact Hc.
  - apply IH. congruence.
Qed.
End AggregationErrors.

Lemma aggregate_changes_counters_only_witness :
  Forall2 (fun c c' =>
             c_index c' = c_index c /\ c_features c' = c_features c /\
             c_vote_score c' = c_vote_score c /\
             c_issue_score c' = c_issue_score c /\ c_score c' = c_score c)
          example_clusters example_aggregated.2.
Proof.
  apply (aggregate_changes_counters_only example_transform example_predict
           example_issues example_aggregated.1 example_clusters example_aggregated.2).
  reflexivity.
Defined.

(** ** The scoring pass *)

Lemma fold_left_min_elem (l : list Z) (x : Z) : fold_left Z.min l x ∈ x :: l.
Proof.
  revert x. induction l as [|y l IH]; intros x; simpl; [apply list_elem_of_here |].
  specialize (IH (Z.min x y)). apply elem_of_cons in IH as [-> | IH].
  - destruct (Z.min_spec x y) as [[_ ->] | [_ ->]];
      [apply list_elem_of_here | apply list_elem_of_further, list_elem_of_here].
  - by do 2 apply list_elem_of_further.
Qed.

Lemma fold_left_max_elem (l : list Z) (x : Z) : fold_left Z.max l x ∈ x :: l.
Proof.
  revert x. induction l as [|y l IH]; intros x; simpl; [apply list_elem_of_here |].
  specialize (IH (Z.max x y)). apply elem_of_cons in IH as [-> | IH].
  - destruct (Z.max_spec x y) as [[_ ->] | [_ ->]];
      [apply list_elem_of_further, list_elem_of_here | apply list_elem_of_here].
  - by do 2 apply list_elem_of_further.
Qed.

Lemma py_min_attained (f : cluster -> Z) (clusters : list cluster) (m : Z) :
  py_min (map f clusters) = inr m -> exists c, c ∈ clusters /\ f c = m.
Proof.
  intros H. assert (Hin : m ∈ f <$> clusters).
  { change (f <$> clusters) with (map f clusters).
    destruct (map f clusters) as [|x l]; [discriminate |].
    injection H as <-. apply fold_left_min_elem. }
  apply list_elem_of_fmap in Hin as (c & -> & Hc). by exists c.
Qed.

Lemma py_max_attained (f : cluster -> Z) (clusters : list cluster) (m : Z) :
  py_max (map f clusters) = inr m -> exists c, c ∈ clusters /\ f c = m.
Proof.
  intros H. assert (Hin : m ∈ f <$> clusters).
  { change (f <$> clusters) with (map f clusters).
    destruct (map f clusters) as [|x l]; [discriminate |].
    injection H as <-. apply fold_left_max_elem. }
  apply list_elem_of_fmap in Hin as (c & -> & Hc). by exists c.
Qed.

(** The three outcomes of the scoring pass. *)
Lemma scoring_cases (vm im : Q) (clusters : list cluster) :
  (clusters = [] /\ scoring vm im clusters = inl ValueError) \/
  exists mnv mxv mni mxi,
    py_min (map c_votes clusters) = inr mnv /\
    py_max (map c_votes clusters) = inr mxv /\
    py_min (map c_issues clusters) = inr mni /\
    py_max (map c_issues clusters) = inr mxi /\
    (((mnv = mxv \/ mni = mxi) /\ scoring vm im clusters = inl ZeroDivisionError) \/
     (mnv < mxv /\ mni < mxi /\
      exists scored,
        scoring vm im clusters = inr scored /\
        Forall2 (scored_as vm im mnv mxv mni mxi) clusters scored)).
Proof.
  destruct clusters as [|c0 rest]; [left; by split | right].
  set (clusters := c0 :: rest).
  destruct (py_min (map c_votes clusters)) as [e|mnv] eqn:Hmnv; [discriminate |].
  destruct (py_max (map c_votes clusters)) as [e|mxv] eqn:Hmxv; [discriminate |].
  destruct (py_min (map c_issues clusters)) as [e|mni] eqn:Hmni; [discriminate |].
  destruct (py_max (map c_issues clusters)) as [e|mxi] eqn:Hmxi; [discriminate |].
  exists mnv, mxv, mni, mxi. do 4 (split; [reflexivity |]).
  assert (Hc0 : c0 ∈ clusters) by apply list_elem_of_here.
  pose proof (py_min_le_field _ _ _ _ Hmnv Hc0) as Hv1.
  pose proof (py_max_ge_field _ _ _ _ Hmxv Hc0) as Hv2.
  pose proof (py_min_le_field _ _ _ _ Hmni Hc0) as Hi1.
  pose proof (py_max_ge_field _ _ _ _ Hmxi Hc0) as Hi2.
  unfold scoring. rewrite Hmnv, Hmxv, Hmni, Hmxi. cbn [bind].
  destruct (decide (mnv = mxv)) as [-> | Hnv].
  { left. split; [by left |]. subst clusters. cbn [mapM]. unfold score_cluster.
    by rewrite Z.sub_diag, truediv_zero. }
  destruct (decide (mni = mxi)) as [-> | Hni].
  { left. split; [by right |]. subst clusters. cbn [mapM]. unfold score_cluster.
    rewrite (truediv_nonzero _ (mxv - mnv)) by lia. cbn [bind].
    by rewrite Z.sub_diag, truediv_zero. }
  right. split; [lia |]. split; [lia |].
  apply mapM_Forall2. rewrite Forall_forall. intros c Hc.
  apply score_cluster_formula; try lia; split;
    eauto using py_min_le_field, py_max_ge_field.
Qed.

(** X5.  The three outcomes of the scoring pass.  It raises [ValueError]
    exactly on an empty cluster list; it raises [ZeroDivisionError] exactly
    on a list that is not empty in which all vote sums are equal or all
    issue counts are equal; it raises nothing else; and it returns exactly
    when the clusters take at least two different vote sums and at least
    two different issue counts, so that a single cluster is never scored. *)
Theorem scoring_outcomes (vm im : Q) (clusters : list cluster) :
  (scoring vm im clusters = inl ValueError <-> clusters = []) /\
  (scoring vm im clusters = inl ZeroDivisionError <->
   clusters <> [] /\
   ((forall a b, a ∈ clusters -> b ∈ clusters -> c_votes a = c_votes b) \/
    (forall a b, a ∈ clusters -> b ∈ clusters -> c_issues a = c_issues b))) /\
  (forall e, scoring vm im clusters = inl e -> e = ValueError \/ e = ZeroDivisionError) /\
  ((exists scored, scoring vm im clusters = inr scored) <->
   (exists a b, a ∈ clusters /\ b ∈ clusters /\ c_votes a <> c_votes b) /\
   (exists a b, a ∈ clusters /\ b ∈ clusters /\ c_issues a <> c_issues b)).
Proof.
  destruct (scoring_cases vm im clusters)
    as [[-> Hs] | (mnv & mxv & mni & mxi & Hmnv & Hmxv & Hmni & Hmxi & Hcases)].
  - rewrite Hs. split; [done |]. split; [| split; [| split]].
    + split; [discriminate | by intros [? _]].
    + intros e [= <-]. by left.
    + intros [scored H]. discriminate.
    + intros [(a & _ & Ha & _) _]. by apply elem_of_nil in Ha.
  - assert (Hne : clusters <> []) by (intros ->; discriminate).
    assert (Hbv : forall c, c ∈ clusters -> mnv <= c_votes c <= mxv).
    { intros c Hc. split; [exact (py_min_le_field _ _ _ _ Hmnv Hc) |
                           exact (py_max_ge_field _ _ _ _ Hmxv Hc)]. }
    assert (Hbi : forall c, c ∈ clusters -> mni <= c_issues c <= mxi).
    { intros c Hc. split; [exact (py_min_le_field _ _ _ _ Hmni Hc) |
                           exact (py_max_ge_field _ _ _ _ Hmxi Hc)]. }
    destruct (py_min_attained _ _ _ Hmnv) as (av & Hav & Havv).
    destruct (py_max_attained _ _ _ Hmxv) as (bv & Hbv' & Hbvv).
    destruct (py_min_attained _ _ _ Hmni) as (ai & Hai & Haii).
    destruct (py_max_attained _ _ _ Hmxi) as (bi & Hbi' & Hbii).
    destruct Hcases as [[Hdeg Hs] | (Hv & Hi & scored & Hs & _)]; rewrite Hs.
    + split; [split; [discriminate | done] |]. split; [| split; [| split]].
      * split; [| done]. intros _. split; [done |].
        destruct Hdeg as [-> | ->]; [left | right]; intros a b Ha Hb.
        -- pose proof (Hbv a Ha). pose proof (Hbv b Hb). lia.
        -- pose proof (Hbi a Ha). pose proof (Hbi b Hb). lia.
      * intros e [= <-]. by right.
      * intros [? ?]; discriminate.
      * intros [(a & b & Ha & Hb & Hab) (a' & b' & Ha' & Hb' & Hab')]. exfalso.
        pose proof (Hbv a Ha). pose proof (Hbv b Hb).
        pose proof (Hbi a' Ha'). pose proof (Hbi b' Hb'). lia.
    + split; [split; [discriminate | done] |]. split; [| split; [| split]].
      * split; [discriminate |]. intros [_ [Hall | Hall]]; exfalso.
        -- pose proof (Hall av bv Hav Hbv'). lia.
        -- pose proof (Hall ai bi Hai Hbi'). lia.
      * discriminate.
      * intros _. split; [exists av, bv | exists ai, bi]; repeat split; try done; lia.
      * intros _. by eexists.
Qed.

Lemma inject_Z_pos (d : Z) : 0 < d -> (0 < inject_Z d)%Q.
Proof. intros H. change 0%Q with (inject_Z 0). by rewrite <- Zlt_Qlt. Qed.

Lemma scaled_ratio_monotone (m : Q) (a b d : Z) :
  (0 <= m)%Q -> a <= b -> 0 < d ->
  (m * inject_Z a / inject_Z d <= m * inject_Z b / inject_Z d)%Q.
Proof.
  intros Hm Hab Hd. unfold Qdiv.
  apply Qmult_le_compat_r; [| apply Qinv_le_0_compat, Qlt_le_weak, inject_Z_pos, Hd].
  rewrite !(Qmult_comm m). apply Qmult_le_compat_r; [| exact Hm].
  by rewrite <- Zle_Qle.
Qed.

Lemma scaled_ratio_zero (m : Q) (d : Z) : d <> 0 -> (m * inject_Z 0 / inject_Z d == 0)%Q.
Proof.
  intros Hd. field. change 0%Q with (inject_Z 0). rewrite inject_Z_injective. lia.
Qed.

Lemma scaled_ratio_full (m : Q) (d : Z) : d <> 0 -> (m * inject_Z d / inject_Z d == m)%Q.
Proof.
  intros Hd. field. change 0%Q with (inject_Z 0). rewrite inject_Z_injective. lia.
Qed.

Lemma scaled_ratio_bounds (m : Q) (a d : Z) :
  (0 <= m)%Q -> 0 <= a <= d -> 0 < d ->
  (0 <= m * inject_Z a / inject_Z d /\ m * inject_Z a / inject_Z d <= m)%Q.
Proof.
  intros Hm [Ha Had] Hd. split.
  - rewrite <- (scaled_ratio_zero m d) by lia. by apply scaled_ratio_monotone.
  - rewrite <- (scaled_ratio_full m d) at 2 by lia. by apply scaled_ratio_monotone.
Qed.

(** A pass that returns has scored every cluster by the two formulas, for
    extrema that differ. *)
Lemma scoring_inr_scored_as (vm im : Q) (clusters scored : list cluster) :
  scoring vm im clusters = inr scored ->
  exists mnv mxv mni mxi,
    py_min (map c_votes clusters) = inr mnv /\
    py_max (map c_votes clusters) = inr mxv /\
    py_min (map c_issues clusters) = inr mni /\
    py_max (map c_issues clusters) = inr mxi /\
    mnv < mxv /\ mni < mxi /\
    Forall2 (scored_as vm im mnv mxv mni mxi) clusters scored.
Proof.
  intros H.
  destruct (scoring_cases vm im clusters)
    as [[_ Hs] | (mnv & mxv & mni & mxi & Hmnv & Hmxv & Hmni & Hmxi & Hcases)];
    [congruence |].
  destruct Hcases as [[_ Hs] | (Hv & Hi & scored' & Hs & HF)]; [congruence |].
  assert (scored' = scored) as -> by congruence.
  by exists mnv, mxv, mni, mxi.
Qed.

(** X6.  For multipliers that are not negative, a pass that returns gives
    every cluster a vote score between 0 and the vote multiplier and an
    issue score between 0 and the issue multiplier; the combined score is
    the mean of the two, and so lies between 0 and the mean of the two
    multipliers. *)
Theorem scores_bounded_by_multipliers (vm im : Q) (clusters scored : list cluster) :
  (0 <= vm)%Q -> (0 <= im)%Q ->
  scoring vm im clusters = inr scored ->
  Forall (fun c => exists v i s,
            c_vote_score c = Some v /\ c_issue_score c = Some i /\ c_score c = Some s /\
            (0 <= v /\ v <= vm)%Q /\ (0 <= i /\ i <= im)%Q /\
            (s == (v + i) / 2)%Q /\
            (0 <= s /\ s <= (vm + im) / 2)%Q) scored.
Proof.
  intros Hvm Him H.
  apply scoring_inr_scored_as in H
    as (mnv & mxv & mni & mxi & Hmnv & Hmxv & Hmni & Hmxi & Hv & Hi & HF).
  apply Forall_forall. intros c' Hc'.
  apply list_elem_of_lookup in Hc' as [k Hk].
  destruct (Forall2_lookup_r _ _ _ _ _ HF Hk) as (c & Hc & Hs).
  apply list_elem_of_lookup_2 in Hc.
  destruct Hs as (_ & _ & _ & _ & v & i & s & Hsv & Hsi & Hss & Hfv & Hfi & Hfs & _).
  exists v, i, s. do 3 (split; [done |]).
  assert (Hbv : (0 <= v /\ v <= vm)%Q).
  { rewrite Hfv. unfold spec_vote_score. apply scaled_ratio_bounds; try lia; [done |].
    split; [pose proof (py_min_le_field _ _ _ _ Hmnv Hc) |
            pose proof (py_max_ge_field _ _ _ _ Hmxv Hc)]; lia. }
  assert (Hbi : (0 <= i /\ i <= im)%Q).
  { rewrite Hfi. unfold spec_issue_score. apply scaled_ratio_bounds; try lia; [done |].
    split; [pose proof (py_min_le_field _ _ _ _ Hmni Hc) |
            pose proof (py_max_ge_field _ _ _ _ Hmxi Hc)]; lia. }
  split; [done |]. split; [done |].
  assert (Hmean : (s == (v + i) / 2)%Q).
  { rewrite Hfs. unfold spec_combined_score. field. }
  split; [exact Hmean |].
  rewrite Hmean. destruct Hbv, Hbi. split.
  - apply Qle_shift_div_l; [reflexivity | lra].
  - apply Qle_shift_div_r; [reflexivity |]. field_simplify. lra.
Qed.

Lemma scores_bounded_by_multipliers_witness :
  Forall (fun c => exists v i s,
            c_vote_score c = Some v /\ c_issue_score c = Some i /\ c_score c = Some s /\
            (0 <= v /\ v <= 2)%Q /\ (0 <= i /\ i <= 3)%Q /\
            (s == (v + i) / 2)%Q /\
            (0 <= s /\ s <= (2 + 3) / 2)%Q) example_scored_weighted.
Proof.
  apply (scores_bounded_by_multipliers 2 3 example_aggregated.2 example_scored_weighted);
    [discriminate | discriminate | reflexivity].
Defined.

(** X7.  In a pass that returns, both ends of each scale are taken, and by
    the clusters at the ends of the counts: a cluster with the fewest votes
    gets the vote score 0 and a cluster with the most votes gets the whole
    vote multiplier, a cluster with the fewest issues gets the issue score
    0 and a cluster with the most issues gets the whole issue multiplier;
    and the list has a cluster of each of the four kinds. *)
Theorem scoring_extremes_attained (vm im : Q) (clusters scored : list cluster) :
  scoring vm im clusters = inr scored ->
  (forall k c c', clusters !! k = Some c -> scored !! k = Some c' ->
     ((forall d, d ∈ clusters -> c_votes c <= c_votes d) ->
      exists v, c_vote_score c' = Some v /\ (v == 0)%Q) /\
     ((forall d, d ∈ clusters -> c_votes d <= c_votes c) ->
      exists v, c_vote_score c' = Some v /\ (v == vm)%Q) /\
     ((forall d, d ∈ clusters -> c_issues c <= c_issues d) ->
      exists i, c_issue_score c' = Some i /\ (i == 0)%Q) /\
     ((forall d, d ∈ clusters -> c_issues d <= c_issues c) ->
      exists i, c_issue_score c' = Some i /\ (i == im)%Q)) /\
  (exists c, c ∈ clusters /\ forall d, d ∈ clusters -> c_votes c <= c_votes d) /\
  (exists c, c ∈ clusters /\ forall d, d ∈ clusters -> c_votes d <= c_votes c) /\
  (exists c, c ∈ clusters /\ forall d, d ∈ clusters -> c_issues c <= c_issues d) /\
  (exists c, c ∈ clusters /\ forall d, d ∈ clusters -> c_issues d <= c_issues c).
Proof.
  intros H.
  apply scoring_inr_scored_as in H
    as (mnv & mxv & mni & mxi & Hmnv & Hmxv & Hmni & Hmxi & Hv & Hi & HF).
  destruct (py_min_attained _ _ _ Hmnv) as (av & Hav & Havv).
  destruct (py_max_attained _ _ _ Hmxv) as (bv & Hbv & Hbvv).
  destruct (py_min_attained _ _ _ Hmni) as (ai & Hai & Haii).
  destruct (py_max_attained _ _ _ Hmxi) as (bi & Hbi & Hbii).
  split; [| repeat split].
  - intros k c c' Hc Hc'.
    pose proof (Forall2_lookup_lr _ _ _ _ _ _ HF Hc Hc')
      as (_ & _ & _ & _ & v & i & s & Hsv & Hsi & _ & Hfv & Hfi & _).
    apply list_elem_of_lookup_2 in Hc.
    pose proof (py_min_le_field _ _ _ _ Hmnv Hc) as Hc1.
    pose proof (py_max_ge_field _ _ _ _ Hmxv Hc) as Hc2.
    pose proof (py_min_le_field _ _ _ _ Hmni Hc) as Hc3.
    pose proof (py_max_ge_field _ _ _ _ Hmxi Hc) as Hc4.
    repeat split; intros Hend.
    + exists v. split; [done |]. rewrite Hfv. unfold spec_vote_score.
      pose proof (Hend av Hav). replace (c_votes c - mnv) with 0 by lia.
      apply scaled_ratio_zero. lia.
    + exists v. split; [done |]. rewrite Hfv. unfold spec_vote_score.
      pose proof (Hend bv Hbv). replace (c_votes c - mnv) with (mxv - mnv) by lia.
      apply scaled_ratio_full. lia.
    + exists i. split; [done |]. rewrite Hfi. unfold spec_issue_score.
      pose proof (Hend ai Hai). replace (c_issues c - mni) with 0 by lia.
      apply scaled_ratio_zero. lia.
    + exists i. split; [done |]. rewrite Hfi. unfold spec_issue_score.
      pose proof (Hend bi Hbi). replace (c_issues c - mni) with (mxi - mni) by lia.
      apply scaled_ratio_full. lia.
  - exists av. split; [done |]. intros d Hd.
    pose proof (py_min_le_field _ _ _ _ Hmnv Hd). lia.
  - exists bv. split; [done |]. intros d Hd.
    pose proof (py_max_ge_field _ _ _ _ Hmxv Hd). lia.
  - exists ai. split; [done |]. intros d Hd.
    pose proof (py_min_le_field _ _ _ _ Hmni Hd). lia.
  - exists bi. split; [done |]. intros d Hd.
    pose proof (py_max_ge_field _ _ _ _ Hmxi Hd). lia.
Qed.

Lemma scoring_extremes_attained_witness :
  (forall k c c', example_aggregated.2 !! k = Some c ->
                  example_scored_weighted !! k = Some c' ->
     ((forall d, d ∈ example_aggregated.2 -> c_votes c <= c_votes d) ->
      exists v, c_vote_score c' = Some v /\ (v == 0)%Q) /\
     ((forall d, d ∈ example_aggregated.2 -> c_votes d <= c_votes c) ->
      exists v, c_vote_score c' = Some v /\ (v == 2)%Q) /\
     ((forall d, d ∈ example_aggregated.2 -> c_issues c <= c_issues d) ->
      exists i, c_issue_score c' = Some i /\ (i == 0)%Q) /\
     ((forall d, d ∈ example_aggregated.2 -> c_issues d <= c_issues c) ->
      exists i, c_issue_score c' = Some i /\ (i == 3)%Q)) /\
  (exists c, c ∈ example_aggregated.2 /\
             forall d, d ∈ example_aggregated.2 -> c_votes c <= c_votes d) /\
  (exists c, c ∈ example_aggregated.2 /\
             forall d, d ∈ example_aggregated.2 -> c_votes d <= c_votes c) /\
  (exists c, c ∈ example_aggregated.2 /\
             forall d, d ∈ example_aggregated.2 -> c_issues c <= c_issues d) /\
  (exists c, c ∈ example_aggregated.2 /\
             forall d, d ∈ example_aggregated.2 -> c_issues d <= c_issues c).
Proof.
  apply (scoring_extremes_attained 2 3 example_aggregated.2 example_scored_weighted).
  reflexivity.
Defined.

(** X8.  The scores follow the counts.  For multipliers that are not
    negative, in a pass that returns, a cluster with at most the votes of
    another gets at most its vote score, a cluster with at most the issues
    of another gets at most its issue score, and a cluster with at most
    the votes and at most the issues of another gets at most its combined
    score. *)
Theorem scoring_respects_dominance (vm im : Q) (clusters scored : list cluster)
    (j k : nat) (a b a' b' : cluster) :
  (0 <= vm)%Q -> (0 <= im)%Q ->
  scoring vm im clusters = inr scored ->
  clusters !! j = Some a -> clusters !! k = Some b ->
  scored !! j = Some a' -> scored !! k = Some b' ->
  exists va vb ia ib sa sb,
    c_vote_score a' = Some va /\ c_vote_score b' = Some vb /\
    c_issue_score a' = Some ia /\ c_issue_score b' = Some ib /\
    c_score a' = Some sa /\ c_score b' = Some sb /\
    (c_votes a <= c_votes b -> (va <= vb)%Q) /\
    (c_issues a <= c_issues b -> (ia <= ib)%Q) /\
    (c_votes a <= c_votes b -> c_issues a <= c_issues b -> (sa <= sb)%Q).
Proof.
  intros Hvm Him H Ha Hb Ha' Hb'.
  apply scoring_inr_scored_as in H
    as (mnv & mxv & mni & mxi & Hmnv & Hmxv & Hmni & Hmxi & Hv & Hi & HF).
  pose proof (Forall2_lookup_lr _ _ _ _ _ _ HF Ha Ha')
    as (_ & _ & _ & _ & va & ia & sa & Hva & Hia & Hsa & Hfva & Hfia & Hfsa & _).
  pose proof (Forall2_lookup_lr _ _ _ _ _ _ HF Hb Hb')
    as (_ & _ & _ & _ & vb & ib & sb & Hvb & Hib & Hsb & Hfvb & Hfib & Hfsb & _).
  exists va, vb, ia, ib, sa, sb. do 6 (split; [done |]).
  assert (Hlev : c_votes a <= c_votes b -> (va <= vb)%Q).
  { intros Hvotes. rewrite Hfva, Hfvb. unfold spec_vote_score.
    apply scaled_ratio_monotone; [done | lia | lia]. }
  assert (Hlei : c_issues a <= c_issues b -> (ia <= ib)%Q).
  { intros Hissues. rewrite Hfia, Hfib. unfold spec_issue_score.
    apply scaled_ratio_monotone; [done | lia | lia]. }
  split; [exact Hlev |]. split; [exact Hlei |].
  intros Hvotes Hissues. specialize (Hlev Hvotes). specialize (Hlei Hissues).
  rewrite Hfsa, Hfsb. unfold spec_combined_score.
  apply Qle_shift_div_r; [reflexivity |]. field_simplify. lra.
Qed.

Lemma scoring_respects_dominance_witness :
  exists a b a' b' va vb ia ib sa sb,
    example_aggregated.2 !! 0%nat = Some a /\
    example_aggregated.2 !! 1%nat = Some b /\
    example_scored_weighted !! 0%nat = Some a' /\
    example_scored_weighted !! 1%nat = Some b' /\
    c_vote_score a' = Some va /\ c_vote_score b' = Some vb /\
    c_issue_score a' = Some ia /\ c_issue_score b' = Some ib /\
    c_score a' = Some sa /\ c_score b' = Some sb /\
    (c_votes a <= c_votes b -> (va <= vb)%Q) /\
    (c_issues a <= c_issues b -> (ia <= ib)%Q) /\
    (c_votes a <= c_votes b -> c_issues a <= c_issues b -> (sa <= sb)%Q).
Proof.
  eexists _, _, _, _.
  destruct (scoring_respects_dominance 2 3 example_aggregated.2 example_scored_weighted
              0 1 _ _ _ _ ltac:(discriminate) ltac:(discriminate)
              eq_refl eq_refl eq_refl eq_refl eq_refl)
    as (va & vb & ia & ib & sa & sb & H).
  exists va, vb, ia, ib, sa, sb. do 4 (split; [reflexivity |]). exact H.
Defined.

(** ** The rankings *)

Lemma mapM_keys_cases (clusters : list cluster) :
  (Exists (fun c => c_score c = None) clusters /\
   mapM (fun c => match c_score c with
                  | Some s => ret (s, c)
                  | None => raise KeyError
                  end) clusters = inl KeyError) \/
  (Forall (fun c => is_Some (c_score c)) clusters /\
   exists keyed,
     mapM (fun c => match c_score c with
                    | Some s => ret (s, c)
                    | None => raise KeyError
                    end) clusters = inr keyed /\
     snd <$> keyed = clusters /\
     Forall (fun p => c_score p.2 = Some p.1) keyed).
Proof.
  induction clusters as [|c l IH].
  - right. split; [constructor |]. exists []. by repeat split.
  - cbn [mapM]. destruct (c_score c) as [s|] eqn:Hs.
    + cbn [bind ret].
      destruct IH as [[Hex ->] | (Hall & keyed & -> & Hsnd & Hk)].
      * left. split; [by apply Exists_cons_tl | reflexivity].
      * right. split; [constructor; [by eexists | done] |].
        exists ((s, c) :: keyed). split; [reflexivity |].
        split; [simpl; by f_equal | by constructor].
    + left. split; [by apply Exists_cons_hd | reflexivity].
Qed.

(** X9.  Ranking by score raises exactly when some cluster has no score
    yet, and then it raises [KeyError]; otherwise it returns the same
    clusters in descending order of score, so that the first one, which the
    notebook prints as the top cluster, has the highest score. *)
Theorem clusters_by_score_outcomes (clusters : list cluster) :
  (clusters_by_score clusters = inl KeyError
   <-> Exists (fun c => c_score c = None) clusters) /\
  (forall e, clusters_by_score clusters = inl e -> e = KeyError) /\
  (forall ranked,
     clusters_by_score clusters = inr ranked ->
     ranked ≡ₚ clusters /\
     StronglySorted (fun a b => exists sa sb,
                       c_score a = Some sa /\ c_score b = Some sb /\ (sb <= sa)%Q) ranked /\
     forall best, ranked !! 0%nat = Some best ->
       Forall (fun c => exists s sb,
                 c_score c = Some s /\ c_score best = Some sb /\ (s <= sb)%Q) clusters).
Proof.
  unfold clusters_by_score.
  destruct (mapM_keys_cases clusters) as [[Hex ->] | (Hall & keyed & -> & Hsnd & Hk)];
    cbn [bind ret].
  - split; [done |]. split; [by intros e [= <-] | discriminate].
  - split.
    { split; [discriminate |]. intros Hex. exfalso.
      apply Exists_exists in Hex as (c & Hc & Hnone).
      rewrite Forall_forall in Hall. destruct (Hall c Hc) as [s Hs]. congruence. }
    split; [discriminate |]. intros ranked [= <-].
    change (map snd) with (fmap (M := list) (@snd Q cluster)).
    assert (Hperm : snd <$> sorted_reverse fst keyed ≡ₚ clusters)
      by (by rewrite sorted_reverse_Permutation, Hsnd).
    assert (Hsorted : StronglySorted (fun a b => exists sa sb,
                        c_score a = Some sa /\ c_score b = Some sb /\ (sb <= sa)%Q)
                        (snd <$> sorted_reverse fst keyed)).
    { apply (StronglySorted_fmap_Forall snd (fun p => c_score p.2 = Some p.1)
               (fun a b => (b.1 < a.1)%Q \/ ((a.1 == b.1)%Q /\ True))).
      - intros a b Ha Hb H. exists a.1, b.1. do 2 (split; [done |]).
        destruct H as [H | [H _]]; [by apply Qlt_le_weak | rewrite H; apply Qle_refl].
      - by rewrite sorted_reverse_Permutation.
      - apply (sorted_reverse_sorted fst (fun _ _ => True)), StronglySorted_True. }
    split; [done |]. split; [done |].
    intros best Hbest.
    destruct (snd <$> sorted_reverse fst keyed) as [|b rest] eqn:Hranked; [discriminate |].
    injection Hbest as ->.
    apply StronglySorted_cons in Hsorted as [Hhead _].
    rewrite <- Hperm. constructor.
    + rewrite Forall_forall in Hall.
      destruct (Hall best) as [s Hs]; [rewrite <- Hperm; apply list_elem_of_here |].
      exists s, s. do 2 (split; [done |]). apply Qle_refl.
    + eapply Forall_impl; [exact Hhead |]. simpl.
      intros c (sa & sb & Hsa & Hsb & Hle). by exists sb, sa.
Qed.

Lemma lookup_by_index (K : nat) (clusters : list cluster) (c : cluster) :
  c_index <$> clusters = seq 0 K -> c ∈ clusters -> clusters !! c_index c = Some c.
Proof.
  intros Hidx Hc. apply list_elem_of_lookup in Hc as [k Hk].
  assert (Hk' : (c_index <$> clusters) !! k = Some (c_index c))
    by (by rewrite list_lookup_fmap, Hk).
  rewrite Hidx in Hk'. apply lookup_seq in Hk' as [-> _]. exact Hk.
Qed.

Lemma clusters_by_score_Permutation (clusters ranked : list cluster) :
  clusters_by_score clusters = inr ranked -> ranked ≡ₚ clusters.
Proof.
  unfold clusters_by_score.
  destruct (mapM_keys_cases clusters) as [[Hex ->] | (Hall & keyed & -> & Hsnd & Hk)];
    cbn [bind ret]; [discriminate |].
  intros [= <-]. change (map snd) with (fmap (M := list) (@snd Q cluster)).
  by rewrite sorted_reverse_Permutation, Hsnd.
Qed.

(** X10.  In the notebook the index of a cluster is its position in the
    cluster list, from the cell that builds the list to the ranking: for
    every ranked cluster [c], [clusters[c['index']]], which the final
    print loop reads, is [c] itself. *)
Theorem ranked_cluster_found_by_index {vector : Type} (transform : string -> vector)
    (predict : vector -> nat) (K : nat) (order : list (list nat)) (terms : list string)
    (vm im : Q) (issues issues1 : list issue)
    (clusters0 clusters1 scored ranked : list cluster) :
  make_clusters K order terms = inr clusters0 ->
  aggregate transform predict issues clusters0 = inr (issues1, clusters1) ->
  scoring vm im clusters1 = inr scored ->
  clusters_by_score scored = inr ranked ->
  Forall (fun c => scored !! c_index c = Some c) ranked.
Proof.
  intros Hmake Hagg Hscore Hrank.
  apply make_clusters_index in Hmake. apply aggregate_index in Hagg.
  apply scoring_index_score in Hscore as [Hidx _].
  rewrite Hagg, Hmake in Hidx.
  apply clusters_by_score_Permutation in Hrank.
  apply Forall_forall. intros c Hc. rewrite Hrank in Hc.
  by apply (lookup_by_index K).
Qed.

Lemma ranked_cluster_found_by_index_witness :
  exists ranked,
    clusters_by_score example_scored = inr ranked /\
    Forall (fun c => example_scored !! c_index c = Some c) ranked.
Proof.
  eexists. split; [reflexivity |].
  apply (ranked_cluster_found_by_index example_transform example_predict 2 example_order
           example_terms 1 1 example_issues example_aggregated.1
           example_clusters example_aggregated.2 example_scored); reflexivity.
Defined.

Lemma sorted_reverse_by_count (f : cluster -> Z) (clusters : list cluster) :
  StronglySorted (fun a b => (c_index a < c_index b)%nat) clusters ->
  StronglySorted (fun a b => f b < f a \/ (f a = f b /\ (c_index a < c_index b)%nat))
                 (sorted_reverse (fun c => inject_Z (f c)) clusters).
Proof.
  intros H. apply (sorted_reverse_sorted (fun c => inject_Z (f c))) in H.
  revert H. apply StronglySorted_weaken.
  intros a b [Hlt | [Heq Hidx]].
  - left. by rewrite Zlt_Qlt.
  - right. split; [| done]. by apply inject_Z_injective.
Qed.

(** X11.  The two lists of the cell that sorts by issue count and by vote
    count hold the clusters of the aggregation pass, by descending count,
    and clusters with the same count by ascending index; the ten entries
    the cell prints are therefore ten clusters with the largest counts. *)
Theorem clusters_by_counts_sorted {vector : Type} (transform : string -> vector)
    (predict : vector -> nat) (K : nat) (order : list (list nat)) (terms : list string)
    (issues issues1 : list issue) (clusters0 clusters1 : list cluster) :
  make_clusters K order terms = inr clusters0 ->
  aggregate transform predict issues clusters0 = inr (issues1, clusters1) ->
  clusters_by_issues clusters1 ≡ₚ clusters1 /\
  StronglySorted (fun a b => c_issues b < c_issues a \/
                             (c_issues a = c_issues b /\ (c_index a < c_index b)%nat))
                 (clusters_by_issues clusters1) /\
  clusters_by_votes clusters1 ≡ₚ clusters1 /\
  StronglySorted (fun a b => c_votes b < c_votes a \/
                             (c_votes a = c_votes b /\ (c_index a < c_index b)%nat))
                 (clusters_by_votes clusters1) /\
  (forall a b, a ∈ take 10 (clusters_by_issues clusters1) ->
               b ∈ drop 10 (clusters_by_issues clusters1) -> c_issues b <= c_issues a) /\
  (forall a b, a ∈ take 10 (clusters_by_votes clusters1) ->
               b ∈ drop 10 (clusters_by_votes clusters1) -> c_votes b <= c_votes a).
Proof.
  intros Hmake Hagg.
  apply make_clusters_index in Hmake. apply aggregate_index in Hagg.
  rewrite Hmake in Hagg.
  assert (Hidx : StronglySorted (fun a b => (c_index a < c_index b)%nat) clusters1).
  { apply (StronglySorted_fmap_inv c_index lt). rewrite Hagg. apply StronglySorted_lt_seq. }
  pose proof (sorted_reverse_by_count c_issues clusters1 Hidx) as Hi.
  pose proof (sorted_reverse_by_count c_votes clusters1 Hidx) as Hv.
  split; [apply sorted_reverse_Permutation |]. split; [exact Hi |].
  split; [apply sorted_reverse_Permutation |]. split; [exact Hv |].
  split.
  - intros a b Ha Hb. unfold clusters_by_issues in Ha, Hb.
    rewrite <- (take_drop 10 (sorted_reverse _ clusters1)) in Hi.
    apply StronglySorted_app in Hi as (Hcross & _ & _).
    destruct (Hcross a b Ha Hb) as [? | [? _]]; lia.
  - intros a b Ha Hb. unfold clusters_by_votes in Ha, Hb.
    rewrite <- (take_drop 10 (sorted_reverse _ clusters1)) in Hv.
    apply StronglySorted_app in Hv as (Hcross & _ & _).
    destruct (Hcross a b Ha Hb) as [? | [? _]]; lia.
Qed.

Lemma clusters_by_counts_sorted_witness :
  clusters_by_issues example_aggregated.2 ≡ₚ example_aggregated.2 /\
  StronglySorted (fun a b => c_issues b < c_issues a \/
                             (c_issues a = c_issues b /\ (c_index a < c_index b)%nat))
                 (clusters_by_issues example_aggregated.2) /\
  clusters_by_votes example_aggregated.2 ≡ₚ example_aggregated.2 /\
  StronglySorted (fun a b => c_votes b < c_votes a \/
                             (c_votes a = c_votes b /\ (c_index a < c_index b)%nat))
                 (clusters_by_votes example_aggregated.2) /\
  (forall a b, a ∈ take 10 (clusters_by_issues example_aggregated.2) ->
               b ∈ drop 10 (clusters_by_issues example_aggregated.2) ->
               c_issues b <= c_issues a) /\
  (forall a b, a ∈ take 10 (clusters_by_votes example_aggregated.2) ->
               b ∈ drop 10 (clusters_by_votes example_aggregated.2) ->
               c_votes b <= c_votes a).
Proof.
  apply (clusters_by_counts_sorted example_transform example_predict 2 example_order
           example_terms example_issues example_aggregated.1 example_clusters);
    reflexivity.
Defined.

(** ** The cluster list *)

Lemma mapM_inl {A B : Type} (f : A -> result B) (l : list A) (e : exception) :
  mapM f l = inl e -> exists x, x ∈ l /\ f x = inl e.
Proof.
  induction l as [|x l IH]; simpl; [discriminate |].
  destruct (f x) as [e'|y] eqn:Hx; simpl.
  - intros [= ->]. exists x. split; [apply list_elem_of_here | done].
  - destruct (mapM f l) as [e'|ys]; simpl; [| discriminate].
    intros [= ->]. destruct IH as (x' & Hx' & Hf); [done |].
    exists x'. split; [by apply list_elem_of_further | done].
Qed.

Lemma getitem_inr {A : Type} (l : list A) (i : nat) (x : A) :
  getitem l i = inr x <-> l !! i = Some x.
Proof.
  unfold getitem, ret, raise. destruct (l !! i); split; intros H; try discriminate; congruence.
Qed.

Lemma getitem_inl {A : Type} (l : list A) (i : nat) (e : exception) :
  getitem l i = inl e -> e = IndexError /\ (length l <= i)%nat.
Proof.
  unfold getitem. destruct (l !! i) eqn:Hi; [discriminate |].
  intros [= <-]. split; [done | by apply lookup_ge_None].
Qed.

Lemma features_inl (terms : list string) (row : list nat) (e : exception) :
  features terms row = inl e -> e = IndexError.
Proof.
  intros H. apply mapM_inl in H as (x & _ & Hx). by apply getitem_inl in Hx as [-> _].
Qed.

Lemma features_inr_iff (terms : list string) (row : list nat) :
  (exists fs, features terms row = inr fs)
  <-> Forall (fun x => (x < length terms)%nat) (take 10 row).
Proof.
  split.
  - intros [fs H]. apply mapM_inr_Forall2 in H.
    apply Forall_forall. intros x Hx. apply list_elem_of_lookup in Hx as [k Hk].
    destruct (Forall2_lookup_l _ _ _ _ _ H Hk) as (t & _ & Ht).
    apply getitem_inr in Ht. by eapply lookup_lt_Some.
  - intros H. destruct (mapM_Forall2 (getitem terms) (fun _ _ => True) (take 10 row))
      as (fs & Hfs & _); [| by exists fs].
    eapply Forall_impl; [exact H |]. simpl. intros x Hx.
    destruct (lookup_lt_is_Some_2 terms x Hx) as [t Ht].
    exists t. split; [by apply getitem_inr | done].
Qed.

(** X12.  When the cell that builds the cluster list returns, the list has
    [number_of_clusters] entries; the entry at position [i] has index [i],
    both counters at zero, no score, and as features the terms at the
    first ten positions of row [i] of the term order. *)
Theorem make_clusters_fresh (K : nat) (order : list (list nat)) (terms : list string)
    (clusters : list cluster) :
  make_clusters K order terms = inr clusters ->
  length clusters = K /\
  forall i c, clusters !! i = Some c ->
    c_index c = i /\ c_votes c = 0 /\ c_issues c = 0 /\
    c_vote_score c = None /\ c_issue_score c = None /\ c_score c = None /\
    exists row, order !! i = Some row /\
                Forall2 (fun x t => terms !! x = Some t) (take 10 row) (c_features c).
Proof.
  intros H. unfold make_clusters in H. apply mapM_inr_Forall2 in H.
  split; [by rewrite <- (Forall2_length _ _ _ H), length_seq |].
  intros i c Hc.
  destruct (Forall2_lookup_r _ _ _ _ _ H Hc) as (j & Hj & Hf).
  apply lookup_seq in Hj as [-> _]. simpl in Hf.
  apply bind_inr in Hf as (row & Hrow & Hf). apply bind_inr in Hf as (fs & Hfs & Hf).
  injection Hf as <-. simpl. do 6 (split; [reflexivity |]).
  exists row. split; [by apply getitem_inr |].
  apply mapM_inr_Forall2 in Hfs.
  eapply Forall2_impl; [exact Hfs |]. simpl. intros x t. apply getitem_inr.
Qed.

Lemma make_clusters_fresh_witness :
  length example_clusters = 2%nat /\
  forall i c, example_clusters !! i = Some c ->
    c_index c = i /\ c_votes c = 0 /\ c_issues c = 0 /\
    c_vote_score c = None /\ c_issue_score c = None /\ c_score c = None /\
    exists row, example_order !! i = Some row /\
                Forall2 (fun x t => example_terms !! x = Some t) (take 10 row) (c_features c).
Proof.
  apply (make_clusters_fresh 2 example_order example_terms example_clusters).
  reflexivity.
Defined.

(** X13.  The cell that builds the cluster list returns exactly when the
    term order has a row for each of the [number_of_clusters] clusters and
    the first ten entries of each of these rows are positions of terms;
    otherwise it raises [IndexError]. *)
Theorem make_clusters_outcomes (K : nat) (order : list (list nat)) (terms : list string) :
  ((exists clusters, make_clusters K order terms = inr clusters) <->
   (K <= length order)%nat /\
   forall i row, (i < K)%nat -> order !! i = Some row ->
                 Forall (fun x => (x < length terms)%nat) (take 10 row)) /\
  (forall e, make_clusters K order terms = inl e -> e = IndexError).
Proof.
  split; [split |].
  - intros [clusters H]. unfold make_clusters in H. apply mapM_inr_Forall2 in H.
    assert (Hrow : forall i, (i < K)%nat ->
              exists row, order !! i = Some row /\ exists fs, features terms row = inr fs).
    { intros i Hi.
      assert (Hi' : seq 0 K !! i = Some i) by (apply lookup_seq; lia).
      destruct (Forall2_lookup_l _ _ _ _ _ H Hi') as (c & _ & Hf). simpl in Hf.
      apply bind_inr in Hf as (row & Hrow & Hf). apply bind_inr in Hf as (fs & Hfs & _).
      exists row. split; [by apply getitem_inr | by exists fs]. }
    split.
    + destruct K as [|K']; [lia |].
      destruct (Hrow K') as (row & Hr & _); [lia |].
      apply lookup_lt_Some in Hr. lia.
    + intros i row Hi Hr. destruct (Hrow i Hi) as (row' & Hr' & Hfs).
      assert (row' = row) as -> by congruence. by apply features_inr_iff.
  - intros [HK Hrows].
    destruct (mapM_Forall2
                (fun i =>
                   let* row := getitem order i in
                   let* fs := features terms row in
                   ret {| c_index := i; c_features := fs; c_votes := 0; c_issues := 0;
                          c_vote_score := None; c_issue_score := None; c_score := None |})
                (fun _ _ => True) (seq 0 K)) as (cs & Hcs & _); [| by exists cs].
    apply Forall_seq. intros i Hi.
    destruct (lookup_lt_is_Some_2 order i) as [row Hr]; [lia |].
    destruct (proj2 (features_inr_iff terms row)) as [fs Hfs]; [apply (Hrows i); [lia | done] |].
    eexists. split; [| done].
    rewrite (proj2 (getitem_inr _ _ _) Hr). cbn [bind]. rewrite Hfs. reflexivity.
  - intros e H. unfold make_clusters in H. apply mapM_inl in H as (i & _ & Hf).
    simpl in Hf. destruct (getitem order i) as [e'|row] eqn:Hr; simpl in Hf.
    + injection Hf as <-. by apply getitem_inl in Hr as [-> _].
    + destruct (features terms row) as [e'|fs] eqn:Hfs; simpl in Hf; [| discriminate].
      injection Hf as <-. by apply features_inl in Hfs.
Qed.

Lemma make_clusters_on_centers_Forall2 (K : nat) (cluster_centers : list (list Q))
    (terms : list string) :
  (K <= length cluster_centers)%nat ->
  Forall (fun row => length row = length terms) cluster_centers ->
  exists clusters,
    make_clusters K (order_centroids cluster_centers) terms = inr clusters /\
    Forall2 (fun _ c => length (c_features c) = min 10 (length terms)) (seq 0 K) clusters.
Proof.
  intros HK Hrows. unfold make_clusters. apply mapM_Forall2.
  apply Forall_seq. intros i Hi.
  destruct (lookup_lt_is_Some_2 cluster_centers i) as [row Hr]; [lia |].
  assert (Hlen : length row = length terms).
  { rewrite Forall_forall in Hrows. apply Hrows. by eapply list_elem_of_lookup_2. }
  assert (Ho : order_centroids cluster_centers !! i = Some (reverse (argsort row))).
  { unfold order_centroids.
    change (map (fun row => reverse (argsort row)) cluster_centers)
      with ((fun row => reverse (argsort row)) <$> cluster_centers).
    by rewrite list_lookup_fmap, Hr. }
  assert (Hperm : reverse (argsort row) ≡ₚ seq 0 (length row))
    by (by rewrite reverse_Permutation, argsort_Permutation).
  destruct (features_inr terms (reverse (argsort row))) as (fs & Hfs & Hfeats).
  { rewrite Hperm, Hlen. apply Forall_seq. intros; lia. }
  eexists. split.
  - rewrite (proj2 (getitem_inr _ _ _) Ho). cbn [bind]. rewrite Hfs. reflexivity.
  - simpl. rewrite <- (Forall2_length _ _ _ Hfeats), length_take, Hperm, length_seq.
    by rewrite Hlen.
Qed.

(** ** The cluster cell *)

Lemma make_clusters_inl (K : nat) (order : list (list nat)) (terms : list string)
    (e : exception) :
  make_clusters K order terms = inl e -> e = IndexError.
Proof.
  intros H. unfold make_clusters in H. apply mapM_inl in H as (i & _ & Hf).
  cbv beta in Hf. destruct (getitem order i) as [e'|row] eqn:Hr; cbn [bind] in Hf.
  - injection Hf as <-. by apply getitem_inl in Hr as [-> _].
  - destruct (features terms row) as [e'|fs] eqn:Hfs; cbn [bind] in Hf; [| discriminate].
    injection Hf as <-. by apply features_inl in Hfs.
Qed.

Section ClusterCellProperties.
Context {vectorizer_state model_state : Type}.
Variable fit_transform : list string -> result (vectorizer_state * list (list Q)).
Variable get_feature_names : vectorizer_state -> list string.
Variable fit : Z -> list (list Q) -> result model_state.
Variable cluster_centers_ : model_state -> list (list Q).

Local Abbreviation cell := (cluster_cell fit_transform get_feature_names fit cluster_centers_).

End ClusterCellProperties.


(** What the first ten positions of a reversed [argsort] are: positions of
    largest weight, without repetition, in descending order of weight. *)
Lemma take_reverse_argsort (row : list Q) :
  let picked := take 10 (reverse (argsort row)) in
  length picked = min 10 (length row) /\
  NoDup picked /\
  StronglySorted (fun i j => (weight_at row j <= weight_at row i)%Q) picked /\
  (forall i j, i ∈ picked -> (j < length row)%nat -> j ∉ picked ->
               (weight_at row j <= weight_at row i)%Q).
Proof.
  pose proof (StronglySorted_reverse _ _ (argsort_sorted row)) as Hsorted.
  assert (Hperm : reverse (argsort row) ≡ₚ seq 0 (length row))
    by (by rewrite reverse_Permutation, argsort_Permutation).
  set (order := reverse (argsort row)) in *. cbv zeta.
  rewrite <- (take_drop 10 order) in Hsorted.
  apply StronglySorted_app in Hsorted as (Hcross & Htake & _).
  split; [by rewrite length_take, Hperm, length_seq |].
  split; [| split; [exact Htake |]].
  - apply (sublist_NoDup (take 10 order) order); [| apply sublist_take].
    rewrite Hperm. apply NoDup_seq.
  - intros i j Hi Hj Hnot. apply (Hcross i j Hi).
    assert (Hin : j ∈ order) by (rewrite Hperm; apply elem_of_seq; lia).
    rewrite <- (take_drop 10 order) in Hin.
    apply elem_of_app in Hin as [Hin | Hin]; [done | exact Hin].
Qed.

(** X14.  On the centres of a model with a row for each cluster, each as
    wide as the vocabulary, the cell that builds the cluster list returns
    one cluster per centre, and the features of the cluster at position
    [i] are the terms of largest weight in centre [i]: ten of them, or all
    the terms when there are fewer, at different positions of the
    vocabulary, in descending order of weight, and no term left out
    weighs more than a term listed. *)
Theorem make_clusters_on_centers (K : nat) (cluster_centers : list (list Q))
    (terms : list string) :
  (K <= length cluster_centers)%nat ->
  Forall (fun row => length row = length terms) cluster_centers ->
  exists clusters,
    make_clusters K (order_centroids cluster_centers) terms = inr clusters /\
    length clusters = K /\
    forall i c row, clusters !! i = Some c -> cluster_centers !! i = Some row ->
      exists picked,
        Forall2 (fun x t => terms !! x = Some t) picked (c_features c) /\
        length picked = min 10 (length terms) /\
        NoDup picked /\
        StronglySorted (fun x y => (weight_at row y <= weight_at row x)%Q) picked /\
        (forall x y, x ∈ picked -> (y < length terms)%nat -> y ∉ picked ->
                     (weight_at row y <= weight_at row x)%Q).
Proof.
  intros HK Hrows.
  destruct (make_clusters_on_centers_Forall2 K cluster_centers terms HK Hrows)
    as (cs & Hcs & HF).
  exists cs. split; [exact Hcs |].
  split; [by rewrite <- (Forall2_length _ _ _ HF), length_seq |].
  intros i c row Hc Hrow.
  assert (Hlen : length row = length terms).
  { rewrite Forall_forall in Hrows. apply Hrows. by eapply list_elem_of_lookup_2. }
  unfold make_clusters in Hcs. apply mapM_inr_Forall2 in Hcs.
  destruct (Forall2_lookup_r _ _ _ _ _ Hcs Hc) as (i' & Hi' & Hf).
  apply lookup_seq in Hi' as [-> _]. cbv beta in Hf. change (0 + i)%nat with i in Hf.
  apply bind_inr in Hf as (order & Horder & Hf). apply bind_inr in Hf as (fs & Hfs & Hf).
  injection Hf as <-. cbn [c_features].
  apply getitem_inr in Horder. unfold order_centroids in Horder.
  change (map (fun row => reverse (argsort row)) cluster_centers)
    with ((fun row => reverse (argsort row)) <$> cluster_centers) in Horder.
  rewrite list_lookup_fmap, Hrow in Horder. injection Horder as <-.
  exists (take 10 (reverse (argsort row))).
  destruct (take_reverse_argsort row) as (Hl & Hnd & Hs & Hrest).
  rewrite <- Hlen. split; [| done].
  apply mapM_inr_Forall2 in Hfs.
  eapply Forall2_impl; [exact Hfs |]. intros x t. apply getitem_inr.
Qed.

(** Two centres over a vocabulary of twelve terms. *)
Lemma make_clusters_on_centers_witness :
  exists clusters,
    make_clusters 2 (order_centroids twelve_centers) twelve_terms = inr clusters /\
    length clusters = 2%nat /\
    forall i c row, clusters !! i = Some c -> twelve_centers !! i = Some row ->
      exists picked,
        Forall2 (fun x t => twelve_terms !! x = Some t) picked (c_features c) /\
        length picked = min 10 (length twelve_terms) /\
        NoDup picked /\
        StronglySorted (fun x y => (weight_at row y <= weight_at row x)%Q) picked /\
        (forall x y, x ∈ picked -> (y < length twelve_terms)%nat -> y ∉ picked ->
                     (weight_at row y <= weight_at row x)%Q).
Proof.
  apply (make_clusters_on_centers 2 twelve_centers twelve_terms).
  - simpl. lia.
  - repeat constructor.
Defined.

(** ** The sample cell, the last cell and the cells together *)

Lemma filterM_filter {A : Type} (f : A -> result bool) (P : A -> Prop)
    `{!forall x, Decision (P x)} (l : list A) :
  Forall (fun x => f x = inr (bool_decide (P x))) l ->
  filterM f l = inr (filter P l).
Proof.
  induction 1 as [|x l Hx _ IH]; simpl; [reflexivity |].
  rewrite Hx, IH. cbn [bind ret]. f_equal.
  destruct (decide (P x)) as [HP | HP].
  - by rewrite bool_decide_eq_true_2, filter_cons_True.
  - by rewrite bool_decide_eq_false_2, filter_cons_False.
Qed.

Lemma filter_fmap_pre {A B : Type} (f : A -> B) (P : B -> Prop)
    `{!forall y, Decision (P y)} (l : list A) :
  filter P (f <$> l) = f <$> filter (fun x => P (f x)) l.
Proof.
  induction l as [|x l IH]; [reflexivity |]. rewrite fmap_cons.
  destruct (decide (P (f x))) as [Hx | Hx].
  - rewrite !filter_cons_True by done. by rewrite fmap_cons, IH.
  - rewrite !filter_cons_False by done. exact IH.
Qed.

Lemma notebook_prioritize (stop_words : list string) (ngram_range : nat * nat)
    (K max_iter n_init : nat) (seed : nat -> list Q -> nat) (vm im : Q)
    (issues : list issue) :
  notebook stop_words ngram_range K max_iter n_init seed vm im issues
  = let* vectorizer := Vectorizer.fit (Vectorizer.Config stop_words ngram_range)
                                      (issue_description <$> issues) in
    let* feature_model :=
      Clustering.train seed (Vectorizer.transform vectorizer <$> (issue_description <$> issues))
                       K max_iter n_init in
    prioritize (Vectorizer.transform vectorizer) (Clustering.predict feature_model.2)
               K feature_model.2 (Vectorizer.vocabulary vectorizer) vm im issues.
Proof. reflexivity. Qed.

Section CellsTogether.
Context {vector : Type}.
Variable transform : string -> vector.
Variable predict : vector -> nat.

Local Abbreviation label_of := (fun i : issue => predict (transform (issue_description i))).

(** X15.  The sample cell draws a position between 0 and the number of
    issues, both included.  On the last value it raises [IndexError];
    on any other it returns the label of the issue drawn and prints the
    features of the cluster at that label. *)
Theorem sample_prediction_outcomes (K : nat) (order : list (list nat)) (terms : list string)
    (clusters : list cluster) (issues : list issue) (idx : nat) :
  make_clusters K order terms = inr clusters ->
  Forall (fun i => (label_of i < K)%nat) issues ->
  (idx <= length issues)%nat ->
  (idx = length issues /\
   sample_prediction transform predict issues order terms idx = inl IndexError) \/
  (exists issue c,
     issues !! idx = Some issue /\ clusters !! label_of issue = Some c /\
     sample_prediction transform predict issues order terms idx
     = inr (label_of issue, c_features c)).
Proof.
  intros Hmake Hlabels Hidx. unfold sample_prediction.
  destruct (issues !! idx) as [issue|] eqn:Hissue.
  - right. rewrite (proj2 (getitem_inr _ _ _) Hissue). cbn [bind].
    assert (Hlt : (label_of issue < K)%nat).
    { rewrite Forall_forall in Hlabels. apply Hlabels. by eapply list_elem_of_lookup_2. }
    unfold make_clusters in Hmake. apply mapM_inr_Forall2 in Hmake.
    assert (Hseq : seq 0 K !! label_of issue = Some (label_of issue))
      by (apply lookup_seq; lia).
    destruct (Forall2_lookup_l _ _ _ _ _ Hmake Hseq) as (c & Hc & Hf). simpl in Hf.
    apply bind_inr in Hf as (row & Hrow & Hf). apply bind_inr in Hf as (fs & Hfs & Hf).
    injection Hf as <-. unfold features in Hfs.
    exists issue. eexists. split; [done |]. split; [exact Hc |].
    rewrite Hrow. cbn [bind]. rewrite Hfs. reflexivity.
  - left. apply lookup_ge_None in Hissue. split; [lia |].
    unfold getitem. assert (issues !! idx = None) as -> by (by apply lookup_ge_None).
    reflexivity.
Qed.

(** X16.  After the cells have run, the last cell lists for the cluster at
    rank [n] exactly the issues whose recorded prediction is the index of
    that cluster, in the order of the issue list; they are as many as the
    issue counter of the cluster says, and their votes add up to its vote
    counter.  When there is no cluster at rank [n] and there is an issue,
    the cell raises [IndexError]. *)
Theorem issues_of_ranked_match_counters (K : nat) (order : list (list nat))
    (terms : list string) (vm im : Q) (issues issues1 : list issue)
    (clusters0 clusters1 scored ranked : list cluster) (n : nat) :
  make_clusters K order terms = inr clusters0 ->
  aggregate transform predict issues clusters0 = inr (issues1, clusters1) ->
  scoring vm im clusters1 = inr scored ->
  clusters_by_score scored = inr ranked ->
  (forall c, ranked !! n = Some c ->
     exists listed,
       issues_of_ranked issues1 ranked n = inr listed /\
       listed = filter (fun i => issue_prediction i = Some (c_index c)) issues1 /\
       Z.of_nat (length listed) = c_issues c /\
       sumZ (issue_votes <$> listed) = c_votes c) /\
  (ranked !! n = None -> issues <> [] ->
   issues_of_ranked issues1 ranked n = inl IndexError).
Proof.
  intros Hmake Hagg Hscore Hrank.
  pose proof Hagg as Hagg'. rewrite aggregate_as_fold in Hagg'.
  apply bind_inr in Hagg' as (cl & Hcl & [= <- <-]).
  split.
  - intros c Hc.
    assert (Hfilter : issues_of_ranked (tag transform predict <$> issues) ranked n
                      = inr (filter (fun i => issue_prediction i = Some (c_index c))
                                    (tag transform predict <$> issues))).
    { unfold issues_of_ranked.
      apply (filterM_filter _ (fun i => issue_prediction i = Some (c_index c))).
      apply Forall_fmap, Forall_forall. intros i _. cbn.
      rewrite (proj2 (getitem_inr _ _ _) Hc). cbn. unfold ret. f_equal.
      apply bool_decide_ext. split; [by intros -> | by intros [= ->]]. }
    eexists. split; [exact Hfilter |]. split; [reflexivity |].
    assert (Hin : c ∈ scored).
    { apply clusters_by_score_Permutation in Hrank. rewrite <- Hrank.
      by eapply list_elem_of_lookup_2. }
    pose proof Hscore as Hscore'.
    apply scoring_index_score in Hscore' as [Hidx _].
    apply make_clusters_index in Hmake. apply aggregate_index in Hagg.
    rewrite Hagg, Hmake in Hidx.
    pose proof (lookup_by_index K scored c Hidx Hin) as Hpos.
    apply scoring_inr_scored_as in Hscore as (? & ? & ? & ? & _ & _ & _ & _ & _ & _ & HF).
    destruct (Forall2_lookup_r _ _ _ _ _ HF Hpos) as (c1 & Hc1 & Hidx1 & _ & Hv1 & Hi1 & _).
    rewrite Hidx1 in Hc1.
    destruct (tally_all_counters transform predict _ _ _ _ _ Hcl Hc1) as (c0 & Hc0 & Hci & Hcv).
    change (map reset_counters clusters0) with (reset_counters <$> clusters0) in Hc0.
    apply list_lookup_fmap_Some in Hc0 as (c00 & -> & _). simpl in Hci, Hcv.
    rewrite Hv1, Hi1, Hci, Hcv, Hidx1.
    assert (Hmap : filter (fun i => issue_prediction i = Some (c_index c1))
                          (tag transform predict <$> issues)
                   = tag transform predict <$> filter (fun i => label_of i = c_index c1) issues).
    { rewrite (filter_fmap_pre (tag transform predict)
                 (fun i => issue_prediction i = Some (c_index c1)) issues).
      f_equal. apply list_filter_iff. intros i. cbn. unfold predicted.
      split; [by intros [= H] | by intros ->]. }
    rewrite Hmap, length_fmap. split; [lia |].
    rewrite <- list_fmap_compose. f_equal.
  - intros Hnone Hne. destruct issues as [|x l]; [done |].
    unfold issues_of_ranked. simpl. unfold getitem. by rewrite Hnone.
Qed.

Lemma prioritize_inl (K : nat) (cluster_centers : list (list Q))
    (terms : list string) (vm im : Q) (issues : list issue) (e : exception) :
  (1 <= K <= length cluster_centers)%nat ->
  Forall (fun row => length row = length terms) cluster_centers ->
  Forall (fun i => (label_of i < K)%nat) issues ->
  prioritize transform predict K cluster_centers terms vm im issues = inl e ->
  e = ZeroDivisionError.
Proof.
  intros [HK1 HK] Hrows Hlabels. unfold prioritize.
  destruct (make_clusters_on_centers_Forall2 K cluster_centers terms HK Hrows)
    as (cs & Hcs & HF).
  rewrite Hcs. cbn [bind].
  assert (Hlen : length cs = K) by (by rewrite <- (Forall2_length _ _ _ HF), length_seq).
  destruct (aggregate_in_range transform predict issues cs) as [c' Hc'];
    [by rewrite Hlen |].
  rewrite Hc'. cbn [bind snd fst].
  assert (Hlen' : length c' = K).
  { apply aggregate_index in Hc'. apply (f_equal length) in Hc'.
    rewrite !length_fmap in Hc'. lia. }
  destruct (scoring_cases vm im c')
    as [[-> _] | (mnv & mxv & mni & mxi & _ & _ & _ & _ & Hcases)];
    [simpl in Hlen'; lia |].
  destruct Hcases as [[_ ->] | (_ & _ & scored & Hs & _)]; [by intros [= <-] |].
  rewrite Hs. cbn [bind].
  apply scoring_index_score in Hs as [_ Hsome].
  unfold clusters_by_score.
  destruct (mapM_keys_cases scored) as [[Hex _] | (_ & keyed & -> & _)].
  - exfalso. apply Exists_exists in Hex as (c & Hc & Hnone).
    rewrite Forall_forall in Hsome. destruct (Hsome c Hc) as [s Hsc]. congruence.
  - cbn [bind ret]. discriminate.
Qed.

(** X17.  On the centres of a model with at least one cluster, a row for
    each cluster, each as wide as the vocabulary, and labels below the
    number of clusters, the cells from the cluster list to the ranking
    raise no look-up error: the cluster list is built and the aggregation
    returns, and then either the scoring pass raises [ZeroDivisionError],
    and so do the cells, or the cells return the issues with their
    predictions, the scored clusters and, as the ranking, the scored
    clusters in descending order of score, those of equal score in
    ascending order of index. *)
Theorem prioritize_fails_only_by_division (K : nat) (cluster_centers : list (list Q))
    (terms : list string) (vm im : Q) (issues : list issue) :
  (1 <= K <= length cluster_centers)%nat ->
  Forall (fun row => length row = length terms) cluster_centers ->
  Forall (fun i => (label_of i < K)%nat) issues ->
  exists clusters0 issues1 clusters1,
    make_clusters K (order_centroids cluster_centers) terms = inr clusters0 /\
    aggregate transform predict issues clusters0 = inr (issues1, clusters1) /\
    ((scoring vm im clusters1 = inl ZeroDivisionError /\
      prioritize transform predict K cluster_centers terms vm im issues
        = inl ZeroDivisionError) \/
     (exists scored ranked,
        scoring vm im clusters1 = inr scored /\
        clusters_by_score scored = inr ranked /\
        prioritize transform predict K cluster_centers terms vm im issues
          = inr (Outcome issues1 scored ranked) /\
        ranked ≡ₚ scored /\
        StronglySorted ranks_before ranked)).
Proof.
  intros [HK1 HK] Hrows Hlabels. unfold prioritize.
  destruct (make_clusters_on_centers_Forall2 K cluster_centers terms HK Hrows)
    as (cs & Hcs & HF).
  rewrite Hcs. cbn [bind].
  assert (Hlen : length cs = K) by (by rewrite <- (Forall2_length _ _ _ HF), length_seq).
  destruct (aggregate_in_range transform predict issues cs) as [c' Hc'];
    [by rewrite Hlen |].
  exists cs, (tag transform predict <$> issues), c'.
  split; [reflexivity |]. split; [exact Hc' |].
  rewrite Hc'. cbn [bind snd fst].
  assert (Hlen' : length c' = K).
  { apply aggregate_index in Hc'. apply (f_equal length) in Hc'.
    rewrite !length_fmap in Hc'. lia. }
  destruct (scoring_cases vm im c')
    as [[-> _] | (mnv & mxv & mni & mxi & _ & _ & _ & _ & Hcases)];
    [simpl in Hlen'; lia |].
  destruct Hcases as [[_ Hs] | (_ & _ & scored & Hs & _)]; rewrite Hs; cbn [bind].
  { left. by split. }
  right. pose proof Hs as Hs'. apply scoring_index_score in Hs' as [Hidx Hsome].
  pose proof (make_clusters_index _ _ _ _ Hcs) as Hidx0.
  pose proof (aggregate_index _ _ _ _ _ _ Hc') as Hidx1.
  rewrite Hidx1, Hidx0 in Hidx.
  destruct (clusters_by_score_sorted scored) as (ranked & Hrank & Hperm & Hsorted);
    [| exact Hsome |].
  { apply (StronglySorted_fmap_inv c_index lt). rewrite Hidx.
    apply StronglySorted_lt_seq. }
  exists scored, ranked. rewrite Hrank. cbn [bind ret]. by repeat split.
Qed.
End CellsTogether.

Lemma sample_prediction_outcomes_witness :
  (4%nat = length example_issues /\
   sample_prediction example_transform example_predict example_issues
     example_order example_terms 4 = inl IndexError) \/
  (exists issue c,
     example_issues !! 4%nat = Some issue /\
     example_clusters !! example_predict (example_transform (issue_description issue))
       = Some c /\
     sample_prediction example_transform example_predict example_issues
       example_order example_terms 4
     = inr (example_predict (example_transform (issue_description issue)), c_features c)).
Proof.
  apply (sample_prediction_outcomes example_transform example_predict 2 example_order
           example_terms example_clusters example_issues 4).
  - reflexivity.
  - repeat constructor.
  - simpl. lia.
Defined.

Lemma issues_of_ranked_match_counters_witness :
  exists ranked,
    clusters_by_score example_scored = inr ranked /\
    (forall c, ranked !! 0%nat = Some c ->
       exists listed,
         issues_of_ranked example_aggregated.1 ranked 0 = inr listed /\
         listed = filter (fun i => issue_prediction i = Some (c_index c))
                         example_aggregated.1 /\
         Z.of_nat (length listed) = c_issues c /\
         sumZ (issue_votes <$> listed) = c_votes c) /\
    (ranked !! 0%nat = None -> example_issues <> [] ->
     issues_of_ranked example_aggregated.1 ranked 0 = inl IndexError).
Proof.
  eexists. split; [reflexivity |].
  apply (issues_of_ranked_match_counters example_transform example_predict 2 example_order
           example_terms 1 1 example_issues example_aggregated.1
           example_clusters example_aggregated.2 example_scored); reflexivity.
Defined.

Lemma prioritize_fails_only_by_division_witness :
  exists clusters0 issues1 clusters1,
    make_clusters 2 (order_centroids [[1 # 3; 2 # 3]; [1; 0]]%Q) example_terms
      = inr clusters0 /\
    aggregate example_transform example_predict example_issues clusters0
      = inr (issues1, clusters1) /\
    ((scoring 1 1 clusters1 = inl ZeroDivisionError /\
      prioritize example_transform example_predict 2
        [[1 # 3; 2 # 3]; [1; 0]]%Q example_terms 1 1 example_issues
        = inl ZeroDivisionError) \/
     (exists scored ranked,
        scoring 1 1 clusters1 = inr scored /\
        clusters_by_score scored = inr ranked /\
        prioritize example_transform example_predict 2
          [[1 # 3; 2 # 3]; [1; 0]]%Q example_terms 1 1 example_issues
          = inr (Outcome issues1 scored ranked) /\
        ranked ≡ₚ scored /\
        StronglySorted ranks_before ranked)).
Proof.
  apply (prioritize_fails_only_by_division example_transform example_predict 2
           [[1 # 3; 2 # 3]; [1; 0]]%Q example_terms 1 1 example_issues).
  - simpl. lia.
  - repeat constructor.
  - repeat constructor.
Defined.

(** ** Listing the issues *)

Lemma round_half_even_bounds (n d : Z) :
  0 <= n -> 0 < d -> n / d <= round_half_even n d <= n / d + 1.
Proof.
  intros Hn Hd. unfold round_half_even.
  destruct (2 * (n mod d) <? d); [lia |].
  destruct (d <? 2 * (n mod d)); [lia |].
  destruct (Z.even (n / d)); lia.
Qed.

Lemma round_half_even_down (n d : Z) :
  2 * (n mod d) < d -> round_half_even n d = n / d.
Proof.
  intros H. unfold round_half_even.
  by destruct (Z.ltb_spec (2 * (n mod d)) d); [| lia].
Qed.

(** Rounding [a / b] at the scale [1 / p] stays below the next integer when
    [b < 2 * p]. *)
Lemma round_half_even_below_next (a b p : Z) :
  0 <= a -> 0 < b -> 0 < p -> b < 2 * p ->
  (a / b) * p <= round_half_even (a * p) b < (a / b + 1) * p.
Proof.
  intros Ha Hb Hp Hbp.
  pose proof (Z.div_mod a b ltac:(lia)) as Ha'.
  pose proof (Z.mod_pos_bound a b Hb) as Hr0.
  pose proof (Z.div_mod (a * p) b ltac:(lia)) as HN.
  pose proof (Z.mod_pos_bound (a * p) b Hb) as Hr.
  pose proof (round_half_even_bounds (a * p) b ltac:(nia) Hb) as Hm.
  set (n := a / b) in *. set (r0 := a mod b) in *.
  set (k := a * p / b) in *. set (r := (a * p) mod b) in *.
  assert (Hk1 : n * p <= k) by nia.
  assert (Hk2 : k <= (n + 1) * p - 1) by nia.
  split; [lia |].
  destruct (decide (k <= (n + 1) * p - 2)) as [Hk | Hk]; [lia |].
  assert (Hk' : k = (n + 1) * p - 1) by lia.
  rewrite round_half_even_down; fold k r; [lia |].
  nia.
Qed.

Lemma pow2_le_ratio_true (e a b : Z) :
  pow2_le_ratio e a b = true <->
  (0 <= e /\ b * 2 ^ e <= a) \/ (e < 0 /\ b <= a * 2 ^ (- e)).
Proof.
  unfold pow2_le_ratio. destruct (Z.leb_spec 0 e).
  - rewrite Z.leb_le. split; [by left | intros [[_ H'] | [H' _]]; [done | lia]].
  - rewrite Z.leb_le. split; [by right | intros [[H' _] | [_ H']]; [lia | done]].
Qed.

Lemma pow2_le_ratio_false (e a b : Z) :
  pow2_le_ratio e a b = false <->
  (0 <= e /\ a < b * 2 ^ e) \/ (e < 0 /\ a * 2 ^ (- e) < b).
Proof.
  unfold pow2_le_ratio. destruct (Z.leb_spec 0 e).
  - rewrite Z.leb_gt. split; [by left | intros [[_ H'] | [H' _]]; [done | lia]].
  - rewrite Z.leb_gt. split; [by right | intros [[H' _] | [_ H']]; [lia | done]].
Qed.

Lemma pow2_split (x y : Z) : 0 <= x -> 0 <= y -> 2 ^ (x + y) = 2 ^ x * 2 ^ y.
Proof. intros. by apply Z.pow_add_r. Qed.

Lemma pow2_pos (x : Z) : 0 <= x -> 0 < 2 ^ x.
Proof. intros. by apply Z.pow_pos_nonneg. Qed.

(** [ratio_exponent a b] is the [e] with [2 ^ e <= a / b < 2 ^ (e + 1)]. *)
Lemma ratio_exponent_spec (a b : Z) :
  0 < a -> 0 < b ->
  pow2_le_ratio (ratio_exponent a b) a b = true /\
  pow2_le_ratio (ratio_exponent a b + 1) a b = false.
Proof.
  intros Ha Hb.
  destruct (Z.log2_spec a Ha) as [Ha1 Ha2]. destruct (Z.log2_spec b Hb) as [Hb1 Hb2].
  pose proof (Z.log2_nonneg a) as Hla. pose proof (Z.log2_nonneg b) as Hlb.
  set (la := Z.log2 a) in *. set (lb := Z.log2 b) in *.
  unfold Z.succ in Ha2, Hb2.
  assert (Hup : pow2_le_ratio (la - lb + 1) a b = false).
  { apply pow2_le_ratio_false. destruct (Z.le_gt_cases 0 (la - lb + 1)) as [H | H].
    - left. split; [done |].
      assert (2 ^ (la + 1) = 2 ^ lb * 2 ^ (la - lb + 1)).
      { rewrite <- pow2_split by lia. f_equal. lia. }
      pose proof (pow2_pos (la - lb + 1) H). nia.
    - right. split; [done |].
      assert (2 ^ lb = 2 ^ (la + 1) * 2 ^ (- (la - lb + 1))).
      { rewrite <- pow2_split by lia. f_equal. lia. }
      pose proof (pow2_pos (- (la - lb + 1)) ltac:(lia)). nia. }
  assert (Hlow : pow2_le_ratio (la - lb - 1) a b = true).
  { apply pow2_le_ratio_true. destruct (Z.le_gt_cases 0 (la - lb - 1)) as [H | H].
    - left. split; [done |].
      assert (2 ^ la = 2 ^ (lb + 1) * 2 ^ (la - lb - 1)).
      { rewrite <- pow2_split by lia. f_equal. lia. }
      pose proof (pow2_pos (la - lb - 1) H). nia.
    - right. split; [done |].
      assert (2 ^ (lb + 1) = 2 ^ la * 2 ^ (- (la - lb - 1))).
      { rewrite <- pow2_split by lia. f_equal. lia. }
      pose proof (pow2_pos (- (la - lb - 1)) ltac:(lia)). nia. }
  unfold ratio_exponent. fold la lb.
  destruct (pow2_le_ratio (la - lb) a b) eqn:He.
  - by split.
  - split; [exact Hlow |]. by replace (la - lb - 1 + 1) with (la - lb) by lia.
Qed.

(** On a numerator below [2 ^ 53], rounding the quotient to a double and
    truncating it gives the floor of the exact quotient. *)
Lemma int_truediv_exact (a b : Z) :
  0 <= a < 2 ^ 53 -> 0 < b ->
  exists x, int_truediv a b = inr x /\ int_of_float x = a / b.
Proof.
  intros [Ha0 Ha] Hb. unfold int_truediv.
  destruct (Z.eqb_spec b 0) as [-> | _]; [lia |].
  destruct (Z.eqb_spec a 0) as [-> | Hne].
  { eexists. split; [reflexivity |]. by rewrite Z.div_0_l by lia. }
  rewrite (Z.abs_eq a), (Z.abs_eq b) by lia.
  rewrite (Z.sgn_pos a), (Z.sgn_pos b) by lia.
  destruct (ratio_exponent_spec a b ltac:(lia) Hb) as [H1 H2].
  set (e := ratio_exponent a b) in *.
  apply pow2_le_ratio_true in H1. apply pow2_le_ratio_false in H2.
  assert (He : e <= 52).
  { destruct (Z.le_gt_cases e 52) as [H | H]; [done | exfalso].
    destruct H1 as [[_ H1] | [H1 _]]; [| lia].
    pose proof (Z.pow_le_mono_r 2 53 e ltac:(lia) ltac:(lia)). nia. }
  destruct (Z.leb_spec 0 (Z.max e (-1022) - 52)) as [Ht | Ht].
  - assert (e = 52) as He52 by lia.
    replace (Z.max e (-1022) - 52) with 0 by lia.
    destruct H1 as [[_ H1] | [H1 _]]; [| lia]. rewrite He52 in H1.
    assert (b = 1) as -> by (change (2 ^ 53) with (2 * 2 ^ 52) in Ha; lia).
    assert (Hm : round_half_even a (1 * 2 ^ 0) = a).
    { change (1 * 2 ^ 0) with 1. rewrite round_half_even_down; [apply Z.div_1_r |].
      rewrite Z.mod_1_r. lia. }
    rewrite Hm.
    assert (Hno : (2 ^ 1024 <=? a * 2 ^ 0) = false).
    { apply Z.leb_gt. pose proof (Z.pow_lt_mono_r 2 53 1024 ltac:(lia) ltac:(lia) ltac:(lia)).
      change (2 ^ 0) with 1. lia. }
    rewrite Hno. cbn [andb Z.leb]. eexists. split; [reflexivity |].
    unfold int_of_float. cbn [exponent mantissa]. change (0 <=? 0) with true. cbv iota.
    change (2 ^ 0) with 1. rewrite Z.div_1_r. lia.
  - cbn [andb]. eexists. split; [reflexivity |].
    unfold int_of_float. cbn [exponent mantissa].
    destruct (Z.leb_spec 0 (Z.max e (-1022) - 52)) as [? | _]; [lia |].
    set (s := - (Z.max e (-1022) - 52)) in *.
    assert (Hs : 0 < s) by lia.
    pose proof (pow2_pos s ltac:(lia)) as Hp.
    pose proof (round_half_even_bounds (a * 2 ^ s) b ltac:(nia) Hb) as Hm.
    assert (Hbounds : (a / b) * 2 ^ s <= round_half_even (a * 2 ^ s) b < (a / b + 1) * 2 ^ s).
    { destruct (Z.le_gt_cases (-1) e) as [He1 | He1].
      - apply round_half_even_below_next; try lia.
        assert (Hs' : s = 52 - e) by lia.
        destruct H1 as [[He0 H1] | [He0 H1]].
        + assert (H53 : 2 ^ 53 = 2 ^ e * 2 ^ (1 + s)).
          { rewrite <- pow2_split by lia. f_equal. lia. }
          rewrite (pow2_split 1 s) in H53 by lia. change (2 ^ 1) with 2 in H53.
          pose proof (pow2_pos e He0). nia.
        + assert (e = -1) as He' by lia. rewrite He' in H1. change (2 ^ (- -1)) with 2 in H1.
          assert (H54 : 2 ^ 54 = 2 * 2 ^ s).
          { replace s with 53 by lia. reflexivity. }
          change (2 ^ 53) with 9007199254740992 in Ha.
          change (2 ^ 54) with 18014398509481984 in H54. lia.
      - destruct H2 as [[He0 _] | [_ H2]]; [lia |].
        assert (H2a : 2 * a < b).
        { pose proof (Z.pow_le_mono_r 2 1 (- (e + 1)) ltac:(lia) ltac:(lia)) as Hpw.
          change (2 ^ 1) with 2 in Hpw. nia. }
        rewrite (Z.div_small a b) by lia.
        assert (Hs2 : 2 ^ s = 2 * 2 ^ (s - 1)).
        { replace s with (1 + (s - 1)) at 1 by lia. rewrite pow2_split by lia. reflexivity. }
        pose proof (pow2_pos (s - 1) ltac:(lia)) as Hp1.
        pose proof (Z.div_mod (a * 2 ^ s) b ltac:(lia)) as HN.
        pose proof (Z.mod_pos_bound (a * 2 ^ s) b Hb) as Hr.
        assert (Hk : a * 2 ^ s / b < 2 ^ (s - 1)).
        { apply Z.div_lt_upper_bound; [done |]. nia. }
        assert (Hs54 : 2 <= 2 ^ (s - 1)).
        { pose proof (Z.pow_le_mono_r 2 1 (s - 1) ltac:(lia) ltac:(lia)) as Hpw.
          by change (2 ^ 1) with 2 in Hpw. }
        pose proof (Z.div_pos (a * 2 ^ s) b ltac:(nia) Hb). lia. }
    pose proof (Z.div_pos (a * 2 ^ s) b ltac:(nia) Hb) as Hk0.
    pose proof (Z.div_pos a b Ha0 Hb) as Hn0.
    rewrite !Z.mul_1_l. rewrite Z.quot_div_nonneg by lia.
    symmetry. apply (Z.div_unique _ _ _ (round_half_even (a * 2 ^ s) b - a / b * 2 ^ s)); lia.
Qed.

(** The two exceptions of the division, and what overflow takes. *)
Lemma int_truediv_inl (a b : Z) :
  (int_truediv a b = inl ZeroDivisionError <-> b = 0) /\
  (forall e, int_truediv a b = inl e -> e = ZeroDivisionError \/ e = OverflowError) /\
  (int_truediv a b = inl OverflowError -> b <> 0 /\ Z.abs b * 2 ^ 1023 <= Z.abs a).
Proof.
  unfold int_truediv. destruct (Z.eqb_spec b 0) as [-> | Hb].
  { split; [done |]. split; [intros e [= <-]; by left | discriminate]. }
  destruct (Z.eqb_spec a 0) as [-> | Ha].
  { split; [split; [discriminate | done] |]. split; discriminate. }
  set (A := Z.abs a). set (B := Z.abs b).
  assert (HA : 0 < A) by (subst A; lia). assert (HB : 0 < B) by (subst B; lia).
  destruct (ratio_exponent_spec A B HA HB) as [H1 H2].
  set (e := ratio_exponent A B) in *.
  set (t := Z.max e (-1022) - 52).
  destruct (Z.leb_spec 0 t) as [Ht | Ht]; cbn [andb];
    [| split; [split; [discriminate | done] |]; split; discriminate].
  destruct (Z.leb_spec (2 ^ 1024) (round_half_even A (B * 2 ^ t) * 2 ^ t)) as [Hov | Hov];
    [| split; [split; [discriminate | done] |]; split; discriminate].
  split; [split; [discriminate | done] |]. split; [intros ? [= <-]; by right |].
  intros _. split; [done |].
  apply pow2_le_ratio_true in H1. apply pow2_le_ratio_false in H2.
  assert (Het : e = t + 52) by lia.
  destruct H1 as [[_ H1] | [H1 _]]; [| lia]. destruct H2 as [[_ H2] | [H2 _]]; [| lia].
  pose proof (pow2_pos t Ht) as Hpt.
  assert (He1 : 2 ^ (e + 1) = 2 ^ t * 2 ^ 53).
  { rewrite <- pow2_split by lia. f_equal. lia. }
  pose proof (round_half_even_bounds A (B * 2 ^ t) ltac:(lia) ltac:(nia)) as [_ Hm].
  assert (Hq : A / (B * 2 ^ t) < 2 ^ 53).
  { apply Z.div_lt_upper_bound; [nia |]. nia. }
  assert (Hlarge : 2 ^ 1024 <= 2 ^ (53 + t)).
  { rewrite pow2_split by lia. nia. }
  apply Z.pow_le_mono_r_iff in Hlarge; [| lia | lia].
  pose proof (Z.pow_le_mono_r 2 1023 e ltac:(lia) ltac:(lia)). nia.
Qed.

Lemma py_str_inj (a b : Z) : py_str a = py_str b -> a = b.
Proof.
  unfold py_str. intros H. apply DecimalZ.to_int_inj.
  assert (Hnonnil : forall n, Z.to_int n <> Decimal.Pos Decimal.Nil /\
                              Z.to_int n <> Decimal.Neg Decimal.Nil).
  { intros [|p|p]; simpl; split; try discriminate;
      intros [= Hp]; by apply DecimalPos.Unsigned.to_uint_nonnil in Hp. }
  destruct (Hnonnil a) as [Ha1 Ha2]. destruct (Hnonnil b) as [Hb1 Hb2].
  pose proof (DecimalString.NilZero.isi _ Ha1 Ha2) as Ha.
  pose proof (DecimalString.NilZero.isi _ Hb1 Hb2) as Hb.
  rewrite H in Ha. congruence.
Qed.

Lemma string_length_app (s t : string) :
  String.length (s +:+ t) = (String.length s + String.length t)%nat.
Proof. induction s as [|c s IH]; simpl; [reflexivity | by rewrite IH]. Qed.

Lemma string_app_inv_tail (s1 s2 t : string) : s1 +:+ t = s2 +:+ t -> s1 = s2.
Proof.
  revert s2. induction s1 as [|c s1 IH]; intros [|c' s2] H.
  - reflexivity.
  - apply (f_equal String.length) in H. rewrite !string_length_app in H.
    cbn [String.length] in H. lia.
  - apply (f_equal String.length) in H. rewrite !string_length_app in H.
    cbn [String.length] in H. lia.
  - change (String c (s1 +:+ t) = String c' (s2 +:+ t)) in H.
    injection H as -> H. f_equal. by apply IH.
Qed.

Lemma format_url_inj (count page page' : Z) :
  format_url page count = format_url page' count -> page = page'.
Proof.
  unfold format_url. intros H.
  apply (inj (String.app _)) in H. apply (inj (String.app _)) in H.
  apply (inj (String.app _)) in H. apply string_app_inv_tail in H.
  by apply py_str_inj.
Qed.

(** X18.  For a total, as the first answer gives it, from 0 to below
    [2 ^ 53] and a positive page size, the generator yields [total // count + 1] URLs, the one for page [p] at
    position [p - 1]; the result at every offset below the total lies on
    one of the pages asked for. *)
Theorem generate_urls_cover_results (numTotalResults count : Z) :
  0 <= numTotalResults < 2 ^ 53 -> 0 < count ->
  exists urls,
    generate_urls numTotalResults count = inr urls /\
    Z.of_nat (length urls) = numTotalResults / count + 1 /\
    (forall page, 1 <= page <= numTotalResults / count + 1 ->
       urls !! Z.to_nat (page - 1) = Some (format_url page count)) /\
    (forall k, 0 <= k < numTotalResults ->
       urls !! Z.to_nat (k / count) = Some (format_url (k / count + 1) count)).
Proof.
  intros Htotal Hcount. unfold generate_urls.
  destruct (int_truediv_exact numTotalResults count Htotal Hcount) as (x & -> & Hx).
  cbn [bind]. rewrite Hx. eexists. split; [reflexivity |].
  assert (Hdiv : 0 <= numTotalResults / count) by (apply Z.div_pos; lia).
  assert (Hpages : forall page, 1 <= page <= numTotalResults / count + 1 ->
            ((fun page => format_url page count)
               <$> py_range 1 (numTotalResults / count + 1 + 1)) !! Z.to_nat (page - 1)
            = Some (format_url page count)).
  { intros page Hpage. rewrite list_lookup_fmap. unfold py_range.
    assert (Hl : seqZ 1 (numTotalResults / count + 1 + 1 - 1) !! Z.to_nat (page - 1)
                 = Some page) by (apply lookup_seqZ; lia).
    by rewrite Hl. }
  split; [| split].
  - rewrite length_fmap. unfold py_range. rewrite length_seqZ. lia.
  - exact Hpages.
  - intros k Hk.
    assert (Hk0 : 0 <= k / count) by (apply Z.div_pos; lia).
    assert (Hk1 : k / count <= numTotalResults / count) by (apply Z.div_le_mono; lia).
    replace (k / count) with (k / count + 1 - 1) at 1 by lia.
    apply Hpages. lia.
Qed.

Lemma generate_urls_cover_results_witness :
  exists urls,
    generate_urls 1750 25 = inr urls /\
    Z.of_nat (length urls) = 1750 / 25 + 1 /\
    (forall page, 1 <= page <= 1750 / 25 + 1 ->
       urls !! Z.to_nat (page - 1) = Some (format_url page 25)) /\
    (forall k, 0 <= k < 1750 ->
       urls !! Z.to_nat (k / 25) = Some (format_url (k / 25 + 1) 25)).
Proof. apply (generate_urls_cover_results 1750 25); [split; [lia | reflexivity] | lia]. Defined.

(** X19.  Once the first answer has given the total, the generator raises
    [ZeroDivisionError] exactly for the page size 0; the only other
    exception is [OverflowError], which takes a
    total of at least [2 ^ 1023] times the page size in absolute value;
    whenever the generator returns, no URL is yielded twice. *)
Theorem generate_urls_outcomes (numTotalResults count : Z) :
  (generate_urls numTotalResults count = inl ZeroDivisionError <-> count = 0) /\
  (forall e, generate_urls numTotalResults count = inl e ->
             e = ZeroDivisionError \/ e = OverflowError) /\
  (generate_urls numTotalResults count = inl OverflowError ->
   count <> 0 /\ Z.abs count * 2 ^ 1023 <= Z.abs numTotalResults) /\
  (forall urls, generate_urls numTotalResults count = inr urls -> NoDup urls).
Proof.
  destruct (int_truediv_inl numTotalResults count) as (Hzero & Hexc & Hover).
  unfold generate_urls.
  destruct (int_truediv numTotalResults count) as [e|x]; cbn [bind ret].
  - split; [| split; [| split; [| discriminate]]].
    + rewrite <- Hzero. split; intros [= ->]; reflexivity.
    + intros e' [= <-]. by apply Hexc.
    + intros [= ->]. by apply Hover.
  - split; [split; [discriminate | intros H; by apply Hzero in H] |].
    split; [discriminate |]. split; [discriminate |].
    intros urls [= <-]. apply NoDup_fmap_2; [| apply NoDup_seqZ].
    intros page page'. apply format_url_inj.
Qed.

(** The page count follows the rounded quotient: for a total just below
    three times a page size of [10 ^ 17], the quotient rounds to 3.0 and
    the generator yields four URLs. *)
Lemma generate_urls_rounded_example :
  (exists urls, generate_urls 299999999999999999 (10 ^ 17) = inr urls /\
                length urls = 4%nat) /\
  generate_urls (10 ^ 400) 1 = inl OverflowError.
Proof. split; [eexists; split |]; vm_compute; reflexivity. Qed.

(** ** Cleaning the descriptions *)

Lemma strip_tags_from_sublist (st : tag_state) (s : string) :
  chars (strip_tags_from st s) `sublist_of` chars s.
Proof.
  revert st. induction s as [|c s IH]; intros st; [done |].
  cbn [strip_tags_from]. destruct st.
  - destruct (Ascii.eqb c LT && opens_tag s).
    + apply sublist_cons, IH.
    + apply (sublist_skip c), IH.
  - apply sublist_cons, IH.
  - destruct (Ascii.eqb c GT); apply sublist_cons, IH.
Qed.

Lemma remove_urls_from_sublist (st : url_state) (s : string) :
  chars (remove_urls_from st s) `sublist_of` chars s.
Proof.
  revert st. induction s as [|c s IH]; intros st; [done |].
  cbn [remove_urls_from]. destruct st.
  - destruct (starts_url (String c s)).
    + apply sublist_cons, IH.
    + apply (sublist_skip c), IH.
  - destruct (Ascii.eqb c LF); apply sublist_cons, IH.
  - destruct (is_break c); [apply sublist_cons, IH |].
    destruct (starts_url (String c s)).
    + apply sublist_cons, IH.
    + apply (sublist_skip c), IH.
Qed.

Lemma shorter_not_eq (out s : string) (c : Ascii.ascii) :
  chars out `sublist_of` chars s -> out <> String c s.
Proof.
  intros Hsub ->. apply sublist_length in Hsub. unfold chars in Hsub. cbn in Hsub. lia.
Qed.

Lemma closes_inv (s : string) :
  closes s = true ->
  exists body post, s = body +:+ String GT post /\ Forall (fun c => c <> LT) (chars body).
Proof.
  induction s as [|c s IH]; cbn [closes]; [discriminate |].
  destruct (Ascii.eqb_spec c GT) as [-> | Hgt].
  - intros _. exists EmptyString, s. split; [reflexivity | constructor].
  - destruct (Ascii.eqb_spec c LT) as [-> | Hlt]; [discriminate |].
    intros H. destruct (IH H) as (body & post & -> & Hbody).
    exists (String c body), post. split; [reflexivity | by constructor].
Qed.

Lemma closes_app (body post : string) :
  Forall (fun c => c <> LT) (chars body) -> closes (body +:+ String GT post) = true.
Proof.
  induction body as [|c body IH]; intros Hbody.
  - reflexivity.
  - apply Forall_cons in Hbody as [Hc Hbody].
    change (String c body +:+ String GT post) with (String c (body +:+ String GT post)).
    cbn [closes]. destruct (Ascii.eqb_spec c GT); [done |].
    destruct (Ascii.eqb_spec c LT); [done |]. by apply IH.
Qed.

Lemma opens_tag_iff (s : string) :
  opens_tag s = true <->
  exists body post,
    s = body +:+ String GT post /\ body <> EmptyString /\
    Forall (fun c => c <> LT) (chars body).
Proof.
  split.
  - destruct s as [|c s]; cbn [opens_tag]; [discriminate |].
    intros [Hc Hs]%andb_true_iff. apply negb_true_iff, Ascii.eqb_neq in Hc.
    apply closes_inv in Hs as (body & post & -> & Hbody).
    exists (String c body), post. split; [reflexivity |]. split; [done | by constructor].
  - intros (body & post & -> & Hne & Hbody).
    destruct body as [|c body]; [done |].
    apply Forall_cons in Hbody as [Hc Hbody].
    change (String c body +:+ String GT post) with (String c (body +:+ String GT post)).
    cbn [opens_tag]. apply andb_true_iff. split.
    + by apply negb_true_iff, Ascii.eqb_neq.
    + by apply closes_app.
Qed.

Lemma strip_tags_fixed_iff (s : string) :
  strip_tags_from Outside s = s <->
  forall pre post, s = pre +:+ String LT post -> opens_tag post = false.
Proof.
  induction s as [|c s IH].
  - split; [| done]. intros _ [|c pre] post H; discriminate.
  - cbn [strip_tags_from]. split.
    + intros H pre post Heq.
      destruct (Ascii.eqb c LT && opens_tag s) eqn:Hopen.
      { by apply shorter_not_eq in H; [| apply strip_tags_from_sublist]. }
      injection H as H. destruct pre as [|c' pre].
      * injection Heq as -> <-. by rewrite Ascii.eqb_refl in Hopen.
      * change (String c' pre +:+ String LT post)
          with (String c' (pre +:+ String LT post)) in Heq.
        injection Heq as -> ->. by apply (proj1 IH H pre).
    + intros H.
      assert (Hopen : Ascii.eqb c LT && opens_tag s = false).
      { destruct (Ascii.eqb_spec c LT) as [-> | Hc]; [| done].
        apply (H EmptyString s). reflexivity. }
      rewrite Hopen. f_equal. apply IH. intros pre post ->.
      apply (H (String c pre) post). reflexivity.
Qed.

(** X20.  Removing the tags leaves a text as it is exactly when the text
    has no ["<"], one or more characters other than ["<"], and a [">"] in
    a row. *)
Theorem strip_tags_unchanged_iff (s : string) : strip_tags s = s <-> ~ has_tag s.
Proof.
  unfold strip_tags. rewrite strip_tags_fixed_iff. split.
  - intros H (pre & body & post & Heq & Hne & Hbody).
    assert (Hopen : opens_tag (body +:+ String GT post) = true).
    { apply opens_tag_iff. by exists body, post. }
    by rewrite (H pre _ Heq) in Hopen.
  - intros H pre post Heq. destruct (opens_tag post) eqn:Hopen; [| done].
    apply opens_tag_iff in Hopen as (body & post' & -> & Hne & Hbody).
    destruct H. by exists pre, body, post'.
Qed.

Lemma strip_tags_prefix (pre s : string) :
  Forall (fun c => c <> LT) (chars pre) ->
  strip_tags_from Outside (pre +:+ s) = pre +:+ strip_tags_from Outside s.
Proof.
  induction pre as [|c pre IH]; intros Hpre; [done |].
  apply Forall_cons in Hpre as [Hc Hpre].
  change (String c pre +:+ s) with (String c (pre +:+ s)).
  cbn [strip_tags_from]. apply Ascii.eqb_neq in Hc. rewrite Hc. cbn [andb].
  by rewrite IH.
Qed.

Lemma strip_tags_inside (body post : string) :
  Forall (fun c => c <> GT) (chars body) ->
  strip_tags_from Inside (body +:+ String GT post) = strip_tags_from Outside post.
Proof.
  induction body as [|c body IH]; intros Hbody.
  - reflexivity.
  - apply Forall_cons in Hbody as [Hc Hbody].
    change (String c body +:+ String GT post) with (String c (body +:+ String GT post)).
    cbn [strip_tags_from]. apply Ascii.eqb_neq in Hc. rewrite Hc. by apply IH.
Qed.

(** X21.  A tag is removed and the text around it is kept: after a text
    without ["<"], a ["<"], a character other than ["<"], characters other
    than ["<"] and [">"] and a [">"] are dropped, and the cleaning goes on
    behind the [">"]. *)
Theorem strip_tags_removes_tag (pre : string) (c : Ascii.ascii) (name post : string) :
  Forall (fun c => c <> LT) (chars pre) ->
  c <> LT ->
  Forall (fun c => c <> LT /\ c <> GT) (chars name) ->
  strip_tags (pre +:+ String LT (String c (name +:+ String GT post)))
  = pre +:+ strip_tags post.
Proof.
  intros Hpre Hc Hname. unfold strip_tags. rewrite strip_tags_prefix by done.
  f_equal. cbn [strip_tags_from]. rewrite Ascii.eqb_refl.
  assert (Hopen : opens_tag (String c (name +:+ String GT post)) = true).
  { apply opens_tag_iff. exists (String c name), post.
    split; [reflexivity |]. split; [done |].
    constructor; [done |]. eapply Forall_impl; [exact Hname |]. by intros ? [? ?]. }
  rewrite Hopen. cbn [andb]. apply strip_tags_inside.
  eapply Forall_impl; [exact Hname |]. by intros ? [? ?].
Qed.

Lemma strip_tags_removes_tag_witness :
  strip_tags ("a " +:+ String LT (String "b" ("r/" +:+ String GT "c <i>d</i>")))
  = "a " +:+ strip_tags "c <i>d</i>".
Proof.
  apply (strip_tags_removes_tag "a " "b" "r/" "c <i>d</i>").
  - repeat constructor; discriminate.
  - discriminate.
  - repeat constructor; discriminate.
Defined.

(** X22.  Cleaning only deletes: the characters left by the removal of
    the tags, by the removal of the URLs, and by the two in the order of
    the cell, are characters of the text, in the order of the text. *)
Theorem cleaning_only_deletes (s : string) :
  chars (strip_tags s) `sublist_of` chars s /\
  chars (remove_urls s) `sublist_of` chars s /\
  chars (remove_urls (strip_tags s)) `sublist_of` chars s.
Proof.
  split; [apply strip_tags_from_sublist |].
  split; [apply remove_urls_from_sublist |].
  etrans; [apply remove_urls_from_sublist | apply strip_tags_from_sublist].
Qed.

Lemma prefix_app_iff (p s : string) :
  String.prefix p s = true <-> exists post, s = p +:+ post.
Proof.
  revert s. induction p as [|a p IH]; intros s.
  - split; [| by destruct s]. intros _. by exists s.
  - destruct s as [|b s]; cbn [String.prefix].
    + split; [discriminate | by intros [post H]].
    + destruct (Ascii.ascii_dec a b) as [-> | Hab].
      * rewrite IH. split; intros [post H]; exists post.
        -- by rewrite H.
        -- change (String b p +:+ post) with (String b (p +:+ post)) in H.
           by injection H.
      * split; [discriminate |]. intros [post H].
        change (String a p +:+ post) with (String a (p +:+ post)) in H.
        injection H as -> _. done.
Qed.

Lemma starts_url_iff (s : string) :
  starts_url s = true <->
  exists post, s = "http://" +:+ post \/ s = "https://" +:+ post.
Proof.
  unfold starts_url. rewrite orb_true_iff, !prefix_app_iff. split.
  - intros [[post H] | [post H]]; exists post; auto.
  - intros [post [H | H]]; [left | right]; by exists post.
Qed.

Lemma remove_urls_fixed_iff (s : string) :
  remove_urls_from Text s = s <->
  forall pre post, s = pre +:+ post -> starts_url post = false.
Proof.
  induction s as [|c s IH].
  - split; [| done]. intros _ [|c pre] post H; [| discriminate].
    change (EmptyString = post) in H. by rewrite <- H.
  - cbn [remove_urls_from]. split.
    + intros H pre post Heq.
      destruct (starts_url (String c s)) eqn:Hstart.
      { by apply shorter_not_eq in H; [| apply remove_urls_from_sublist]. }
      injection H as H. destruct pre as [|c' pre].
      * change (String c s = post) in Heq. by rewrite <- Heq.
      * change (String c' pre +:+ post) with (String c' (pre +:+ post)) in Heq.
        injection Heq as -> ->. by apply (proj1 IH H pre).
    + intros H. rewrite (H EmptyString (String c s)) by reflexivity.
      f_equal. apply IH. intros pre post ->.
      apply (H (String c pre) post). reflexivity.
Qed.

(** X23.  Removing the URLs leaves a text as it is exactly when neither
    ["http://"] nor ["https://"] occurs in it. *)
Theorem remove_urls_unchanged_iff (s : string) : remove_urls s = s <-> ~ has_url s.
Proof.
  unfold remove_urls. rewrite remove_urls_fixed_iff. split.
  - intros H (pre & post & Heq).
    assert (Hstart : exists t, s = pre +:+ t /\ starts_url t = true).
    { destruct Heq as [Heq | Heq]; eexists; (split; [exact Heq |]);
        apply starts_url_iff; exists post; auto. }
    destruct Hstart as (t & Ht & Hstart). by rewrite (H pre t Ht) in Hstart.
  - intros H pre post Heq. destruct (starts_url post) eqn:Hstart; [| done].
    apply starts_url_iff in Hstart as [t Ht]. destruct H. exists pre, t.
    destruct Ht as [-> | ->]; auto.
Qed.

Lemma remove_urls_in_line (line rest : string) :
  Forall (fun c => c <> LF) (chars line) ->
  remove_urls_from Url (line +:+ rest) = remove_urls_from Url rest.
Proof.
  induction line as [|c line IH]; intros Hline; [done |].
  apply Forall_cons in Hline as [Hc Hline].
  change (String c line +:+ rest) with (String c (line +:+ rest)).
  cbn [remove_urls_from]. apply Ascii.eqb_neq in Hc. rewrite Hc. by apply IH.
Qed.

Lemma remove_urls_in_breaks (breaks rest : string) :
  Forall (fun c => is_break c = true) (chars breaks) ->
  remove_urls_from Breaks (breaks +:+ rest) = remove_urls_from Breaks rest.
Proof.
  induction breaks as [|c breaks IH]; intros Hbreaks; [done |].
  apply Forall_cons in Hbreaks as [Hc Hbreaks].
  change (String c breaks +:+ rest) with (String c (breaks +:+ rest)).
  cbn [remove_urls_from]. rewrite Hc. by apply IH.
Qed.

Lemma remove_urls_after_breaks (rest : string) :
  (forall c rest', rest = String c rest' -> is_break c = false) ->
  remove_urls_from Breaks rest = remove_urls_from Text rest.
Proof.
  destruct rest as [|c rest]; intros H; [done |].
  cbn [remove_urls_from]. by rewrite (H c rest).
Qed.

Lemma remove_urls_scheme (scheme rest : string) :
  scheme = "http://" \/ scheme = "https://" ->
  remove_urls_from Text (scheme +:+ rest) = remove_urls_from Url rest.
Proof.
  intros Hscheme.
  assert (Hstart : starts_url (scheme +:+ rest) = true).
  { apply starts_url_iff. exists rest. destruct Hscheme as [-> | ->]; auto. }
  destruct Hscheme as [-> | ->].
  - change ("http://" +:+ rest) with (String "h" ("ttp://" +:+ rest)) in *.
    cbn [remove_urls_from]. rewrite Hstart.
    apply (remove_urls_in_line "ttp://"). repeat constructor; discriminate.
  - change ("https://" +:+ rest) with (String "h" ("ttps://" +:+ rest)) in *.
    cbn [remove_urls_from]. rewrite Hstart.
    apply (remove_urls_in_line "ttps://"). repeat constructor; discriminate.
Qed.

Lemma remove_urls_last_line (line : string) :
  Forall (fun c => c <> LF) (chars line) -> remove_urls_from Url line = EmptyString.
Proof.
  induction line as [|c line IH]; intros Hline; [done |].
  apply Forall_cons in Hline as [Hc Hline].
  cbn [remove_urls_from]. apply Ascii.eqb_neq in Hc. rewrite Hc. by apply IH.
Qed.

(** X24.  A URL goes with the rest of its line and with the line breaks
    behind it: from ["http://"] or ["https://"] on, everything up to the
    line feed, the line feed, and the carriage returns and line feeds that
    follow are dropped, and the cleaning goes on at the next other
    character; a URL in the last line takes the rest of the text. *)
Theorem remove_urls_takes_line (scheme line breaks rest : string) :
  scheme = "http://" \/ scheme = "https://" ->
  Forall (fun c => c <> LF) (chars line) ->
  Forall (fun c => is_break c = true) (chars breaks) ->
  (forall c rest', rest = String c rest' -> is_break c = false) ->
  remove_urls (scheme +:+ line +:+ String LF (breaks +:+ rest)) = remove_urls rest /\
  remove_urls (scheme +:+ line) = EmptyString.
Proof.
  intros Hscheme Hline Hbreaks Hrest. unfold remove_urls. split.
  - rewrite remove_urls_scheme, remove_urls_in_line by done.
    cbn [remove_urls_from]. rewrite Ascii.eqb_refl.
    rewrite remove_urls_in_breaks by done. by apply remove_urls_after_breaks.
  - rewrite remove_urls_scheme by done. by apply remove_urls_last_line.
Qed.

Lemma remove_urls_takes_line_witness :
  remove_urls ("https://" +:+ "a.b/c see" +:+ String LF (String CR (String LF "") +:+ "next"))
  = remove_urls "next" /\
  remove_urls ("https://" +:+ "a.b/c see") = EmptyString.
Proof.
  apply (remove_urls_takes_line "https://" "a.b/c see" (String CR (String LF "")) "next").
  - by right.
  - repeat constructor; discriminate.
  - repeat constructor.
  - intros c rest' [= <- _]. reflexivity.
Defined.

(** X25.  The text in front of the first URL is kept: when neither
    ["http://"] nor ["https://"] begins at a character of [pre], the
    removal of the URLs copies [pre] and goes on behind it. *)
Theorem remove_urls_keeps_prefix (pre s : string) :
  (forall p1 c p2, pre = p1 +:+ String c p2 -> starts_url (String c p2 +:+ s) = false) ->
  remove_urls (pre +:+ s) = pre +:+ remove_urls s.
Proof.
  unfold remove_urls. induction pre as [|c pre IH]; intros H; [done |].
  change (String c pre +:+ s) with (String c (pre +:+ s)).
  cbn [remove_urls_from].
  assert (Hstart : starts_url (String c (pre +:+ s)) = false)
    by (apply (H EmptyString c pre); reflexivity).
  rewrite Hstart. change (String c pre +:+ remove_urls_from Text s)
    with (String c (pre +:+ remove_urls_from Text s)).
  f_equal. apply IH. intros p1 c' p2 ->.
  apply (H (String c p1) c' p2). reflexivity.
Qed.

Lemma remove_urls_keeps_prefix_witness :
  remove_urls ("at " +:+ "http://a.b") = "at " +:+ remove_urls "http://a.b".
Proof.
  apply (remove_urls_keeps_prefix "at " "http://a.b").
  intros p1 c p2 Heq.
  destruct p1 as [|c1 [|c2 [|c3 p1]]].
  - injection Heq as <- <-. reflexivity.
  - injection Heq as _ <- <-. reflexivity.
  - injection Heq as _ _ <- <-. reflexivity.
  - exfalso. injection Heq as _ _ _ Heq. by destruct p1.
Defined.

Lemma mapM_raises {A B : Type} (f : A -> result B) (l : list A) (e0 : exception) :
  (forall x e, f x = inl e -> e = e0) ->
  (exists x, x ∈ l /\ f x = inl e0) ->
  mapM f l = inl e0.
Proof.
  intros Hall. induction l as [|x l IH]; intros (x' & Hin & Hx').
  - by apply elem_of_nil in Hin.
  - cbn [mapM]. destruct (f x) as [e|y] eqn:Hx.
    + by rewrite (Hall x e Hx).
    + apply elem_of_cons in Hin as [-> | Hin]; [congruence |].
      cbn [bind]. rewrite IH by eauto. reflexivity.
Qed.

Lemma clean_issue_cases (unescape : string -> string) (i : raw_issue_detail) :
  (raw_events i = [] /\ clean_issue unescape i = inl IndexError) \/
  (exists comment events,
     raw_events i = comment :: events /\
     clean_issue unescape i =
       inr {| issue_id := raw_issueId i;
              issue_votes := raw_voteCount i;
              issue_dirty_dsecription := default "" comment;
              issue_description :=
                unescape (remove_urls (strip_tags (default "" comment)));
              issue_prediction := None |}).
Proof.
  unfold clean_issue, getitem. destruct (raw_events i) as [|comment events].
  - by left.
  - right. by exists comment, events.
Qed.

(** X26.  The clean-up loop raises exactly when some issue has no event,
    and then [IndexError]; otherwise it gives one issue per record, in the
    order of the records, with the id and the votes of the record, the
    comment of the first event as dirty description (the empty text when
    that event has no comment), its cleaned form as description, and no
    prediction. *)
Theorem clean_issues_outcomes (unescape : string -> string) (raw : list raw_issue_detail) :
  (clean_issues unescape raw = inl IndexError <->
   exists i, i ∈ raw /\ raw_events i = []) /\
  (forall e, clean_issues unescape raw = inl e -> e = IndexError) /\
  (Forall (fun i => raw_events i <> []) raw ->
   exists issues, clean_issues unescape raw = inr issues) /\
  (forall issues, clean_issues unescape raw = inr issues ->
     Forall2 (fun i x =>
                issue_id x = raw_issueId i /\
                issue_votes x = raw_voteCount i /\
                Some (issue_dirty_dsecription x)
                  = default "" <$> head (raw_events i) /\
                issue_description x
                  = unescape (remove_urls (strip_tags (issue_dirty_dsecription x))) /\
                issue_prediction x = None)
             raw issues).
Proof.
  unfold clean_issues.
  assert (Hexc : forall i e, clean_issue unescape i = inl e -> e = IndexError).
  { intros i e He.
    destruct (clean_issue_cases unescape i) as [[_ H] | (? & ? & _ & H)]; congruence. }
  assert (Hempty : forall i, clean_issue unescape i = inl IndexError <-> raw_events i = []).
  { intros i.
    destruct (clean_issue_cases unescape i) as [[H1 H2] | (? & ? & H1 & H2)];
      rewrite H1, H2; split; congruence. }
  split; [| split; [| split]].
  - split.
    + intros H. apply mapM_inl in H as (i & Hin & Hi). exists i. by rewrite <- Hempty.
    + intros (i & Hin & Hi). apply mapM_raises; [exact Hexc |].
      exists i. by rewrite Hempty.
  - intros e H. apply mapM_inl in H as (i & _ & Hi). by apply (Hexc i).
  - intros Hall. destruct (mapM (clean_issue unescape) raw) as [e|issues] eqn:H; [| eauto].
    apply mapM_inl in H as (i & Hin & Hi).
    rewrite Forall_forall in Hall. destruct (Hall i Hin).
    apply Hempty. by rewrite (Hexc i e Hi) in Hi.
  - intros issues H. apply mapM_inr_Forall2 in H.
    eapply Forall2_impl; [exact H |]. intros i x Hx. cbv beta in Hx.
    destruct (clean_issue_cases unescape i) as [[_ H'] | (comment & events & Hev & H')];
      [congruence |].
    rewrite H' in Hx. injection Hx as <-. rewrite Hev. done.
Qed.
